(** * VisionFlowMonitoring: the media pipeline core, embedded and verified

    Shallow embedding of
      - [core/recording.py]  (VideoRecorder),
      - [core/detection.py]  (ObjectDetector, EventDetector),
      - [core/camera.py]     (CameraStream, CameraManager),
      - [api/realtime_detection.py] (RTSPCamera, RealtimeSession).

    Conventions.  Python floats (timestamps, confidences, thresholds) are
    read as exact rationals [Q]; Python ints as [Z]; dictionaries as stdpp
    [gmap]s; lists as [list].  Wall-clock reads ([time.time()]) and the
    outcome of OpenCV / model calls are inputs of the functions that use
    them.  Logging is kept as an explicit list of records. *)

From Stdlib Require Import ZArith QArith Lia Lqa Ascii.
From stdpp Require Import gmap strings list fin_maps pretty.

Local Open Scope Z_scope.

(** ** Logging *)

Inductive Level := INFO | WARNING | ERROR.

(** A log record: level, the site that logged (its message template) and
    the camera or subject the message is about. *)
Record LogRecord := { log_level : Level; log_site : string; log_subject : string }.

Definition logger_info (site subject : string) : LogRecord :=
  {| log_level := INFO; log_site := site; log_subject := subject |}.
Definition logger_warning (site subject : string) : LogRecord :=
  {| log_level := WARNING; log_site := site; log_subject := subject |}.
Definition logger_error (site subject : string) : LogRecord :=
  {| log_level := ERROR; log_site := site; log_subject := subject |}.

(** Python's [int(x)] on a number: truncation toward zero. *)
Definition py_int (x : Q) : Z := Z.quot (Qnum x) (Z.pos (Qden x)).

(** Python's [len] on a list. *)
Definition len {A} (l : list A) : Z := Z.of_nat (length l).

(** ** core/recording.py *)

Module Recording.

(** A decoded image.  Only what the recorder looks at is kept: the identity
    of the pixel data and [frame.size]. *)
Record Frame := { frame_id : nat; frame_size : Z }.

(** Entry of the per-camera buffer: [{'frame': ..., 'timestamp': ...}]. *)
Record FrameData := { fd_frame : Frame; fd_timestamp : Q }.

(** The [metadata] dictionary handed to [add_frame]; both keys are read
    with [dict.get] and a default. *)
Record Metadata := { md_camera_name : option string; md_timestamp : option Q }.

(** The [event] dictionary, every key read with [dict.get]. *)
Record Event := {
  ev_camera_name : option string;
  ev_type : option string;
  ev_timestamp : option Q;
  ev_confidence : option Q;
  ev_bbox : list Q
}.

(** [threading.Thread(target=self._record_event, args=(camera_name, event))] *)
Record Thread := { th_camera : string; th_event : Event }.

Record VideoRecorder := {
  output_dir : string;
  pre_event_seconds : Q;
  post_event_seconds : Q;
  fps : Z;
  codec : string;
  frame_buffer : gmap string (list FrameData);
  max_buffer_frames : Z;
  recording : gmap string bool;
  recording_threads : gmap string Thread
}.

(** [VideoRecorder.__init__].  The product [pre_event_seconds * fps] is a
    float product in the source; it is taken exactly here. *)
Definition init (output_dir : string) (pre_event_seconds post_event_seconds : Q)
    (fps : Z) (codec : string) : VideoRecorder :=
  {| output_dir := output_dir;
     pre_event_seconds := pre_event_seconds;
     post_event_seconds := post_event_seconds;
     fps := fps;
     codec := codec;
     frame_buffer := ∅;
     max_buffer_frames := py_int (pre_event_seconds * inject_Z fps)%Q;
     recording := ∅;
     recording_threads := ∅ |}.

(** The defaults of [__init__]: "./events", 3.0, 5.0, 20, "mp4v". *)
Definition init_default : VideoRecorder :=
  init "./events" 3 5 20 "mp4v".

Definition set_frame_buffer (fb : gmap string (list FrameData)) (r : VideoRecorder) :=
  {| output_dir := output_dir r; pre_event_seconds := pre_event_seconds r;
     post_event_seconds := post_event_seconds r; fps := fps r; codec := codec r;
     frame_buffer := fb; max_buffer_frames := max_buffer_frames r;
     recording := recording r; recording_threads := recording_threads r |}.

Definition set_recording (rc : gmap string bool) (r : VideoRecorder) :=
  {| output_dir := output_dir r; pre_event_seconds := pre_event_seconds r;
     post_event_seconds := post_event_seconds r; fps := fps r; codec := codec r;
     frame_buffer := frame_buffer r; max_buffer_frames := max_buffer_frames r;
     recording := rc; recording_threads := recording_threads r |}.

Definition set_recording_threads (ths : gmap string Thread) (r : VideoRecorder) :=
  {| output_dir := output_dir r; pre_event_seconds := pre_event_seconds r;
     post_event_seconds := post_event_seconds r; fps := fps r; codec := codec r;
     frame_buffer := frame_buffer r; max_buffer_frames := max_buffer_frames r;
     recording := recording r; recording_threads := ths |}.

(** Exceptions the recorder's own statements can raise. *)
Inductive Exn := IndexError.

(** The trimming loop of [add_frame]:
      [while len(buf) > self.max_buffer_frames: buf.pop(0)].
    [pop(0)] on an empty list raises [IndexError]; the list as mutated so
    far is returned with it. *)
Fixpoint trim (maxf : Z) (buf : list FrameData) : list FrameData * option Exn :=
  match buf with
  | [] => if 0 >? maxf then ([], Some IndexError) else ([], None)
  | _ :: rest => if len buf >? maxf then trim maxf rest else (buf, None)
  end.

(** The values the buffer takes after each [pop(0)] of that loop, in order. *)
Fixpoint trim_states (maxf : Z) (buf : list FrameData) : list (list FrameData) :=
  match buf with
  | [] => []
  | _ :: rest => if len buf >? maxf then rest :: trim_states maxf rest else []
  end.

Definition camera_of_metadata (md : Metadata) : string :=
  default "unknown" (md_camera_name md).

(** The buffer of [camera_name] once [add_frame] has passed the
    "initialise if needed" statement. *)
Definition buffer_or_new (camera_name : string) (r : VideoRecorder) : list FrameData :=
  default [] (frame_buffer r !! camera_name).

(** [VideoRecorder.add_frame].  [now] is the value [time.time()] would
    return; [frame = None] is Python's [None]. *)
Definition add_frame (now : Q) (frame : option Frame) (md : Metadata)
    (r : VideoRecorder) : VideoRecorder * option Exn :=
  match frame with
  | None => (r, None)
  | Some f =>
    if frame_size f =? 0 then (r, None) else
    let camera_name := camera_of_metadata md in
    let timestamp := default now (md_timestamp md) in
    let r1 :=
      match frame_buffer r !! camera_name with
      | Some _ => r
      | None => set_recording (<[camera_name := false]> (recording r))
                  (set_frame_buffer (<[camera_name := []]> (frame_buffer r)) r)
      end in
    let appended :=
      buffer_or_new camera_name r1 ++ [{| fd_frame := f; fd_timestamp := timestamp |}] in
    let '(buf, exn) := trim (max_buffer_frames r1) appended in
    (set_frame_buffer (<[camera_name := buf]> (frame_buffer r1)) r1, exn)
  end.

(** Every value the buffer of the frame's camera takes while one
    [add_frame] call runs: after the [append], then after each [pop(0)]. *)
Definition add_frame_states (now : Q) (frame : option Frame) (md : Metadata)
    (r : VideoRecorder) : list (list FrameData) :=
  match frame with
  | None => []
  | Some f =>
    if frame_size f =? 0 then [] else
    let camera_name := camera_of_metadata md in
    let timestamp := default now (md_timestamp md) in
    let appended :=
      buffer_or_new camera_name r ++ [{| fd_frame := f; fd_timestamp := timestamp |}] in
    appended :: trim_states (max_buffer_frames r) appended
  end.

Definition camera_of_event (event : Event) : string :=
  default "unknown" (ev_camera_name event).

(** [VideoRecorder.start_recording]: the new recorder, the thread it
    started (if any) and what it logged. *)
Definition start_recording (event : Event) (r : VideoRecorder)
    : VideoRecorder * option Thread * list LogRecord :=
  let camera_name := camera_of_event event in
  if bool_decide (recording r !! camera_name = Some true) then
    (r, None, [logger_info "start_recording: already recording" camera_name])
  else
    match frame_buffer r !! camera_name with
    | None | Some [] =>
      (r, None, [logger_warning "start_recording: no frame in buffer" camera_name])
    | Some (_ :: _) =>
      let thread := {| th_camera := camera_name; th_event := event |} in
      (set_recording_threads (<[camera_name := thread]> (recording_threads r))
         (set_recording (<[camera_name := true]> (recording r)) r),
       Some thread,
       [logger_info "start_recording: recording started" camera_name])
    end.

(** [VideoRecorder.is_recording] *)
Definition is_recording (camera_name : string) (r : VideoRecorder) : bool :=
  default false (recording r !! camera_name).

(** *** The recording job, [VideoRecorder._record_event] *)

(** What a clip, its thumbnail and its metadata file are named after:
    [f"{camera_name}_{event_type}_{dt.strftime(...)}"]. *)
Record ClipName := { cn_camera : string; cn_event_type : string; cn_timestamp : Q }.

(** Effects of the job on the file system, in program order. *)
Inductive FsAction :=
| OpenVideo (name : ClipName)          (* cv2.VideoWriter(video_path, ...) *)
| WriteVideo (fd : FrameData)          (* out.write(frame) *)
| ReleaseVideo                         (* out.release() *)
| WriteThumbnail (name : ClipName) (f : Frame)   (* cv2.imwrite(thumbnail_path, ...) *)
| WriteMetadata (name : ClipName) (event : Event). (* json.dump(metadata, f) *)

(** The statements of the [try] block that call out of the recorder and
    can therefore raise, in program order. *)
Inductive Stage :=
| Naming          (* datetime.fromtimestamp / strftime *)
| OpenWriter      (* frame.shape, VideoWriter_fourcc, VideoWriter *)
| WriteBuffered   (* writing the snapshot of the buffer *)
| PostCapture     (* the post-event polling loop, its membership test and writes *)
| Release         (* out.release() *)
| Thumbnail       (* cv2.imwrite *)
| Metadata_       (* open(metadata_path, 'w') / json.dump *).

Global Instance Stage_eq_dec : EqDecision Stage.
Proof. solve_decision. Defined.

(** What the world does while one job runs: the stage that raises (if
    any) and the entries the post-event loop picks up from the live
    buffer ([frames_after_event]). *)
Record JobEnv := { job_fault : option Stage; job_new_frames : list FrameData }.

Definition stage_actions (name : ClipName) (event : Event)
    (frames new_frames : list FrameData) (st : Stage) : list FsAction :=
  match st with
  | Naming => []
  | OpenWriter => [OpenVideo name]
  | WriteBuffered => WriteVideo <$> frames
  | PostCapture => WriteVideo <$> new_frames
  | Release => [ReleaseVideo]
  | Thumbnail =>
      match last new_frames, last frames with
      | Some fd, _ => [WriteThumbnail name (fd_frame fd)]
      | None, Some fd => [WriteThumbnail name (fd_frame fd)]
      | None, None => []
      end
  | Metadata_ => [WriteMetadata name event]
  end.

(** Runs the stages in order until the faulty one; a stage that raises
    contributes none of its effects.  The boolean tells whether an
    exception was raised. *)
Fixpoint run_stages (fault : option Stage) (act : Stage -> list FsAction)
    (stages : list Stage) : list FsAction * bool :=
  match stages with
  | [] => ([], false)
  | st :: rest =>
      if bool_decide (fault = Some st) then ([], true)
      else let '(acts, raised) := run_stages fault act rest in (act st ++ acts, raised)
  end.

Definition clip_name (now : Q) (camera_name : string) (event : Event) : ClipName :=
  {| cn_camera := camera_name;
     cn_event_type := default "unknown" (ev_type event);
     cn_timestamp := default now (ev_timestamp event) |}.

(** The [try] block with its [except Exception] handler: file-system
    effects and log. *)
Definition record_event_body (camera_name : string) (event : Event) (env : JobEnv)
    (now : Q) (r : VideoRecorder) : list FsAction * list LogRecord :=
  if bool_decide (job_fault env = Some Naming) then
    ([], [logger_error "_record_event: exception" camera_name])
  else
    match frame_buffer r !! camera_name with
    | None => ([], [logger_error "_record_event: exception" camera_name])  (* KeyError *)
    | Some [] => ([], [logger_error "_record_event: no frame available" camera_name])
    | Some frames =>
        let name := clip_name now camera_name event in
        let '(acts, raised) :=
          run_stages (job_fault env)
            (stage_actions name event frames (job_new_frames env))
            [OpenWriter; WriteBuffered; PostCapture; Release; Thumbnail; Metadata_] in
        (acts, if raised then [logger_error "_record_event: exception" camera_name]
               else [logger_info "_record_event: event recorded" camera_name])
    end.

(** [VideoRecorder._record_event]: the [finally] clause runs on every
    path, also after the early [return]. *)
Definition _record_event (camera_name : string) (event : Event) (env : JobEnv)
    (now : Q) (r : VideoRecorder) : VideoRecorder * list FsAction * list LogRecord :=
  let '(acts, log) := record_event_body camera_name event env now r in
  (set_recording (<[camera_name := false]> (recording r)) r, acts, log).

(** *** The recorder together with its running job threads

    A method call of the recorder is one step; a job thread reads the
    recorder while it runs and writes it once, when it ends. *)
Record System := { sys_recorder : VideoRecorder; sys_active : list Thread }.

Definition spawned (th : option Thread) : list Thread :=
  match th with Some t => [t] | None => [] end.

Inductive step : System -> System -> Prop :=
| step_add_frame s now frame md :
    step s {| sys_recorder := (add_frame now frame md (sys_recorder s)).1;
              sys_active := sys_active s |}
| step_start_recording s event :
    step s {| sys_recorder := (start_recording event (sys_recorder s)).1.1;
              sys_active := sys_active s ++ spawned (start_recording event (sys_recorder s)).1.2 |}
| step_job_end s th env now before after :
    sys_active s = before ++ th :: after ->
    step s {| sys_recorder :=
                (_record_event (th_camera th) (th_event th) env now (sys_recorder s)).1.1;
              sys_active := before ++ after |}.

Inductive reachable : System -> Prop :=
| reachable_init out pre post fps codec :
    reachable {| sys_recorder := init out pre post fps codec; sys_active := [] |}
| reachable_step s s' : reachable s -> step s s' -> reachable s'.

(** The jobs running for one camera. *)
Definition active_jobs (camera_name : string) (s : System) : list Thread :=
  filter (λ th, th_camera th = camera_name) (sys_active s).

(** *** EventManager *)

(** A callback registered with [register_event_callback]: an identity,
    and whether running it on a given event ends in an exception. *)
Record EventCallback := { ecb_id : nat; ecb_raises : Event → bool }.


Record EventManager := {
  event_dir : string;
  has_db_session : bool;
  recorder : VideoRecorder;
  event_callbacks : list EventCallback
}.

(** [EventManager.__init__] *)
Definition new_manager (event_dir : string) (has_db_session : bool) : EventManager :=
  {| event_dir := event_dir; has_db_session := has_db_session;
     recorder := init event_dir 3 5 20 "mp4v"; event_callbacks := [] |}.

Definition set_recorder (r : VideoRecorder) (m : EventManager) : EventManager :=
  {| event_dir := event_dir m; has_db_session := has_db_session m;
     recorder := r; event_callbacks := event_callbacks m |}.

(** [EventManager.add_frame] *)
Definition manager_add_frame (now : Q) (frame : option Frame) (md : Metadata)
    (m : EventManager) : EventManager * option Exn :=
  let '(r, exn) := add_frame now frame md (recorder m) in (set_recorder r m, exn).

(** [EventManager.register_event_callback] *)
Definition register_event_callback (cb : EventCallback) (m : EventManager) : EventManager :=
  {| event_dir := event_dir m; has_db_session := has_db_session m;
     recorder := recorder m; event_callbacks := event_callbacks m ++ [cb] |}.




(** A metadata file of the event directory, as [json.load] returns it
    ([camera_name] and [event_type] are read with [dict.get]). *)
Record StoredEvent := {
  se_camera_name : option string;
  se_event_type : option string;
  se_timestamp : Q
}.

(** A filter argument is applied when it is truthy: not [None] and not
    the empty string. *)
Definition filter_rejects (wanted : option string) (actual : option string) : bool :=
  match wanted with
  | None => false
  | Some w => if decide (w = "") then false else negb (bool_decide (actual = Some w))
  end.

(** Python's [l[:n]]. *)
Definition slice_to {A} (n : Z) (l : list A) : list A :=
  if 0 <=? n then take (Z.to_nat n) l else take (length l - Z.to_nat (- n)) l.

(** The reading loop of [_get_events_from_files]; a file that cannot be
    read or parsed is [None] (the error is logged and the file skipped). *)
Fixpoint read_events (limit : Z) (camera_name event_type : option string)
    (files : list (option StoredEvent)) (events : list StoredEvent) : list StoredEvent :=
  match files with
  | [] => events
  | None :: rest => read_events limit camera_name event_type rest events
  | Some e :: rest =>
      if filter_rejects camera_name (se_camera_name e) then
        read_events limit camera_name event_type rest events
      else if filter_rejects event_type (se_event_type e) then
        read_events limit camera_name event_type rest events
      else
        let events := events ++ [e] in
        if len events >=? limit then events
        else read_events limit camera_name event_type rest events
  end.

(** [EventManager._get_events_from_files]; [files] are the [*.json] files
    of the directory, most recently modified first. *)
Definition _get_events_from_files (limit : Z) (camera_name event_type : option string)
    (files : list (option StoredEvent)) : list StoredEvent :=
  read_events limit camera_name event_type (slice_to (limit * 2) files) [].

End Recording.

(** ** core/detection.py *)

Module Detection.

(** What the detectors read of a frame: [frame.shape[:2]] and, through
    the channel count, [frame.size]. *)
Record Frame := { height : Z; width : Z; channels : Z }.

Definition size (f : Frame) : Z := height f * width f * channels f.

Record DetectionResult := {
  class_id : Z;
  class_name : string;
  confidence : Q;
  bbox : list Q;      (* [x_center, y_center, width, height], normalised *)
  frame_width : Z;
  frame_height : Z
}.

(** One row of [results.boxes.data.tolist()]: x1, y1, x2, y2, conf, class_id. *)
Record RawBox := { x1 : Q; y1 : Q; x2 : Q; y2 : Q; box_conf : Q; box_class : Q }.

(** The loaded YOLO model as the detector uses it: called on a frame with
    a confidence threshold it returns boxes, or raises ([None]). *)
Definition Model := Frame → Q → option (list RawBox).

Record ObjectDetector := {
  conf_threshold : Q;
  model : option Model;            (* [None] when YOLO is missing or loading failed *)
  class_names : gmap Z string
}.

(** Python's two-argument [max] and [min]: the first argument wins ties. *)
Definition py_max (a b : Q) : Q := if Qlt_le_dec a b then b else a.
Definition py_min (a b : Q) : Q := if Qlt_le_dec b a then b else a.

Definition clamp01 (x : Q) : Q := py_max 0 (py_min 1 x).

(** The body of the [for result in ...] loop of [detect]; [None] is
    [continue]. *)
Definition detection_of_box (d : ObjectDetector) (f : Frame)
    (classes : option (list string)) (b : RawBox) : option DetectionResult :=
  let cid := py_int (box_class b) in
  let cname := default ("classe_" +:+ pretty cid) (class_names d !! cid) in
  let filtered_out :=
    match classes with
    | Some (c :: cs) => negb (bool_decide (cname ∈ c :: cs))
    | _ => false
    end in
  if filtered_out then None else
  let w := inject_Z (width f) in
  let h := inject_Z (height f) in
  Some {| class_id := cid;
          class_name := cname;
          confidence := box_conf b;
          bbox := [clamp01 (((x1 b + x2 b) / 2) / w); clamp01 (((y1 b + y2 b) / 2) / h);
                   clamp01 ((x2 b - x1 b) / w); clamp01 ((y2 b - y1 b) / h)]%Q;
          frame_width := width f;
          frame_height := height f |}.

(** [ObjectDetector.detect]: the value returned to the caller and what
    was logged meanwhile. *)
Definition detect (d : ObjectDetector) (frame : option Frame)
    (classes : option (list string)) (conf : option Q)
    : list DetectionResult * list LogRecord :=
  match frame, model d with
  | Some f, Some m =>
      if size f =? 0 then ([], []) else
      let confidence := default (conf_threshold d) conf in
      match m f confidence with
      | Some boxes => (omap (detection_of_box d f classes) boxes, [])
      | None => ([], [logger_error "detect: exception during detection" ""])
      end
  | _, _ => ([], [])
  end.

(** *** EventDetector *)

Record EventDetector := {
  detector : ObjectDetector;
  min_confidence : Q;
  classes_of_interest : list string;
  last_event_time : gmap string Q;
  min_event_interval : Q
}.

(** [EventDetector.__init__] *)
Definition init (detector : ObjectDetector) (min_confidence : Q) : EventDetector :=
  {| detector := detector;
     min_confidence := min_confidence;
     classes_of_interest := ["person"; "car"; "truck"; "bus"; "bicycle"; "motorcycle"];
     last_event_time := ∅;
     min_event_interval := 5 |}.

Definition set_last_event_time (m : gmap string Q) (ed : EventDetector) : EventDetector :=
  {| detector := detector ed; min_confidence := min_confidence ed;
     classes_of_interest := classes_of_interest ed;
     last_event_time := m; min_event_interval := min_event_interval ed |}.

Record Metadata := { md_camera_name : option string; md_timestamp : option Q }.

Record Event := {
  type : string;
  ev_confidence : Q;
  ev_bbox : list Q;
  timestamp : Q;
  camera_name : string
}.

(** A value of [detections_by_class]: the list is created with its first
    detection and only appended to, so it is kept as head and tail. *)
Definition Group : Type := string * (DetectionResult * list DetectionResult).

(** One round of the grouping loop.  The dictionary keeps insertion
    order, which is the order the classes are visited in afterwards. *)
Fixpoint group_add (d : DetectionResult) (groups : list Group) : list Group :=
  match groups with
  | [] => [(class_name d, (d, []))]
  | (c, (d0, ds)) :: rest =>
      if decide (c = class_name d) then (c, (d0, ds ++ [d])) :: rest
      else (c, (d0, ds)) :: group_add d rest
  end.

Definition detections_by_class (detections : list DetectionResult) : list Group :=
  foldl (λ groups d, group_add d groups) [] detections.

(** [max(class_detections, key=lambda d: d.confidence)]: the first
    detection of maximal confidence. *)
Fixpoint max_by_confidence (best : DetectionResult) (ds : list DetectionResult)
    : DetectionResult :=
  match ds with
  | [] => best
  | d :: rest =>
      max_by_confidence (if Qlt_le_dec (confidence best) (confidence d) then d else best) rest
  end.

Definition event_key (camera_name class_name : string) : string :=
  camera_name +:+ "_" +:+ class_name.

(** One round of the loop over [detections_by_class.items()]. *)
Definition check_class (camera_name : string) (current_time interval : Q)
    (st : gmap string Q * list Event) (g : Group) : gmap string Q * list Event :=
  let '(last, events) := st in
  let '(cname, (d0, ds)) := g in
  let key := event_key camera_name cname in
  let last_time := default 0%Q (last !! key) in
  if Qlt_le_dec (current_time - last_time) interval then (last, events)
  else
    let best_detection := max_by_confidence d0 ds in
    (<[key := current_time]> last,
     events ++ [{| type := cname;
                   ev_confidence := confidence best_detection;
                   ev_bbox := bbox best_detection;
                   timestamp := current_time;
                   camera_name := camera_name |}]).

(** [EventDetector._check_events]: the events and the detector with its
    [last_event_time] updated.  [now] stands for [time.time()]. *)
Definition _check_events (now : Q) (ed : EventDetector)
    (detections : list DetectionResult) (md : Metadata) : list Event * EventDetector :=
  let current_time := default now (md_timestamp md) in
  let camera_name := default "unknown" (md_camera_name md) in
  let '(last, events) :=
    foldl (check_class camera_name current_time (min_event_interval ed))
      (last_event_time ed, []) (detections_by_class detections) in
  (events, set_last_event_time last ed).

(** The dictionary [process_frame] returns, without the drawn frame. *)
Record ProcessResult := {
  pr_detections : list DetectionResult;
  pr_events : list Event;
  pr_timestamp : Q;
  pr_camera_name : string
}.

Definition of_interest (ed : EventDetector) (d : DetectionResult) : bool :=
  bool_decide (class_name d ∈ classes_of_interest ed) &&
  Qle_bool (min_confidence ed) (confidence d).

(** [EventDetector.process_frame]; [None] is the empty dictionary
    returned for a [None] frame. *)
Definition process_frame (now : Q) (ed : EventDetector) (frame : option Frame)
    (md : Metadata) : option ProcessResult * EventDetector * list LogRecord :=
  match frame with
  | None => (None, ed, [])
  | Some f =>
      let '(detections, log) := detect (detector ed) (Some f) None None in
      let filtered_detections := filter (λ d, of_interest ed d = true) detections in
      let '(events, ed') := _check_events now ed filtered_detections md in
      (Some {| pr_detections := filtered_detections;
               pr_events := events;
               pr_timestamp := default 0%Q (md_timestamp md);
               pr_camera_name := default "unknown" (md_camera_name md) |},
       ed', log)
  end.

(** *** Pixel boxes and drawing *)

(** [DetectionResult.bbox_pixels]: [x, y, w, h] with the top-left corner;
    [None] is the [IndexError] of a [bbox] with fewer than four entries. *)
Definition bbox_pixels (d : DetectionResult) : option (Z * Z * Z * Z) :=
  match bbox d with
  | b0 :: b1 :: b2 :: b3 :: _ =>
      let x_center := (b0 * inject_Z (frame_width d))%Q in
      let y_center := (b1 * inject_Z (frame_height d))%Q in
      let w := (b2 * inject_Z (frame_width d))%Q in
      let h := (b3 * inject_Z (frame_height d))%Q in
      let x := py_int (x_center - w / 2) in
      let y := py_int (y_center - h / 2) in
      Some (Z.max 0 x, Z.max 0 y, py_int w, py_int h)
  | _ => None
  end.

(** [DetectionResult.center] *)
Definition center (d : DetectionResult) : option (Z * Z) :=
  match bbox_pixels d with
  | Some (x, y, w, h) => Some (x + w / 2, y + h / 2)
  | None => None
  end.



End Detection.

(** ** core/camera.py *)

Module Camera.

Record CameraConfig := {
  name : string;
  rtsp_url : string;
  width : Z;
  height : Z;
  fps : Z;
  reconnect_interval : Z
}.

(** [CameraConfig(name=..., rtsp_url=...)] with the dataclass defaults. *)
Definition default_config (name rtsp_url : string) : CameraConfig :=
  {| name := name; rtsp_url := rtsp_url; width := 1280; height := 720; fps := 25;
     reconnect_interval := 5 |}.

(** A captured image: its pixel content and [frame.shape[:2]]. *)
Record Frame := { pixels : nat; frame_height : Z; frame_width : Z }.

(** [frame.copy()]: a new array with the same content. *)
Definition copy (f : Frame) : Frame := f.

Record Metadata := {
  md_camera_name : string;
  md_timestamp : Q;
  md_width : Z;
  md_height : Z
}.

(** A registered callback: an identity, and whether running it on a
    given frame ends in an exception (of class [Exception]). *)
Record Callback := { cb_id : nat; cb_raises : Frame → Metadata → bool }.

(** A [cv2.VideoCapture] handle: what [isOpened()] can still answer. *)
Record Capture := { cap_opened : bool }.

(** What the code does to the outside, in program order. *)
Inductive Effect :=
| Log (r : LogRecord)
| Sleep (seconds : Q)
| Release                                      (* cap.release() *)
| Join                                         (* thread.join(timeout=5.0) *)
| Call (cb : nat) (f : Frame) (md : Metadata)  (* callback(frame.copy(), metadata) *)
| GcCollect.

Record CameraStream := {
  config : CameraConfig;
  cap : option Capture;
  frame : option Frame;
  running : bool;
  thread : bool;                   (* a thread object has been created *)
  callbacks : list Callback;
  connected : bool
}.

(** [CameraStream.__init__] *)
Definition new_stream (config : CameraConfig) : CameraStream :=
  {| config := config; cap := None; frame := None; running := false; thread := false;
     callbacks := []; connected := false |}.

Definition set_cap (c : option Capture) (s : CameraStream) : CameraStream :=
  {| config := config s; cap := c; frame := frame s; running := running s;
     thread := thread s; callbacks := callbacks s; connected := connected s |}.
Definition set_frame (f : option Frame) (s : CameraStream) : CameraStream :=
  {| config := config s; cap := cap s; frame := f; running := running s;
     thread := thread s; callbacks := callbacks s; connected := connected s |}.
Definition set_running (b : bool) (s : CameraStream) : CameraStream :=
  {| config := config s; cap := cap s; frame := frame s; running := b;
     thread := thread s; callbacks := callbacks s; connected := connected s |}.
Definition set_thread (b : bool) (s : CameraStream) : CameraStream :=
  {| config := config s; cap := cap s; frame := frame s; running := running s;
     thread := b; callbacks := callbacks s; connected := connected s |}.
Definition set_callbacks (cbs : list Callback) (s : CameraStream) : CameraStream :=
  {| config := config s; cap := cap s; frame := frame s; running := running s;
     thread := thread s; callbacks := cbs; connected := connected s |}.
Definition set_connected (b : bool) (s : CameraStream) : CameraStream :=
  {| config := config s; cap := cap s; frame := frame s; running := running s;
     thread := thread s; callbacks := callbacks s; connected := b |}.

(** [CameraStream.add_callback] *)
Definition add_callback (cb : Callback) (s : CameraStream) : CameraStream :=
  set_callbacks (callbacks s ++ [cb]) s.

(** How one attempt to open the source ends. *)
Inductive ConnectOutcome :=
| ConnectRaises       (* cv2.VideoCapture(...) raises *)
| ConnectNotOpened    (* the handle is created but isOpened() is false *)
| ConnectNoFrame      (* opened, but the test read gives no frame *)
| ConnectOk.

(** How one [self.cap.read()] ends. *)
Inductive ReadOutcome :=
| ReadFrame (f : Frame)   (* ret is true and a frame is returned *)
| ReadNothing             (* ret is false or the frame is None *)
| ReadRaises.             (* an exception is raised *)

(** What the world answers during one round of the capture loop. *)
Record IterEnv := {
  env_now : Q;                  (* time.time() at the top of the round *)
  env_open : bool;              (* isOpened() of a handle that was opened and not released *)
  env_connect : ConnectOutcome; (* outcome of _connect, should the round call it *)
  env_read : ReadOutcome;       (* outcome of cap.read(), should the round call it *)
  env_frame_time : Q            (* time.time() inside _process_frame *)
}.

Definition released : Capture := {| cap_opened := false |}.
Definition opened : Capture := {| cap_opened := true |}.

(** [self.cap and self.cap.isOpened()] *)
Definition cap_is_open (env : IterEnv) (s : CameraStream) : bool :=
  match cap s with
  | Some c => cap_opened c && env_open env
  | None => false
  end.

(** [CameraStream._connect] *)
Definition _connect (env : IterEnv) (s : CameraStream)
    : CameraStream * bool * list Effect :=
  let cam := name (config s) in
  let '(s, pre) :=
    match cap s with
    | Some _ => (set_cap (Some released) s,
                 [Log (logger_info "_connect: connecting" cam); Release;
                  Log (logger_info "_connect: previous capture released" cam);
                  Sleep (1 # 2)])
    | None => (s, [Log (logger_info "_connect: connecting" cam)])
    end in
  match env_connect env with
  | ConnectRaises =>
      (s, false, pre ++ [Log (logger_error "_connect: exception" cam)])
  | ConnectNotOpened =>
      (set_cap (Some released) s, false,
       pre ++ [Log (logger_error "_connect: could not open" cam)])
  | ConnectNoFrame =>
      (set_cap (Some released) s, false,
       pre ++ [Log (logger_error "_connect: no valid frame" cam); Release])
  | ConnectOk =>
      (set_connected true (set_cap (Some opened) s), true,
       pre ++ [Log (logger_info "_connect: configuring" cam);
               Log (logger_info "_connect: actual properties" cam);
               Log (logger_info "_connect: connected" cam)])
  end.

(** The [for callback in self.callbacks] loop of [_process_frame]. *)
Fixpoint fan_out (cbs : list Callback) (f : Frame) (md : Metadata) : list Effect :=
  match cbs with
  | [] => []
  | cb :: rest =>
      Call (cb_id cb) (copy f) md ::
      (if cb_raises cb (copy f) md
       then Log (logger_error "_process_frame: callback error" (md_camera_name md))
              :: fan_out rest f md
       else fan_out rest f md)
  end.

(** [CameraStream._process_frame]; [now] is its [time.time()]. *)
Definition _process_frame (now : Q) (f : option Frame) (s : CameraStream) : list Effect :=
  match f with
  | None => []
  | Some f =>
      let metadata :=
        {| md_camera_name := name (config s); md_timestamp := now;
           md_width := frame_width f; md_height := frame_height f |} in
      fan_out (callbacks s) f metadata
  end.

(** The local variables of [_run]. *)
Record RunState := {
  frame_count : Z;
  error_count : Z;
  last_log_time : Q;
  last_reconnect_time : Q;
  reconnect_attempts : Z
}.

Definition max_reconnect_attempts : Z := 5.

(** The locals as [_run] initialises them; [now] is its [time.time()]. *)
Definition run_init (now : Q) : RunState :=
  {| frame_count := 0; error_count := 0; last_log_time := now;
     last_reconnect_time := 0; reconnect_attempts := 0 |}.

Definition set_error_count (n : Z) (l : RunState) : RunState :=
  {| frame_count := frame_count l; error_count := n; last_log_time := last_log_time l;
     last_reconnect_time := last_reconnect_time l;
     reconnect_attempts := reconnect_attempts l |}.
Definition set_frame_count (n : Z) (l : RunState) : RunState :=
  {| frame_count := n; error_count := error_count l; last_log_time := last_log_time l;
     last_reconnect_time := last_reconnect_time l;
     reconnect_attempts := reconnect_attempts l |}.
Definition set_reconnect_attempts (n : Z) (l : RunState) : RunState :=
  {| frame_count := frame_count l; error_count := error_count l;
     last_log_time := last_log_time l;
     last_reconnect_time := last_reconnect_time l; reconnect_attempts := n |}.
Definition set_last_reconnect_time (t : Q) (l : RunState) : RunState :=
  {| frame_count := frame_count l; error_count := error_count l;
     last_log_time := last_log_time l;
     last_reconnect_time := t; reconnect_attempts := reconnect_attempts l |}.

(** The periodic log of the [try] block: every 5 seconds it prints the
    counters and clears both of them. *)
Definition periodic_log (env : IterEnv) (cam : string) (l : RunState)
    : RunState * list Effect :=
  if Qlt_le_dec 5 (env_now env - last_log_time l) then
    ({| frame_count := 0; error_count := 0; last_log_time := env_now env;
        last_reconnect_time := last_reconnect_time l;
        reconnect_attempts := reconnect_attempts l |},
     [Log (logger_info "_run: frames captured, errors since last log" cam)])
  else (l, []).

(** [if self.cap: self.cap.release()] *)
Definition release_cap (s : CameraStream) : CameraStream * list Effect :=
  match cap s with
  | Some _ => (set_cap (Some released) s, [Release])
  | None => (s, [])
  end.

(** The [try ... except] part of one round of [_run], from "Tentar ler
    um frame" to the end of the round. *)
Definition read_round (env : IterEnv) (s : CameraStream) (l : RunState)
    : CameraStream * RunState * list Effect :=
  let cam := name (config s) in
  if negb (cap_is_open env s) then
    (set_connected false s, l, [Log (logger_warning "_run: capture closed unexpectedly" cam)])
  else
    match env_read env with
    | ReadRaises =>
        let l := set_error_count (error_count l + 1) l in
        if error_count l >? 3 then
          let '(s, rel) := release_cap s in
          (set_connected false s, l,
           [Log (logger_error "_run: exception reading frame" cam);
            Log (logger_error "_run: too many consecutive exceptions, reconnecting" cam)]
           ++ rel)
        else (s, l, [Log (logger_error "_run: exception reading frame" cam)])
    | ReadNothing =>
        let '(l, plog) := periodic_log env cam l in
        let l := set_error_count (error_count l + 1) l in
        if error_count l >? 5 then
          let '(s, rel) := release_cap s in
          (set_connected false s, l,
           plog ++ [Log (logger_warning "_run: failed to read frame" cam);
                    Log (logger_error "_run: too many consecutive failures, reconnecting" cam)]
           ++ rel ++ [Sleep 1])
        else
          (s, l, plog ++ [Log (logger_warning "_run: failed to read frame" cam);
                          Sleep (1 # 10); Sleep (1 # 100)])
    | ReadFrame f =>
        let '(l, plog) := periodic_log env cam l in
        let l := set_error_count 0 (set_frame_count (frame_count l + 1) l) in
        let s := set_frame (Some f) (set_connected true s) in
        (s, l, plog ++ _process_frame (env_frame_time env) (Some f) s ++ [Sleep (1 # 100)])
    end.

(** One round of the [while self.running] loop of [_run]. *)
Definition run_round (env : IterEnv) (s : CameraStream) (l : RunState)
    : CameraStream * RunState * list Effect :=
  let cam := name (config s) in
  let current_time := env_now env in
  if cap_is_open env s then read_round env s l
  else
    let s := set_connected false s in
    if Qlt_le_dec (current_time - last_reconnect_time l)
                  (inject_Z (reconnect_interval (config s))) then
      (s, l, [Sleep (1 # 2)])
    else
      let l := set_reconnect_attempts (reconnect_attempts l + 1)
                 (set_last_reconnect_time current_time l) in
      let warn := Log (logger_warning "_run: capture not open, reconnecting" cam) in
      if reconnect_attempts l >? max_reconnect_attempts then
        (s, set_reconnect_attempts 0 l,
         [warn; Log (logger_error "_run: reconnect attempts exceeded" cam);
          Sleep (inject_Z (reconnect_interval (config s) * 2))])
      else
        let '(s, ok, eff) := _connect env s in
        if ok then
          let l := set_error_count 0 (set_reconnect_attempts 0 l) in
          let '(s, l, eff') := read_round env s l in
          (s, l, warn :: eff ++ [Log (logger_info "_run: reconnected" cam)] ++ eff')
        else
          (s, l, warn :: eff ++ [Log (logger_error "_run: reconnect failed" cam);
                               Sleep (inject_Z (reconnect_interval (config s)))])
  .

(** The [while self.running] loop over the rounds the world allows
    ([running] is cleared by [stop], from another thread, between
    rounds). *)
Fixpoint run_rounds (envs : list IterEnv) (s : CameraStream) (l : RunState)
    : CameraStream * RunState * list Effect :=
  match envs with
  | [] => (s, l, [])
  | env :: rest =>
      if running s then
        let '(s1, l1, eff1) := run_round env s l in
        let '(s2, l2, eff2) := run_rounds rest s1 l1 in
        (s2, l2, eff1 ++ eff2)
      else (s, l, [])
  end.

(** [CameraStream._run]: the locals are initialised, then the loop runs;
    [now] is the [time.time()] read for [last_log_time]. *)
Definition _run (now : Q) (envs : list IterEnv) (s : CameraStream)
    : CameraStream * RunState * list Effect :=
  run_rounds envs s (run_init now).

(** [CameraStream.start] *)
Definition start (env : IterEnv) (s : CameraStream) : CameraStream * bool * list Effect :=
  if running s then
    (s, true, [Log (logger_warning "start: capture already running" (name (config s)))])
  else
    let '(s, ok, eff) := _connect env s in
    if ok then
      (set_thread true (set_running true s), true,
       eff ++ [Log (logger_info "start: capture started" (name (config s)))])
    else (s, false, eff).

(** [CameraStream.stop] *)
Definition stop (s : CameraStream) : CameraStream * list Effect :=
  if negb (running s) then (s, [])
  else
    let s := set_running false s in
    let joined := if thread s then [Join] else [] in
    let '(s, rel) := release_cap s in
    (set_connected false s,
     [Log (logger_info "stop: stopping capture" (name (config s)))] ++ joined ++ rel).

(** *** CameraManager *)

Record CameraManager := { cameras : gmap string CameraStream }.

(** [CameraManager.add_camera] *)
Definition add_camera (camera_id name rtsp_url : string) (m : CameraManager)
    : CameraManager * bool * list Effect :=
  match cameras m !! camera_id with
  | Some _ => (m, false, [Log (logger_warning "add_camera: already exists" camera_id)])
  | None =>
      ({| cameras := <[camera_id := new_stream (default_config name rtsp_url)]> (cameras m) |},
       true, [])
  end.

(** [CameraManager.remove_camera]: the registry, the returned boolean,
    the effects, and the camera object as the call leaves it (its capture
    thread may still hold it).  [camera.is_running] names an attribute
    that [CameraStream] does not have: reading it raises [AttributeError],
    which the enclosing [try] catches and logs, so [camera.stop()] is not
    reached. *)
Definition remove_camera (camera_id : string) (m : CameraManager)
    : CameraManager * bool * list Effect * option CameraStream :=
  match cameras m !! camera_id with
  | Some camera =>
      let eff_stop :=
        [Log (logger_info "remove_camera: removing" camera_id);
         Log (logger_error "remove_camera: error stopping camera" camera_id)] in
      let '(camera, eff_cb) :=
        match callbacks camera with
        | [] => (camera, [])
        | _ :: _ => (set_callbacks [] camera,
                     [Log (logger_info "remove_camera: clearing callbacks" camera_id)])
        end in
      let '(camera, eff_cap) :=
        match cap camera with
        | Some _ => (set_cap None camera,
                     [Log (logger_info "remove_camera: releasing VideoCapture" camera_id);
                      Release])
        | None => (camera, [])
        end in
      ({| cameras := delete camera_id (cameras m) |}, true,
       eff_stop ++ eff_cb ++ eff_cap ++
         [Log (logger_info "remove_camera: removed" camera_id); GcCollect],
       Some camera)
  | None =>
      (m, false, [Log (logger_warning "remove_camera: no such camera" camera_id)], None)
  end.

(** [CameraManager.get_camera] *)
Definition get_camera (camera_id : string) (m : CameraManager) : option CameraStream :=
  cameras m !! camera_id.

(** [CameraManager.start_camera]; [env] is what the world answers to the
    connection attempt. *)
Definition start_camera (env : IterEnv) (camera_id : string) (m : CameraManager)
    : CameraManager * bool * list Effect :=
  match cameras m !! camera_id with
  | None => (m, false, [])
  | Some camera =>
      let '(camera, ok, eff) := start env camera in
      ({| cameras := <[camera_id := camera]> (cameras m) |}, ok, eff)
  end.

(** [CameraManager.stop_all]: every camera is stopped; the effects are
    kept per camera. *)
Definition stop_all (m : CameraManager) : CameraManager * gmap string (list Effect) :=
  ({| cameras := (λ camera, (stop camera).1) <$> cameras m |},
   (λ camera, (stop camera).2) <$> cameras m).

(** [CameraManager.stop_all_cameras] *)
Definition stop_all_cameras (m : CameraManager) : CameraManager * gmap string (list Effect) :=
  stop_all m.

End Camera.

(** ** api/realtime_detection.py *)

Module Realtime.

(** Effects of the session code on the outside. *)
Inductive Effect :=
| Log (r : LogRecord)
| Sleep (seconds : Q)
| Release          (* self.cap.release() *)
| Join.            (* self.thread.join(timeout=1.0) *)

(** [YoloDetector]: the fields the session reads and writes. *)
Record YoloDetector := { imgsz : Z; det_conf : Q }.

(** [RTSPCamera]: [cap] is the capture handle, [q] the one-slot queue of
    frames (by content), [thread_alive] whether the reader thread exists
    and is alive. *)
Record RTSPCamera := {
  camera_id : string;
  cap : option bool;          (* Some opened / None *)
  cam_running : bool;
  thread_alive : option bool; (* None: self.thread is None *)
  q : list nat
}.

(** [RTSPCamera.stop], called from a thread other than the reader. *)
Definition camera_stop (c : RTSPCamera) : RTSPCamera * list Effect :=
  let rel := match cap c with Some _ => [Release] | None => [] end in
  let joined := match thread_alive c with Some true => [Join] | _ => [] end in
  ({| camera_id := camera_id c; cap := None; cam_running := false;
      thread_alive := None; q := [] |},
   [Sleep (5 # 100)] ++ rel ++ joined ++ [Log (logger_info "RTSP stopped" (camera_id c))]).

Record RealtimeSession := {
  id : string;
  camera : RTSPCamera;
  detector : YoloDetector;
  classes : option (list string);
  conf : Q;
  websockets : list nat;
  active : bool;
  last_jpeg : option (list nat)
}.

(** [RealtimeSession.stop] *)
Definition stop (s : RealtimeSession) : RealtimeSession * list Effect :=
  let '(cam, eff) := camera_stop (camera s) in
  ({| id := id s; camera := cam; detector := detector s; classes := classes s;
      conf := conf s; websockets := []; active := false; last_jpeg := None |},
   [Sleep (1 # 10)] ++ eff ++ [Log (logger_info "session stopped" (id s))]).



(** Python's [sub in s] on strings. *)
Fixpoint contains (sub s : string) : bool :=
  String.prefix sub s ||
  match s with
  | EmptyString => false
  | String _ rest => contains sub rest
  end.

(** The address [RTSPCamera._open] hands to [cv2.VideoCapture]: TCP
    transport is asked for when the address is an RTSP one that does not
    choose a transport itself. *)
Definition open_url (rtsp_url : string) : string :=
  if contains "rtsp://" rtsp_url && negb (contains "rtsp_transport" rtsp_url) then
    let sep := if contains "?" rtsp_url then "&" else "?" in
    rtsp_url +:+ sep +:+ "rtsp_transport=tcp"
  else rtsp_url.

(** [RTSPCamera._open]. The record above keeps the fields the session
    code reads, so the address comes alongside; [opens] says whether the
    capture built on an address reports [isOpened()].  The result carries
    the message of the [RuntimeError] when one is raised. *)
Definition _open (rtsp_url : string) (opens : string → bool) (c : RTSPCamera)
    : RTSPCamera * option string :=
  let url := open_url rtsp_url in
  let c := {| camera_id := camera_id c; cap := Some (opens url);
              cam_running := cam_running c; thread_alive := thread_alive c; q := q c |} in
  if opens url then (c, None) else (c, Some ("Falha ao abrir RTSP: " +:+ url)).

(** [RTSPCamera.start] *)
Definition camera_start (rtsp_url : string) (opens : string → bool) (c : RTSPCamera)
    : RTSPCamera * option string * list Effect :=
  if cam_running c then (c, None, [])
  else
    match _open rtsp_url opens c with
    | (c, Some err) => (c, Some err, [])
    | (c, None) =>
        ({| camera_id := camera_id c; cap := cap c; cam_running := true;
            thread_alive := Some true; q := q c |}, None,
         [Log (logger_info "RTSP started" (camera_id c))])
    end.

(** What one pass of the reader loop gets from the capture. *)
Inductive GrabOutcome :=
| NotGrabbed
| RetrieveFailed
| Grabbed (frame : nat).

(** [queue.Queue(maxsize=1)]: [put_nowait] and [get_nowait], with [None]
    for [queue.Full] and [queue.Empty]. *)
Definition maxsize : nat := 1.

Definition put_nowait (frame : nat) (items : list nat) : option (list nat) :=
  if (length items <? maxsize)%nat then Some (items ++ [frame]) else None.

Definition get_nowait (items : list nat) : option (nat * list nat) :=
  match items with
  | [] => None
  | item :: rest => Some (item, rest)
  end.

(** One pass of the body of [RTSPCamera._loop] with the capture present. *)
Definition loop_round (o : GrabOutcome) (c : RTSPCamera) : RTSPCamera * list Effect :=
  match o with
  | NotGrabbed => (c, [Sleep (2 # 100)])
  | RetrieveFailed => (c, [])
  | Grabbed frame =>
      let q1 := match q c with
                | [] => q c
                | _ :: _ => match get_nowait (q c) with
                            | Some (_, rest) => rest
                            | None => q c
                            end
                end in
      let q2 := match put_nowait frame q1 with
                | Some q' => q'
                | None => q1
                end in
      ({| camera_id := camera_id c; cap := cap c; cam_running := cam_running c;
          thread_alive := thread_alive c; q := q2 |}, [])
  end.

(** The passes of [_loop] while the world keeps the camera running. *)
Definition loop_rounds (outs : list GrabOutcome) (c : RTSPCamera) : RTSPCamera :=
  foldl (λ c o, (loop_round o c).1) c outs.

(** [RTSPCamera.read]: the oldest queued frame, or None when the wait
    times out on an empty queue. *)
Definition read (c : RTSPCamera) : RTSPCamera * option nat :=
  match get_nowait (q c) with
  | Some (frame, rest) =>
      ({| camera_id := camera_id c; cap := cap c; cam_running := cam_running c;
          thread_alive := thread_alive c; q := rest |}, Some frame)
  | None => (c, None)
  end.

(** [YoloDetector.predict] after the model has answered: [boxes] are the
    class ids of the boxes found, [names] the model's class names. *)
Definition predict (names : Z → string) (boxes : list Z) (classes : option (list string))
    : list Z :=
  match classes with
  | None | Some [] => boxes
  | Some cs =>
      let keep := filter (λ cid, names cid ∈ cs) boxes in
      match keep with
      | [] => boxes
      | _ :: _ => keep
      end
  end.

(** [RealtimeSession.start]; the inference thread is started exactly when
    no error is raised. *)
Definition start (rtsp_url : string) (opens : string → bool) (s : RealtimeSession)
    : RealtimeSession * option string * list Effect :=
  if active s then (s, None, [])
  else
    let '(cam, err, eff) := camera_start rtsp_url opens (camera s) in
    ({| id := id s; camera := cam; detector := detector s; classes := classes s;
        conf := conf s; websockets := websockets s; active := true;
        last_jpeg := last_jpeg s |}, err,
     eff ++ match err with
            | None => [Log (logger_info "session started" (id s))]
            | Some _ => []
            end).

(** *** The routes over [realtime_sessions] *)

Record StartCompatRequest := {
  rtsp_url : string;
  req_classes : option (list string);
  confidence : Q;
  req_imgsz : Z
}.

(** What the world answers while a session is started: whether the YOLO
    model loads, and which addresses open. *)
Record StartEnv := { yolo_loads : bool; opens : string → bool }.

Inductive Response :=
| Status (status session_id : string)
| Raises (error : string).

Definition session_key (cam_id : string) (user_id : Z) : string :=
  cam_id +:+ "_" +:+ pretty user_id.

(** [start_realtime_detection_compat] *)
Definition start_realtime_detection_compat (env : StartEnv) (cam_id : string) (user_id : Z)
    (req : StartCompatRequest) (sessions : gmap string RealtimeSession)
    : gmap string RealtimeSession * Response :=
  let key := session_key cam_id user_id in
  match sessions !! key with
  | Some _ => (sessions, Status "already_running" key)
  | None =>
      if negb (yolo_loads env) then (sessions, Raises "YOLO")
      else
        let cam := {| camera_id := cam_id; cap := None; cam_running := false;
                      thread_alive := None; q := [] |} in
        let det := {| imgsz := req_imgsz req; det_conf := confidence req |} in
        let sess := {| id := key; camera := cam; detector := det;
                       classes := req_classes req; conf := confidence req;
                       websockets := []; active := false; last_jpeg := None |} in
        let '(sess, err, _) := start (rtsp_url req) (opens env) sess in
        (<[key := sess]> sessions,
         match err with
         | None => Status "started" key
         | Some e => Raises e
         end)
  end.

(** [stop_session] *)
Definition stop_session (session_id : string) (sessions : gmap string RealtimeSession)
    : gmap string RealtimeSession * Response * list Effect :=
  match sessions !! session_id with
  | None => (sessions, Status "not_found" session_id, [])
  | Some sess => (delete session_id sessions, Status "stopped" session_id, (stop sess).2)
  end.

End Realtime.

(** * Invariants and auxiliary notions used by the statements *)

Module RecordingInv.
Import Recording.

(** No two running jobs share a camera, and a running job's camera is
    flagged as recording and has a buffer. *)
Definition job_inv (s : System) : Prop :=
  NoDup (th_camera <$> sys_active s) ∧
  ∀ th, th ∈ sys_active s →
    recording (sys_recorder s) !! th_camera th = Some true ∧
    is_Some (frame_buffer (sys_recorder s) !! th_camera th).

(** One [add_frame] call with a frame that is an array ([not None]). *)
Record AddFrameCall := { call_now : Q; call_frame : Frame; call_metadata : Metadata }.

Definition add_frame_call (r : VideoRecorder) (c : AddFrameCall) : VideoRecorder :=
  (add_frame (call_now c) (Some (call_frame c)) (call_metadata c) r).1.

(** A finite sequence of [add_frame] calls, earliest first. *)
Definition add_frames (calls : list AddFrameCall) (r : VideoRecorder) : VideoRecorder :=
  foldl add_frame_call r calls.

(** The buffer entry a call appends. *)
Definition entry_of_call (c : AddFrameCall) : FrameData :=
  {| fd_frame := call_frame c;
     fd_timestamp := default (call_now c) (md_timestamp (call_metadata c)) |}.

(** Everything the calls append for one camera, in call order. *)
Definition appended_to (camera_name : string) (calls : list AddFrameCall) : list FrameData :=
  entry_of_call <$>
    filter (λ c, camera_of_metadata (call_metadata c) = camera_name) calls.

(** The newest [n] elements of a list, order kept. *)
Definition keep_last {A} (n : nat) (l : list A) : list A := drop (length l - n) l.

(** Sample data used to exercise the statements. *)
Definition frame1 : Frame := {| frame_id := 1; frame_size := 6220800 |}.
Definition frame2 : Frame := {| frame_id := 2; frame_size := 6220800 |}.
Definition frame3 : Frame := {| frame_id := 3; frame_size := 6220800 |}.
Definition md_cam1 (t : Q) : Metadata :=
  {| md_camera_name := Some "cam1"; md_timestamp := Some t |}.
Definition person_event (t : Q) : Event :=
  {| ev_camera_name := Some "cam1"; ev_type := Some "person";
     ev_timestamp := Some t; ev_confidence := Some (9 # 10);
     ev_bbox := [1 # 2; 1 # 2; 1 # 4; 1 # 4]%Q |}.

Definition sys0 : System := {| sys_recorder := init_default; sys_active := [] |}.
Definition sys1 : System :=
  {| sys_recorder := (add_frame 100 (Some frame1) (md_cam1 100) (sys_recorder sys0)).1;
     sys_active := sys_active sys0 |}.
Definition sys2 : System :=
  {| sys_recorder := (start_recording (person_event 100) (sys_recorder sys1)).1.1;
     sys_active :=
       sys_active sys1 ++ spawned (start_recording (person_event 100) (sys_recorder sys1)).1.2 |}.

(** A recorder whose buffers hold one frame ([pre_event_seconds = 1], [fps = 1]). *)
Definition tiny_recorder : VideoRecorder := init "./events" 1 5 1 "mp4v".
Definition call1 : AddFrameCall :=
  {| call_now := 100; call_frame := frame1; call_metadata := md_cam1 100 |}.
Definition call2 : AddFrameCall :=
  {| call_now := 101; call_frame := frame2; call_metadata := md_cam1 101 |}.
Definition call3 : AddFrameCall :=
  {| call_now := 102; call_frame := frame3; call_metadata := md_cam1 102 |}.

(** The recording flag is raised only for cameras that have a running
    job. *)
Definition flag_inv (s : System) : Prop :=
  ∀ c, recording (sys_recorder s) !! c = Some true → c ∈ th_camera <$> sys_active s.

(** Every buffer that exists holds a frame. *)
Definition buffers_nonempty (r : VideoRecorder) : Prop :=
  ∀ c buf, frame_buffer r !! c = Some buf → buf ≠ [].

(** Every buffer that exists is empty. *)
Definition buffers_empty (r : VideoRecorder) : Prop :=
  ∀ c buf, frame_buffer r !! c = Some buf → buf = [].




(** A stored event passes both filters of [_get_events_from_files]. *)
Definition accepts (camera_name event_type : option string) (e : StoredEvent) : bool :=
  negb (filter_rejects camera_name (se_camera_name e)) &&
  negb (filter_rejects event_type (se_event_type e)).

(** The files that can be read, in order. *)
Definition readable (files : list (option StoredEvent)) : list StoredEvent :=
  omap id files.

Definition is_metadata_write (a : FsAction) : bool :=
  match a with WriteMetadata _ _ => true | _ => false end.
Definition is_release_video (a : FsAction) : bool :=
  match a with ReleaseVideo => true | _ => false end.
Definition is_open_video (a : FsAction) : bool :=
  match a with OpenVideo _ => true | _ => false end.

(** A recorder configured with a negative pre-event duration. *)
Definition negative_recorder : VideoRecorder := init "./events" (-1) 5 20 "mp4v".

(** A recorder whose capacity rounds down to zero: 0.04 s at 20 fps. *)
Definition zero_recorder_system : System :=
  {| sys_recorder := (add_frame 100 (Some frame1) (md_cam1 100)
                        (init "./events" (4 # 100) 5 20 "mp4v")).1;
     sys_active := [] |}.

Definition stored (cam ty : string) (t : Q) : StoredEvent :=
  {| se_camera_name := Some cam; se_event_type := Some ty; se_timestamp := t |}.

Definition env_ok : JobEnv := {| job_fault := None; job_new_frames := [] |}.
Definition env_write_fails : JobEnv :=
  {| job_fault := Some WriteBuffered; job_new_frames := [] |}.

End RecordingInv.

Module DetectionInv.
Import Detection.

Definition group_keys (groups : list Group) : list string := fst <$> groups.

Definition members (g : Group) : list DetectionResult := g.2.1 :: g.2.2.

(** What one class contributes to a batch, read off the
    [last_event_time] the batch started with. *)
Definition decide_group (camera_name : string) (current_time interval : Q)
    (last0 : gmap string Q) (g : Group) : option Event :=
  if Qlt_le_dec (current_time - default 0%Q (last0 !! event_key camera_name g.1)) interval
  then None
  else Some {| type := g.1;
               ev_confidence := confidence (max_by_confidence g.2.1 g.2.2);
               ev_bbox := bbox (max_by_confidence g.2.1 g.2.2);
               timestamp := current_time;
               camera_name := camera_name |}.

(** The grouping invariant: keys are distinct, they are the classes met
    so far, and every group lists the detections of its class in order. *)
Definition groups_of (groups : list Group) (detections : list DetectionResult) : Prop :=
  NoDup (group_keys groups) ∧
  (∀ c, c ∈ group_keys groups ↔ c ∈ class_name <$> detections) ∧
  ∀ g, g ∈ groups → members g = filter (λ d, class_name d = g.1) detections.

Definition events_of_type (c : string) (events : list Event) : list Event :=
  filter (λ e, type e = c) events.

(** The stored time of the last event of a (camera, class) key, 0 when
    there has been none: [self.last_event_time.get(event_key, 0)]. *)
Definition last_time (ed : EventDetector) (camera_name c : string) : Q :=
  default 0%Q (last_event_time ed !! event_key camera_name c).

(** Sample data. *)
Definition person (conf : Q) : DetectionResult :=
  {| class_id := 0; class_name := "person"; confidence := conf;
     bbox := [1 # 2; 1 # 2; 1 # 4; 1 # 4]%Q; frame_width := 1280; frame_height := 720 |}.
Definition car (conf : Q) : DetectionResult :=
  {| class_id := 2; class_name := "car"; confidence := conf;
     bbox := [1 # 4; 1 # 4; 1 # 8; 1 # 8]%Q; frame_width := 1280; frame_height := 720 |}.
Definition at_cam1 (t : Q) : Metadata :=
  {| md_camera_name := Some "cam1"; md_timestamp := Some t |}.
Definition no_model : ObjectDetector :=
  {| conf_threshold := 1 # 2; model := None; class_names := ∅ |}.
Definition fresh : EventDetector := init no_model (1 # 2).

(** The string has no underscore in it. *)
Fixpoint no_underscore (s : string) : Prop :=
  match s with
  | EmptyString => True
  | String ch rest => ch ≠ "_"%char ∧ no_underscore rest
  end.

(** A number between 0 and 1. *)
Definition unit_interval (x : Q) : Prop := (0 <= x)%Q ∧ (x <= 1)%Q.

(** A detection whose box is four numbers between 0 and 1 and whose
    frame sizes are not negative. *)
Definition normalised (d : DetectionResult) : Prop :=
  ∃ b0 b1 b2 b3, bbox d = [b0; b1; b2; b3] ∧
    unit_interval b0 ∧ unit_interval b1 ∧ unit_interval b2 ∧ unit_interval b3 ∧
    0 ≤ frame_width d ∧ 0 ≤ frame_height d.

(** A model that reports one box, of class 0 with confidence 0.9. *)
Definition finds_one : Model :=
  λ _ _, Some [{| x1 := 100; y1 := 50; x2 := 300; y2 := 450;
                  box_conf := 9 # 10; box_class := 0 |}].
Definition coco_detector : ObjectDetector :=
  {| conf_threshold := 1 # 2; model := Some finds_one;
     class_names := {[ 0 := "person"; 2 := "car" ]} |}.


(** The same detector with a loaded model [m]. *)
Definition with_model (m : Model) (d : ObjectDetector) : ObjectDetector :=
  {| conf_threshold := conf_threshold d; model := Some m; class_names := class_names d |}.

(** A model that works and finds no object, and one whose inference raises. *)
Definition finds_nothing : Model := λ _ _, Some [].
Definition always_raises : Model := λ _ _, None.

Definition frame720 : Frame := {| height := 720; width := 1280; channels := 3 |}.

End DetectionInv.

Module CameraInv.
Import Camera.

(** The loop is in its streaming state: it runs and holds an open capture. *)
Definition streaming (s : CameraStream) : Prop :=
  running s = true ∧ cap s = Some opened.

(** A round in which the handle is not closed from outside and the
    5-second periodic log (which clears the counters) is not due. *)
Definition quiet (l : RunState) (env : IterEnv) : Prop :=
  env_open env = true ∧ (env_now env - last_log_time l <= 5)%Q.

Definition is_release (e : Effect) : bool :=
  match e with Release => true | _ => false end.

(** How many times [release()] is called. *)
Definition releases (effs : list Effect) : nat :=
  length (filter (λ e, is_release e = true) effs).

(** The callback invocations among the effects, in order. *)
Definition calls_of (effs : list Effect) : list (nat * Frame * Metadata) :=
  omap (λ e, match e with Call cb f md => Some (cb, f, md) | _ => None end) effs.

Definition is_error_log (e : Effect) : bool :=
  match e with
  | Log r => match log_level r with ERROR => true | _ => false end
  | _ => false
  end.

Definition error_logs (effs : list Effect) : nat :=
  length (filter (λ e, is_error_log e = true) effs).

(** A connection attempt shows in the log of [_connect]. *)
Definition is_connect_attempt (e : Effect) : bool :=
  match e with
  | Log r => bool_decide (log_site r = "_connect: connecting")
  | _ => false
  end.

Definition connect_attempts (effs : list Effect) : nat :=
  length (filter (λ e, is_connect_attempt e = true) effs).

Definition is_join (e : Effect) : bool :=
  match e with Join => true | _ => false end.

(** Rounds that each come at least the reconnect interval after the
    previous reconnection attempt, counted from [last]. *)
Fixpoint due_rounds (interval : Z) (last : Q) (envs : list IterEnv) : Prop :=
  match envs with
  | [] => True
  | env :: rest =>
      (inject_Z interval <= env_now env - last)%Q ∧ due_rounds interval (env_now env) rest
  end.

(** The capture is absent or closed, whatever the world answers. *)
Definition closed (s : CameraStream) : Prop :=
  cap s = None ∨ cap s = Some released.

(** Sample data. *)
Definition picture : Frame := {| pixels := 7; frame_height := 720; frame_width := 1280 |}.
Definition good_callback : Callback := {| cb_id := 1; cb_raises := λ _ _, false |}.
Definition bad_callback : Callback := {| cb_id := 2; cb_raises := λ _ _, true |}.
Definition other_callback : Callback := {| cb_id := 3; cb_raises := λ _ _, false |}.
Definition cam1_stream : CameraStream :=
  {| config := default_config "cam1" "rtsp://cam1"; cap := Some opened; frame := None;
     running := true; thread := true;
     callbacks := [good_callback; bad_callback; other_callback]; connected := true |}.
Definition round_with (t : Q) (r : ReadOutcome) : IterEnv :=
  {| env_now := t; env_open := true; env_connect := ConnectOk; env_read := r;
     env_frame_time := t |}.
Definition failed_reads (n : nat) : list IterEnv := replicate n (round_with 1 ReadNothing).
Definition raised_reads (n : nat) : list IterEnv := replicate n (round_with 1 ReadRaises).
Definition registry1 : CameraManager := {| cameras := {[ "cam1" := cam1_stream ]} |}.
Definition unreachable_at (t : Q) : IterEnv :=
  {| env_now := t; env_open := true; env_connect := ConnectNotOpened;
     env_read := ReadNothing; env_frame_time := t |}.
Definition lost_stream : CameraStream :=
  {| config := default_config "cam1" "rtsp://cam1"; cap := Some released; frame := None;
     running := true; thread := true; callbacks := [good_callback]; connected := false |}.

End CameraInv.

Module RealtimeInv.
Import Realtime.

Definition is_release (e : Effect) : bool :=
  match e with Release => true | _ => false end.

Definition releases (effs : list Effect) : nat :=
  length (filter (λ e, is_release e = true) effs).

Definition session1 : RealtimeSession :=
  {| id := "cam1_1";
     camera := {| camera_id := "cam1"; cap := Some true; cam_running := true;
                  thread_alive := Some true; q := [7%nat] |};
     detector := {| imgsz := 640; det_conf := 1 # 2 |};
     classes := Some ["person"]; conf := 1 # 2; websockets := [1%nat; 2%nat];
     active := true; last_jpeg := Some [255%nat; 216%nat] |}.

(** The frames a run of reader passes retrieves, in order. *)
Definition grabbed (outs : list GrabOutcome) : list nat :=
  omap (λ o, match o with Grabbed frame => Some frame | _ => None end) outs.

Definition is_join (e : Effect) : bool :=
  match e with Join => true | _ => false end.

Definition coco_names (cid : Z) : string :=
  if decide (cid = 0) then "person" else if decide (cid = 2) then "car" else "other".

Definition gate_request : StartCompatRequest :=
  {| rtsp_url := "rtsp://gate/stream"; req_classes := Some ["person"];
     confidence := 1 # 2; req_imgsz := 640 |}.

Definition nothing_opens : StartEnv := {| yolo_loads := true; opens := λ _, false |}.
Definition all_opens : StartEnv := {| yolo_loads := true; opens := λ _, true |}.

End RealtimeInv.

(** * websocket/manager.py *)

Module Websocket.

(** What the manager does to the outside: a message handed to a socket,
    or a log record.  A message is identified by the camera whose frame
    it carries. *)
Inductive Effect :=
| SendJson (ws : nat) (camera_id : string)
| Log (r : LogRecord).

(** [ConnectionManager]: sockets by client, and subscribed clients by
    camera. *)
Record ConnectionManager := {
  active_connections : gmap string (list nat);
  camera_streams : gmap string (list string)
}.

(** [ConnectionManager.__init__] *)
Definition new_manager : ConnectionManager :=
  {| active_connections := ∅; camera_streams := ∅ |}.

(** [list.remove(x)]: the first equal element is taken out. *)
Fixpoint list_remove {A} `{EqDecision A} (x : A) (l : list A) : list A :=
  match l with
  | [] => []
  | y :: rest => if decide (y = x) then rest else y :: list_remove x rest
  end.

(** [ConnectionManager.connect], after the socket has been accepted. *)
Definition connect (ws : nat) (client_id : string) (m : ConnectionManager)
    : ConnectionManager :=
  {| active_connections :=
       <[client_id := default [] (active_connections m !! client_id) ++ [ws]]>
         (active_connections m);
     camera_streams := camera_streams m |}.

(** [ConnectionManager.disconnect] *)
Definition disconnect (ws : nat) (client_id : string) (m : ConnectionManager)
    : ConnectionManager :=
  {| active_connections :=
       match active_connections m !! client_id with
       | Some sockets =>
           let sockets := if decide (ws ∈ sockets) then list_remove ws sockets
                          else sockets in
           match sockets with
           | [] => delete client_id (active_connections m)
           | _ :: _ => <[client_id := sockets]> (active_connections m)
           end
       | None => active_connections m
       end;
     camera_streams :=
       (λ clients, if decide (client_id ∈ clients) then list_remove client_id clients
                   else clients) <$> camera_streams m |}.

(** [ConnectionManager.subscribe_to_camera] *)
Definition subscribe_to_camera (client_id camera_id : string) (m : ConnectionManager)
    : ConnectionManager :=
  let clients := default [] (camera_streams m !! camera_id) in
  {| active_connections := active_connections m;
     camera_streams :=
       if decide (client_id ∈ clients) then <[camera_id := clients]> (camera_streams m)
       else <[camera_id := clients ++ [client_id]]> (camera_streams m) |}.

(** [ConnectionManager.unsubscribe_from_camera] *)
Definition unsubscribe_from_camera (client_id camera_id : string) (m : ConnectionManager)
    : ConnectionManager :=
  match camera_streams m !! camera_id with
  | Some clients =>
      if decide (client_id ∈ clients) then
        {| active_connections := active_connections m;
           camera_streams := <[camera_id := list_remove client_id clients]> (camera_streams m) |}
      else m
  | None => m
  end.

(** [ConnectionManager.send_personal_message] for a frame of
    [camera_id]; [fails] tells the sockets whose [send_json] raises. *)
Definition send_personal_message (fails : nat → bool) (camera_id client_id : string)
    (m : ConnectionManager) : list Effect :=
  match active_connections m !! client_id with
  | None => []
  | Some sockets =>
      (λ ws, if fails ws then Log (logger_error "send_personal_message" client_id)
             else SendJson ws camera_id) <$> sockets
  end.

(** [ConnectionManager.send_camera_frame]; [encodes] is whether the JPEG
    encoding of the frame goes through. *)
Definition send_camera_frame (encodes : bool) (fails : nat → bool) (camera_id : string)
    (m : ConnectionManager) : list Effect :=
  match camera_streams m !! camera_id with
  | None | Some [] => []
  | Some clients =>
      if encodes then
        concat ((λ client_id, send_personal_message fails camera_id client_id m) <$> clients)
      else [Log (logger_error "send_camera_frame" camera_id)]
  end.

End Websocket.

Module WebsocketInv.
Import Websocket.

(** The calls the endpoints make on the manager. *)
Inductive Op :=
| Connect (ws : nat) (client_id : string)
| Disconnect (ws : nat) (client_id : string)
| Subscribe (client_id camera_id : string)
| Unsubscribe (client_id camera_id : string).

Definition apply_op (m : ConnectionManager) (o : Op) : ConnectionManager :=
  match o with
  | Connect ws client_id => connect ws client_id m
  | Disconnect ws client_id => disconnect ws client_id m
  | Subscribe client_id camera_id => subscribe_to_camera client_id camera_id m
  | Unsubscribe client_id camera_id => unsubscribe_from_camera client_id camera_id m
  end.

(** The manager after a history of calls on the fresh one. *)
Definition after (ops : list Op) : ConnectionManager := foldl apply_op new_manager ops.

(** The clients subscribed to a camera. *)
Definition subscribers (camera_id : string) (m : ConnectionManager) : list string :=
  default [] (camera_streams m !! camera_id).

(** The sockets of a client. *)
Definition sockets_of (client_id : string) (m : ConnectionManager) : list nat :=
  default [] (active_connections m !! client_id).

(** The sockets that were handed a message. *)
Definition sent_to (effs : list Effect) : list nat :=
  omap (λ e, match e with SendJson ws _ => Some ws | _ => None end) effs.

(** No camera lists a client twice. *)
Definition distinct_subscribers (m : ConnectionManager) : Prop :=
  ∀ camera_id clients, camera_streams m !! camera_id = Some clients → NoDup clients.

End WebsocketInv.

(** * Properties of the recorder *)

Section RecorderFacts.
Import Recording RecordingInv.

(** With the defaults of [__init__] the buffer holds 3.0 * 20 = 60 frames. *)
Example default_capacity : max_buffer_frames init_default = 60.
Proof. reflexivity. Qed.


Lemma start_recording_spawn event r th :
  (start_recording event r).1.2 = Some th →
  th_camera th = camera_of_event event ∧
  recording r !! camera_of_event event ≠ Some true ∧
  (∃ fd rest, frame_buffer r !! camera_of_event event = Some (fd :: rest)) ∧
  recording (start_recording event r).1.1 = <[camera_of_event event := true]> (recording r) ∧
  frame_buffer (start_recording event r).1.1 = frame_buffer r.
Proof.
  unfold start_recording. case_bool_decide as Hb; [done|].
  destruct (frame_buffer r !! camera_of_event event) as [[|fd rest]|] eqn:Hbuf;
    simpl; try done.
  intros [= <-]. simpl. eauto 10.
Qed.

Lemma start_recording_no_spawn event r :
  (start_recording event r).1.2 = None → (start_recording event r).1.1 = r.
Proof.
  unfold start_recording. case_bool_decide; [done|].
  by destruct (frame_buffer r !! camera_of_event event) as [[|fd rest]|].
Qed.

Lemma add_frame_recording_kept now frame md r c :
  is_Some (frame_buffer r !! c) →
  recording (add_frame now frame md r).1 !! c = recording r !! c.
Proof.
  intros Hc. unfold add_frame.
  destruct frame as [f|]; [|done].
  destruct (frame_size f =? 0); [done|].
  destruct (frame_buffer r !! camera_of_metadata md) eqn:Hbuf.
  - by destruct (trim _ _).
  - destruct (trim _ _). simpl.
    apply lookup_insert_ne. intros Heq. rewrite <- Heq, Hbuf in Hc. by destruct Hc.
Qed.

Lemma add_frame_buffer_kept now frame md r c :
  is_Some (frame_buffer r !! c) →
  is_Some (frame_buffer (add_frame now frame md r).1 !! c).
Proof.
  intros Hc. unfold add_frame.
  destruct frame as [f|]; [|done].
  destruct (frame_size f =? 0); [done|].
  destruct (frame_buffer r !! camera_of_metadata md) eqn:Hbuf;
    destruct (trim _ _); simpl.
  - destruct (decide (camera_of_metadata md = c)) as [->|Hne].
    + rewrite lookup_insert_eq. eauto.
    + by rewrite lookup_insert_ne.
  - destruct (decide (camera_of_metadata md = c)) as [->|Hne].
    + rewrite lookup_insert_eq. eauto.
    + by rewrite !lookup_insert_ne.
Qed.

Lemma record_event_recorder camera_name event env now r :
  (_record_event camera_name event env now r).1.1 =
  set_recording (<[camera_name := false]> (recording r)) r.
Proof. unfold _record_event. by destruct (record_event_body _ _ _ _ _). Qed.

Lemma job_inv_step s s' : job_inv s → step s s' → job_inv s'.
Proof.
  intros [Hnd Hact] Hstep. destruct Hstep as [s now frame md|s event|s th env now before after Hsplit].
  - split; [done|]. simpl. intros th Hth. destruct (Hact th Hth) as [Hrec Hbuf]. split.
    + by rewrite add_frame_recording_kept.
    + by apply add_frame_buffer_kept.
  - destruct ((start_recording event (sys_recorder s)).1.2) as [th|] eqn:Hsp.
    + destruct (start_recording_spawn _ _ _ Hsp) as (Hcam & Hfree & (fd & rest & Hbuf) & Hrec & Hfb).
      split; simpl.
      * rewrite fmap_app. simpl. apply NoDup_app. split; [done|]. split.
        -- intros c Hc Hin. apply list_elem_of_singleton in Hin. subst c.
           apply list_elem_of_fmap in Hc as (th' & Heq & Hth').
           destruct (Hact th' Hth') as [Hrec' _]. congruence.
        -- apply NoDup_singleton.
      * intros th' Hth'. rewrite Hrec, Hfb.
        apply elem_of_app in Hth' as [Hth'|Hth'].
        -- destruct (Hact th' Hth') as [Hrec' Hbuf']. split; [|done].
           rewrite lookup_insert_ne; [done|]. congruence.
        -- apply list_elem_of_singleton in Hth'. subst th'. rewrite Hcam.
           rewrite lookup_insert_eq, Hbuf. eauto.
    + rewrite (start_recording_no_spawn _ _ Hsp). simpl. by rewrite app_nil_r.
  - rewrite Hsplit in Hnd, Hact. rewrite fmap_app in Hnd. simpl in Hnd.
    apply NoDup_app in Hnd as (Hnd1 & Hdisj & Hnd2).
    apply NoDup_cons in Hnd2 as [Hnotin Hnd2].
    split; simpl.
    + rewrite fmap_app. apply NoDup_app. split; [done|]. split; [|done].
      intros c Hc Hin. apply (Hdisj c Hc). by right.
    + intros th' Hth'. rewrite record_event_recorder. simpl.
      assert (th_camera th' ≠ th_camera th) as Hne.
      { intros Heq. apply elem_of_app in Hth' as [Hth'|Hth'].
        - apply (Hdisj (th_camera th)); [|by left].
          rewrite <- Heq. by apply list_elem_of_fmap_2.
        - apply Hnotin. rewrite <- Heq. by apply list_elem_of_fmap_2. }
      rewrite lookup_insert_ne by done. apply Hact.
      apply elem_of_app in Hth' as [Hth'|Hth']; apply elem_of_app; [by left|right; by right].
Qed.

Lemma job_inv_reachable s : reachable s → job_inv s.
Proof.
  induction 1 as [out pre post f cd|s s' _ IH Hstep].
  - split; simpl; [constructor|]. intros th Hth. by apply elem_of_nil in Hth.
  - by eapply job_inv_step.
Qed.



Lemma run_stages_raises fault act stages st :
  fault = Some st → st ∈ stages → (run_stages fault act stages).2 = true.
Proof.
  intros Hf. induction stages as [|st' rest IH]; intros Hin.
  - by apply elem_of_nil in Hin.
  - simpl. case_bool_decide as Hb; [done|].
    apply elem_of_cons in Hin as [->|Hin]; [congruence|].
    destruct (run_stages fault act rest). simpl in *. by apply IH.
Qed.

Lemma record_event_body_logs_error camera_name event env now r :
  is_Some (job_fault env) →
  ∃ rec, rec ∈ (record_event_body camera_name event env now r).2 ∧ log_level rec = ERROR.
Proof.
  intros [st Hst]. unfold record_event_body.
  case_bool_decide as Hn; [eexists; split; [apply list_elem_of_singleton; done|done]|].
  destruct (frame_buffer r !! camera_name) as [[|fd rest]|];
    try (eexists; split; [apply list_elem_of_singleton; done|done]).
  pose proof (run_stages_raises (job_fault env)
    (stage_actions (clip_name now camera_name event) event (fd :: rest) (job_new_frames env))
    [OpenWriter; WriteBuffered; PostCapture; Release; Thumbnail; Metadata_] st Hst) as Hr.
  destruct (run_stages _ _ _) as [acts raised]. simpl in *.
  rewrite Hr.
  - eexists; split; [apply list_elem_of_singleton; done|done].
  - destruct st; [congruence|set_solver..].
Qed.

(** The trimming loop keeps the newest [maxf] entries and never raises
    when the capacity is not negative. *)
Lemma trim_keep_last maxf buf :
  0 ≤ maxf → trim maxf buf = (keep_last (Z.to_nat maxf) buf, None).
Proof.
  intros Hcap. unfold keep_last. induction buf as [|fd rest IH].
  - simpl. destruct (Z.gtb_spec 0 maxf); [lia|done].
  - cbn [trim]. destruct (Z.gtb_spec (len (fd :: rest)) maxf) as [Hgt|Hgt];
      unfold len in Hgt.
    + rewrite IH. f_equal. cbn [length] in *.
      replace (S (length rest) - Z.to_nat maxf)%nat
        with (S (length rest - Z.to_nat maxf)) by lia.
      done.
    + cbn [length] in *.
      replace (S (length rest) - Z.to_nat maxf)%nat with 0%nat by lia. done.
Qed.

Lemma trim_states_bound maxf buf b :
  b ∈ trim_states maxf buf → (length b < length buf)%nat.
Proof.
  revert b. induction buf as [|fd rest IH]; intros b; simpl.
  - intros Hin. by apply elem_of_nil in Hin.
  - destruct (len (fd :: rest) >? maxf); [|intros Hin; by apply elem_of_nil in Hin].
    intros Hin. apply elem_of_cons in Hin as [->|Hin]; [simpl; lia|].
    specialize (IH b Hin). lia.
Qed.

(** The statement-level trace ends where the loop ends. *)
Lemma trim_states_last maxf buf :
  last (buf :: trim_states maxf buf) = Some (trim maxf buf).1.
Proof.
  induction buf as [|fd rest IH]; simpl.
  - by destruct (0 >? maxf).
  - destruct (len (fd :: rest) >? maxf); [|done]. exact IH.
Qed.

Lemma add_frame_states_last now f md r :
  frame_size f ≠ 0 →
  last (add_frame_states now (Some f) md r) =
    Some (buffer_or_new (camera_of_metadata md) (add_frame now (Some f) md r).1).
Proof.
  intros Hsz. apply Z.eqb_neq in Hsz. unfold add_frame_states, add_frame. rewrite Hsz.
  rewrite trim_states_last. f_equal. unfold buffer_or_new.
  destruct (frame_buffer r !! camera_of_metadata md) as [buf|] eqn:Hbuf;
    cbn [set_frame_buffer set_recording frame_buffer max_buffer_frames];
    rewrite ?Hbuf, ?lookup_insert_eq; cbn [default];
    destruct (trim _ _) as [b e]; simpl; by rewrite lookup_insert_eq.
Qed.

Lemma keep_last_length {A} n (l : list A) :
  length (keep_last n l) = (n `min` length l)%nat.
Proof. unfold keep_last. rewrite length_drop. lia. Qed.

Lemma keep_last_snoc {A} n (l : list A) x :
  keep_last n (keep_last n l ++ [x]) = keep_last n (l ++ [x]).
Proof.
  unfold keep_last at 2.
  replace (drop (length l - n) l ++ [x]) with (drop (length l - n) (l ++ [x])).
  - unfold keep_last. rewrite drop_drop. f_equal.
    rewrite length_drop, length_app. simpl. lia.
  - rewrite drop_app_le by lia. done.
Qed.

Lemma add_frame_call_spec r c camera_name :
  frame_size (call_frame c) ≠ 0 →
  0 ≤ max_buffer_frames r →
  max_buffer_frames (add_frame_call r c) = max_buffer_frames r ∧
  (add_frame (call_now c) (Some (call_frame c)) (call_metadata c) r).2 = None ∧
  buffer_or_new camera_name (add_frame_call r c) =
    if decide (camera_of_metadata (call_metadata c) = camera_name)
    then keep_last (Z.to_nat (max_buffer_frames r))
           (buffer_or_new camera_name r ++ [entry_of_call c])
    else buffer_or_new camera_name r.
Proof.
  intros Hsz Hcap. unfold add_frame_call, add_frame.
  apply Z.eqb_neq in Hsz. rewrite Hsz.
  unfold buffer_or_new, entry_of_call.
  destruct (frame_buffer r !! camera_of_metadata (call_metadata c)) as [buf|] eqn:Hbuf;
    rewrite !trim_keep_last by done; cbn [fst snd set_frame_buffer set_recording
      frame_buffer max_buffer_frames];
    (split; [done|]); (split; [done|]);
    case_decide as Hc; subst;
    rewrite ?lookup_insert_eq, ?Hbuf; simpl; try done;
    by rewrite !lookup_insert_ne by done.
Qed.

Lemma appended_to_snoc camera_name calls c :
  appended_to camera_name (calls ++ [c]) =
  appended_to camera_name calls ++
    (if decide (camera_of_metadata (call_metadata c) = camera_name)
     then [entry_of_call c] else []).
Proof.
  unfold appended_to. rewrite filter_app, fmap_app. f_equal.
  rewrite filter_cons, filter_nil. by case_decide.
Qed.

Lemma add_frames_spec r calls camera_name :
  frame_buffer r = ∅ →
  0 ≤ max_buffer_frames r →
  Forall (λ c, frame_size (call_frame c) ≠ 0) calls →
  max_buffer_frames (add_frames calls r) = max_buffer_frames r ∧
  buffer_or_new camera_name (add_frames calls r) =
    keep_last (Z.to_nat (max_buffer_frames r)) (appended_to camera_name calls).
Proof.
  intros Hfresh Hcap. induction calls as [|c calls IH] using rev_ind; intros Hall.
  - split; [done|]. unfold buffer_or_new. simpl. by rewrite Hfresh, lookup_empty.
  - apply Forall_app in Hall as [Hall Hc]. apply Forall_inv in Hc.
    destruct (IH Hall) as [IHcap IHbuf].
    unfold add_frames in *. rewrite foldl_app. simpl.
    destruct (add_frame_call_spec (foldl add_frame_call r calls) c camera_name Hc)
      as (Hcap' & _ & Hbuf'); [lia|].
    split; [lia|]. rewrite Hbuf', appended_to_snoc, IHcap, IHbuf.
    case_decide.
    + apply keep_last_snoc.
    + by rewrite app_nil_r.
Qed.

End RecorderFacts.

(** * The claims about the recorder *)

Section RecorderClaims.
Import Recording RecordingInv.



(** C9. When the frame buffer of the event's camera is absent or empty,
    [start_recording] returns the recorder unchanged, starts no thread
    (so no job exists that could create a file) and leaves the recording
    flag of the camera as it was; in the system the call is a stutter
    step. *)
Theorem C9_start_recording_without_frames event r :
  frame_buffer r !! camera_of_event event = None ∨
  frame_buffer r !! camera_of_event event = Some [] →
  (start_recording event r).1.1 = r ∧
  (start_recording event r).1.2 = None ∧
  recording (start_recording event r).1.1 !! camera_of_event event =
    recording r !! camera_of_event event ∧
  ∀ active,
    {| sys_recorder := (start_recording event r).1.1;
       sys_active := active ++ spawned (start_recording event r).1.2 |} =
    {| sys_recorder := r; sys_active := active |}.
Proof.
  intros Hbuf.
  assert ((start_recording event r).1.2 = None) as Hnone.
  { unfold start_recording. case_bool_decide; [done|]. by destruct Hbuf as [-> | ->]. }
  pose proof (start_recording_no_spawn _ _ Hnone) as Hsame.
  rewrite Hnone, Hsame. repeat split; try done.
  intros active. simpl. by rewrite app_nil_r.
Qed.

Lemma C9_witness :
  (start_recording (person_event 100) init_default).1.1 = init_default ∧
  (start_recording (person_event 100) init_default).1.2 = None.
Proof.
  assert (frame_buffer init_default !! camera_of_event (person_event 100) = None ∨
          frame_buffer init_default !! camera_of_event (person_event 100) = Some [])
    as Hbuf by (left; reflexivity).
  destruct (C9_start_recording_without_frames (person_event 100) init_default Hbuf)
    as (H1 & H2 & _).
  exact (conj H1 H2).
Defined.

(** C2, as stated, fails: [add_frame] appends first and evicts
    afterwards, so while the call runs a full buffer holds one entry more
    than its capacity.  Here the capacity is 1, the buffer is full, and
    during the second call it holds two entries. *)
Lemma C2_counterexample :
  let r1 := add_frames [call1] tiny_recorder in
  max_buffer_frames r1 = 1 ∧
  frame_size (call_frame call2) ≠ 0 ∧
  len (buffer_or_new "cam1" r1) ≤ max_buffer_frames r1 ∧
  ∃ b, b ∈ add_frame_states (call_now call2) (Some (call_frame call2))
             (call_metadata call2) r1 ∧
       max_buffer_frames r1 < len b.
Proof.
  split; [reflexivity|]. split; [discriminate|]. split; [by vm_compute|].
  exists [entry_of_call call1; entry_of_call call2]. split.
  - left.
  - reflexivity.
Qed.

(** C2 (amended). For a recorder with non-negative capacity
    [max_buffer_frames], starting with no buffers, and any finite
    sequence of [add_frame] calls with non-empty frames: no call raises;
    after every call each camera's buffer holds at most [max_buffer_frames]
    entries; at the end its size is min(total appended for that camera,
    capacity) and its content is the newest entries in arrival order (the
    oldest were evicted first); within a call the entry is appended first
    and evicted after, the buffer never holding more than capacity + 1
    entries. *)
Theorem C2_ring_buffer r calls camera_name :
  frame_buffer r = ∅ →
  0 ≤ max_buffer_frames r →
  Forall (λ c, frame_size (call_frame c) ≠ 0) calls →
  (∀ k, len (buffer_or_new camera_name (add_frames (take k calls) r))
        ≤ max_buffer_frames r) ∧
  len (buffer_or_new camera_name (add_frames calls r)) =
    Z.min (len (appended_to camera_name calls)) (max_buffer_frames r) ∧
  buffer_or_new camera_name (add_frames calls r) =
    keep_last (Z.to_nat (max_buffer_frames r)) (appended_to camera_name calls) ∧
  (∀ k c, calls !! k = Some c →
     let before := add_frames (take k calls) r in
     (add_frame (call_now c) (Some (call_frame c)) (call_metadata c) before).2 = None ∧
     head (add_frame_states (call_now c) (Some (call_frame c)) (call_metadata c) before) =
       Some (buffer_or_new (camera_of_metadata (call_metadata c)) before ++ [entry_of_call c]) ∧
     ∀ b, b ∈ add_frame_states (call_now c) (Some (call_frame c)) (call_metadata c) before →
          len b ≤ max_buffer_frames r + 1).
Proof.
  intros Hfresh Hcap Hall.
  assert (∀ k cam, max_buffer_frames (add_frames (take k calls) r) = max_buffer_frames r ∧
            len (buffer_or_new cam (add_frames (take k calls) r)) ≤ max_buffer_frames r)
    as Hprefix.
  { intros k cam.
    destruct (add_frames_spec r (take k calls) cam Hfresh Hcap) as [Hc Hb].
    - by apply Forall_take.
    - split; [done|]. rewrite Hb. unfold len. rewrite keep_last_length. lia. }
  destruct (add_frames_spec r calls camera_name Hfresh Hcap Hall) as [_ Hbuf].
  split; [intros k; apply Hprefix|]. split; [|split; [done|]].
  - rewrite Hbuf. unfold len. rewrite keep_last_length. lia.
  - intros k c Hk before.
    assert (frame_size (call_frame c) ≠ 0) as Hsz.
    { rewrite Forall_forall in Hall. apply Hall. by eapply list_elem_of_lookup_2. }
    destruct (Hprefix k (camera_of_metadata (call_metadata c))) as [Hcapk Hlen].
    fold before in Hcapk, Hlen.
    destruct (add_frame_call_spec before c camera_name Hsz) as (_ & Hexn & _); [lia|].
    split; [done|].
    unfold add_frame_states. apply Z.eqb_neq in Hsz. rewrite Hsz.
    split; [done|]. intros b Hb. apply elem_of_cons in Hb as [->|Hb].
    + unfold len in *. rewrite length_app. simpl. lia.
    + apply trim_states_bound in Hb. unfold len in *.
      rewrite length_app in Hb. simpl in Hb. lia.
Qed.

Lemma C2_witness :
  len (buffer_or_new "cam1" (add_frames [call1; call2; call3] tiny_recorder)) =
    Z.min (len (appended_to "cam1" [call1; call2; call3])) (max_buffer_frames tiny_recorder) ∧
  buffer_or_new "cam1" (add_frames [call1; call2; call3] tiny_recorder) =
    [entry_of_call call3].
Proof.
  assert (frame_buffer tiny_recorder = ∅) as Hfresh by reflexivity.
  assert (0 ≤ max_buffer_frames tiny_recorder) as Hcap by (vm_compute; discriminate).
  assert (Forall (λ c, frame_size (call_frame c) ≠ 0) [call1; call2; call3]) as Hall
    by (repeat constructor; discriminate).
  destruct (C2_ring_buffer tiny_recorder [call1; call2; call3] "cam1" Hfresh Hcap Hall)
    as (_ & Hsize & Hfifo & _).
  split; [exact Hsize|]. rewrite Hfifo. reflexivity.
Defined.

(** C5, as stated, fails on "the job is marked Failed": the recorder keeps
    no job status.  The recorder left by a job whose clip writing raised
    is the recorder left by a job that succeeded, so nothing computed
    from it can tell the failed job apart. *)
Lemma C5_counterexample :
  ¬ ∃ job_failed : VideoRecorder → string → bool,
      job_failed
        (_record_event "cam1" (person_event 100) env_write_fails 100 (sys_recorder sys2)).1.1
        "cam1" = true ∧
      job_failed
        (_record_event "cam1" (person_event 100) env_ok 100 (sys_recorder sys2)).1.1
        "cam1" = false.
Proof.
  intros (job_failed & Hfail & Hok).
  rewrite record_event_recorder in Hfail, Hok. congruence.
Qed.

(** C5 (amended). If any stage of a recording job raises, the error is
    logged and [recording[camera_name]] is reset to false; the recorder is
    otherwise untouched (it is the same recorder whatever happened in the
    job: no status is kept), and a later trigger on the same camera starts
    a new recording. *)
Theorem C5_failed_job_releases_camera camera_name event env now r fd rest :
  frame_buffer r !! camera_name = Some (fd :: rest) →
  is_Some (job_fault env) →
  let r' := (_record_event camera_name event env now r).1.1 in
  (∃ rec, rec ∈ (_record_event camera_name event env now r).2 ∧ log_level rec = ERROR) ∧
  recording r' !! camera_name = Some false ∧
  r' = set_recording (<[camera_name := false]> (recording r)) r ∧
  (∀ env', (_record_event camera_name event env' now r).1.1 = r') ∧
  ∀ event', camera_of_event event' = camera_name →
    (start_recording event' r').1.2 = Some {| th_camera := camera_name; th_event := event' |} ∧
    recording (start_recording event' r').1.1 !! camera_name = Some true.
Proof.
  intros Hbuf Hfault r'. subst r'. rewrite !record_event_recorder.
  split; [|split; [|split; [|split]]].
  - destruct (record_event_body_logs_error camera_name event env now r Hfault)
      as (rec & Hin & Hlvl).
    exists rec. split; [|done]. unfold _record_event.
    by destruct (record_event_body _ _ _ _ _).
  - simpl. apply lookup_insert_eq.
  - done.
  - intros env'. by rewrite record_event_recorder.
  - intros event' Hcam. unfold start_recording. rewrite Hcam. simpl.
    rewrite lookup_insert_eq. rewrite bool_decide_eq_false_2 by discriminate.
    rewrite Hbuf. simpl. split; [done|]. apply lookup_insert_eq.
Qed.

Lemma C5_witness :
  recording (_record_event "cam1" (person_event 100) env_write_fails 100
               (sys_recorder sys2)).1.1 !! "cam1" = Some false ∧
  (start_recording (person_event 110)
     (_record_event "cam1" (person_event 100) env_write_fails 100
        (sys_recorder sys2)).1.1).1.2 =
    Some {| th_camera := "cam1"; th_event := person_event 110 |}.
Proof.
  assert (frame_buffer (sys_recorder sys2) !! "cam1" =
          Some ([{| fd_frame := frame1; fd_timestamp := 100 |}] ++ [])) as Hbuf
    by (vm_compute; reflexivity).
  assert (is_Some (job_fault env_write_fails)) as Hfault by (eexists; reflexivity).
  destruct (C5_failed_job_releases_camera "cam1" (person_event 100) env_write_fails 100
              (sys_recorder sys2) _ _ Hbuf Hfault) as (_ & Hflag & _ & _ & Hnext).
  split; [exact Hflag|]. exact (proj1 (Hnext (person_event 110) eq_refl)).
Defined.

End RecorderClaims.

(** * Properties of the event detector *)

Section DetectorFacts.
Import Detection DetectionInv.

Lemma string_app_inj_l (s a b : string) : s +:+ a = s +:+ b → a = b.
Proof. induction s as [|ch s IH]; simpl; [done|]. intros [= H]. by apply IH. Qed.

Lemma event_key_inj camera_name c1 c2 :
  event_key camera_name c1 = event_key camera_name c2 → c1 = c2.
Proof.
  unfold event_key. intros H. apply string_app_inj_l in H.
  by apply (string_app_inj_l "_") in H.
Qed.

Lemma filter_class_absent (l : list DetectionResult) c :
  c ∉ class_name <$> l → filter (λ d, class_name d = c) l = [].
Proof.
  induction l as [|d l IH]; [done|].
  rewrite fmap_cons, not_elem_of_cons. intros [Hne Hnotin].
  rewrite filter_cons_False by congruence. by apply IH.
Qed.

Lemma group_add_keys d groups c :
  c ∈ group_keys (group_add d groups) ↔ c = class_name d ∨ c ∈ group_keys groups.
Proof.
  unfold group_keys. induction groups as [|[c0 [d0 ds]] rest IH]; simpl.
  - rewrite list_elem_of_singleton. split; [by left|].
    intros [H|H]; [done|by apply elem_of_nil in H].
  - destruct (decide (c0 = class_name d)) as [Hc|Hc]; simpl; rewrite !elem_of_cons.
    + rewrite Hc. tauto.
    + rewrite IH. tauto.
Qed.

Lemma group_add_NoDup d groups :
  NoDup (group_keys groups) → NoDup (group_keys (group_add d groups)).
Proof.
  unfold group_keys. induction groups as [|[c0 [d0 ds]] rest IH]; simpl.
  - intros _. apply NoDup_singleton.
  - intros Hnd. apply NoDup_cons in Hnd as [Hnotin Hnd].
    case_decide as Hc; simpl; apply NoDup_cons; split; try done.
    + intros Hin. apply (group_add_keys d rest c0) in Hin as [Hin|Hin]; done.
    + by apply IH.
Qed.

Lemma group_add_elem d groups g :
  NoDup (group_keys groups) →
  g ∈ group_add d groups →
  (g.1 ≠ class_name d ∧ g ∈ groups) ∨
  (∃ d0 ds, g = (class_name d, (d0, ds ++ [d])) ∧ (class_name d, (d0, ds)) ∈ groups) ∨
  (g = (class_name d, (d, [])) ∧ class_name d ∉ group_keys groups).
Proof.
  unfold group_keys. induction groups as [|[c0 [d0 ds]] rest IH]; simpl.
  - intros _ Hin. apply list_elem_of_singleton in Hin. right; right. split; [done|].
    apply not_elem_of_nil.
  - intros Hnd. apply NoDup_cons in Hnd as [Hnotin Hnd]. case_decide as Hc.
    + intros Hin. apply elem_of_cons in Hin as [->|Hin].
      * right; left. exists d0, ds. subst c0. split; [done|]. by left.
      * left. split; [|by right]. intros Heq. apply Hnotin.
        rewrite Hc, <- Heq. by apply list_elem_of_fmap_2.
    + intros Hin. apply elem_of_cons in Hin as [->|Hin]; [left; split; [done|by left]|].
      destruct (IH Hnd Hin) as [[Hne Hg]|[(d1 & ds1 & -> & Hg)|[-> Hfresh]]].
      * left. split; [done|by right].
      * right; left. exists d1, ds1. split; [done|by right].
      * right; right. split; [done|]. rewrite not_elem_of_cons. split; [congruence|done].
Qed.

Lemma groups_of_nil : groups_of [] [].
Proof.
  split; [constructor|]. split.
  - intros c. unfold group_keys. simpl. split; intros H; by apply elem_of_nil in H.
  - intros g Hg. by apply elem_of_nil in Hg.
Qed.

Lemma groups_of_snoc groups detections d :
  groups_of groups detections → groups_of (group_add d groups) (detections ++ [d]).
Proof.
  intros (Hnd & Hkeys & Hmem). split; [by apply group_add_NoDup|]. split.
  - intros c. rewrite group_add_keys, fmap_app, elem_of_app, Hkeys. simpl.
    rewrite list_elem_of_singleton. tauto.
  - intros g Hg. rewrite filter_app.
    destruct (group_add_elem d groups g Hnd Hg) as [[Hne Hin]|[(d0 & ds & -> & Hin)|[-> Hfresh]]].
    + rewrite (filter_cons_False _ d []) by congruence.
      rewrite filter_nil, app_nil_r. by apply Hmem.
    + rewrite (filter_cons_True _ d []) by done. rewrite filter_nil.
      specialize (Hmem _ Hin). unfold members in *. simpl in *.
      by rewrite <- Hmem.
    + rewrite (filter_cons_True _ d []) by done. rewrite filter_nil.
      rewrite filter_class_absent; [done|]. simpl. by rewrite <- Hkeys.
Qed.

Lemma detections_by_class_spec detections :
  groups_of (detections_by_class detections) detections.
Proof.
  unfold detections_by_class.
  induction detections as [|d l IH] using rev_ind; [apply groups_of_nil|].
  rewrite foldl_app. simpl. by apply groups_of_snoc.
Qed.

(** [max] returns a member of the list whose confidence no other member
    exceeds. *)
Lemma max_by_confidence_spec best ds :
  max_by_confidence best ds ∈ best :: ds ∧
  ∀ d, d ∈ best :: ds → (confidence d <= confidence (max_by_confidence best ds))%Q.
Proof.
  revert best. induction ds as [|d0 ds IH]; intros best; simpl.
  - split; [by left|]. intros d Hd. apply list_elem_of_singleton in Hd. subst. apply Qle_refl.
  - set (b := if Qlt_le_dec (confidence best) (confidence d0) then d0 else best).
    assert ((b = best ∨ b = d0) ∧
            (confidence best <= confidence b)%Q ∧ (confidence d0 <= confidence b)%Q)
      as (Hb & Hbest & Hd0).
    { subst b. destruct (Qlt_le_dec (confidence best) (confidence d0)).
      - split; [by right|]. split; [lra|apply Qle_refl].
      - split; [by left|]. split; [apply Qle_refl|lra]. }
    destruct (IH b) as [Hin Hmax]. split.
    + apply elem_of_cons in Hin as [Hin|Hin]; [|by right; right].
      rewrite Hin. destruct Hb as [-> | ->]; [by left|right; by left].
    + intros d Hd. apply elem_of_cons in Hd as [->|Hd].
      * eapply Qle_trans; [exact Hbest|]. apply Hmax. by left.
      * apply elem_of_cons in Hd as [->|Hd].
        -- eapply Qle_trans; [exact Hd0|]. apply Hmax. by left.
        -- apply Hmax. by right.
Qed.

Lemma foldl_check_class camera_name t iv last0 groups :
  ∀ last evs,
  NoDup (group_keys groups) →
  (∀ c, c ∈ group_keys groups →
        last !! event_key camera_name c = last0 !! event_key camera_name c) →
  (foldl (check_class camera_name t iv) (last, evs) groups).2 =
    evs ++ omap (decide_group camera_name t iv last0) groups ∧
  (∀ c, c ∉ group_keys groups →
     (foldl (check_class camera_name t iv) (last, evs) groups).1 !! event_key camera_name c =
     last !! event_key camera_name c) ∧
  (∀ c, c ∈ group_keys groups →
     (foldl (check_class camera_name t iv) (last, evs) groups).1 !! event_key camera_name c =
     if Qlt_le_dec (t - default 0%Q (last0 !! event_key camera_name c)) iv
     then last0 !! event_key camera_name c else Some t).
Proof.
  unfold group_keys.
  induction groups as [|[c0 [d0 ds]] rest IH]; intros last evs Hnd Hsame.
  - simpl. rewrite app_nil_r. split; [done|]. split; [done|].
    intros c Hc. by apply elem_of_nil in Hc.
  - rewrite fmap_cons in Hnd, Hsame. simpl in Hnd, Hsame.
    apply NoDup_cons in Hnd as [Hnotin Hnd].
    assert (last !! event_key camera_name c0 = last0 !! event_key camera_name c0) as Hc0
      by (apply Hsame; by left).
    cbn [foldl check_class omap list_omap]. unfold decide_group at 1. cbn [fst snd].
    rewrite Hc0.
    destruct (Qlt_le_dec (t - default 0%Q (last0 !! event_key camera_name c0)) iv)
      as [Hskip|Hemit].
    + destruct (IH last evs Hnd) as (Hev & Hout & Hin).
      { intros c Hc. apply Hsame. by right. }
      split; [done|]. split.
      * intros c Hc. rewrite fmap_cons, not_elem_of_cons in Hc. apply Hout, Hc.
      * intros c Hc. rewrite fmap_cons in Hc. apply elem_of_cons in Hc as [->|Hc]; [|by apply Hin].
        simpl. rewrite (Hout c0 Hnotin), Hc0.
        destruct (Qlt_le_dec _ _); [done|lra].
    + set (e := {| type := c0; ev_confidence := confidence (max_by_confidence d0 ds);
                   ev_bbox := bbox (max_by_confidence d0 ds); timestamp := t;
                   camera_name := camera_name |}).
      destruct (IH (<[event_key camera_name c0 := t]> last) (evs ++ [e]) Hnd)
        as (Hev & Hout & Hin).
      { intros c Hc. rewrite lookup_insert_ne; [apply Hsame; by right|].
        intros Heq. apply event_key_inj in Heq. congruence. }
      split; [by rewrite Hev, <- app_assoc|]. split.
      * intros c Hc. rewrite fmap_cons, not_elem_of_cons in Hc. destruct Hc as [Hne Hc].
        rewrite (Hout c Hc). apply lookup_insert_ne.
        intros Heq. apply event_key_inj in Heq. done.
      * intros c Hc. rewrite fmap_cons in Hc. apply elem_of_cons in Hc as [->|Hc]; [|by apply Hin].
        simpl. rewrite (Hout c0 Hnotin), lookup_insert_eq.
        destruct (Qlt_le_dec _ _); [lra|done].
Qed.

Lemma decide_group_type camera_name t iv last0 g e :
  decide_group camera_name t iv last0 g = Some e → type e = g.1.
Proof. unfold decide_group. destruct (Qlt_le_dec _ _); [done|]. by intros [= <-]. Qed.

Lemma decided_events_absent camera_name t iv last0 groups c :
  c ∉ group_keys groups →
  events_of_type c (omap (decide_group camera_name t iv last0) groups) = [].
Proof.
  unfold group_keys, events_of_type. induction groups as [|g rest IH]; [done|].
  rewrite fmap_cons, not_elem_of_cons. intros [Hne Hnotin].
  cbn [omap list_omap].
  destruct (decide_group camera_name t iv last0 g) as [e|] eqn:Hdg; [|by apply IH].
  apply decide_group_type in Hdg.
  rewrite filter_cons_False by congruence. by apply IH.
Qed.

Lemma decided_events_present camera_name t iv last0 groups c :
  NoDup (group_keys groups) →
  c ∈ group_keys groups →
  ∃ g, g ∈ groups ∧ g.1 = c ∧
    events_of_type c (omap (decide_group camera_name t iv last0) groups) =
    option_list (decide_group camera_name t iv last0 g).
Proof.
  unfold group_keys, events_of_type. induction groups as [|g rest IH]; intros Hnd Hin.
  - by apply elem_of_nil in Hin.
  - rewrite fmap_cons in Hnd, Hin. apply NoDup_cons in Hnd as [Hnotin Hnd].
    cbn [omap list_omap].
    destruct (decide (g.1 = c)) as [Heq|Hne].
    + exists g. split; [by left|]. split; [done|].
      rewrite <- Heq in *.
      pose proof (decided_events_absent camera_name t iv last0 rest g.1 Hnotin) as Habs.
      unfold events_of_type in Habs.
      destruct (decide_group camera_name t iv last0 g) as [e|] eqn:Hdg; [|done].
      apply decide_group_type in Hdg.
      rewrite filter_cons_True by done. by rewrite Habs.
    + apply elem_of_cons in Hin as [Hin|Hin]; [congruence|].
      destruct (IH Hnd Hin) as (g' & Hg' & Hc & Hev).
      exists g'. split; [by right|]. split; [done|].
      destruct (decide_group camera_name t iv last0 g) as [e|] eqn:Hdg; [|done].
      apply decide_group_type in Hdg.
      by rewrite filter_cons_False by congruence.
Qed.

(** [_check_events] in closed form. *)
Lemma check_events_spec now ed detections md :
  let t := default now (md_timestamp md) in
  let cam := default "unknown" (md_camera_name md) in
  (_check_events now ed detections md).1 =
    omap (decide_group cam t (min_event_interval ed) (last_event_time ed))
      (detections_by_class detections) ∧
  min_event_interval (_check_events now ed detections md).2 = min_event_interval ed ∧
  ∀ c, c ∈ class_name <$> detections →
    last_event_time (_check_events now ed detections md).2 !! event_key cam c =
    if Qlt_le_dec (t - last_time ed cam c) (min_event_interval ed)
    then last_event_time ed !! event_key cam c else Some t.
Proof.
  intros t cam. unfold _check_events. fold t cam.
  destruct (detections_by_class_spec detections) as (Hnd & Hkeys & _).
  destruct (foldl_check_class cam t (min_event_interval ed) (last_event_time ed)
              (detections_by_class detections) (last_event_time ed) [] Hnd)
    as (Hev & _ & Hin); [done|].
  destruct (foldl _ _ _) as [last events]. simpl in *.
  split; [done|]. split; [done|]. intros c Hc. apply Hin. by apply Hkeys.
Qed.

Lemma check_events_class now ed detections md c :
  c ∈ class_name <$> detections →
  ∃ g, g.1 = c ∧
    members g = filter (λ d, class_name d = c) detections ∧
    events_of_type c (_check_events now ed detections md).1 =
      option_list (decide_group (default "unknown" (md_camera_name md))
                     (default now (md_timestamp md))
                     (min_event_interval ed) (last_event_time ed) g).
Proof.
  intros Hc. destruct (check_events_spec now ed detections md) as (-> & _ & _).
  destruct (detections_by_class_spec detections) as (Hnd & Hkeys & Hmem).
  apply Hkeys in Hc.
  destruct (decided_events_present (default "unknown" (md_camera_name md))
              (default now (md_timestamp md)) (min_event_interval ed)
              (last_event_time ed) _ c Hnd Hc) as (g & Hg & Hgc & Hev).
  exists g. split; [done|]. split; [|done]. rewrite <- Hgc. by apply Hmem.
Qed.

Lemma check_events_count now ed detections md c :
  c ∈ class_name <$> detections →
  length (events_of_type c (_check_events now ed detections md).1) =
    if Qlt_le_dec (default now (md_timestamp md)
                   - last_time ed (default "unknown" (md_camera_name md)) c)
                  (min_event_interval ed)
    then 0%nat else 1%nat.
Proof.
  intros Hc. destruct (check_events_class now ed detections md c Hc) as (g & Hg & _ & ->).
  unfold decide_group, last_time. rewrite Hg. by destruct (Qlt_le_dec _ _).
Qed.

(** [process_frame] hands [_check_events] the detections of interest
    and returns its events. *)
Lemma process_frame_events now ed f md :
  ∃ pr, (process_frame now ed (Some f) md).1.1 = Some pr ∧
    pr_detections pr =
      filter (λ d, of_interest ed d = true) (detect (detector ed) (Some f) None None).1 ∧
    pr_events pr = (_check_events now ed (pr_detections pr) md).1 ∧
    (process_frame now ed (Some f) md).1.2 = (_check_events now ed (pr_detections pr) md).2.
Proof.
  unfold process_frame. destruct (detect _ _ _ _) as [detections log]. simpl.
  destruct (_check_events now ed _ md) as [events ed'] eqn:Hce.
  eexists. split; [done|]. simpl. rewrite Hce. done.
Qed.

End DetectorFacts.

(** * The claims about detection *)

Section DetectorClaims.
Import Detection DetectionInv.

(** C3, as stated, fails on its two instances: a key that has had no
    event yet is read as "last event at time 0", so on a fresh detector a
    "person" at t = 0 is not emitted.  Detections at t = 0 and t = 1 yield
    no event (not one), and detections at t = 0 and t = 6 yield one (not
    two). *)
Lemma C3_counterexample :
  let first := _check_events 0 fresh [person (9 # 10)] (at_cam1 0) in
  let after_1s := _check_events 0 first.2 [person (9 # 10)] (at_cam1 1) in
  let after_6s := _check_events 0 first.2 [person (9 # 10)] (at_cam1 6) in
  length (first.1 ++ after_1s.1) = 0%nat ∧ length (first.1 ++ after_6s.1) = 1%nat.
Proof. split; vm_compute; reflexivity. Qed.

(** C3 (amended). For a batch evaluated at time t on a camera and a class
    c present in it: an event of type c is emitted if and only if
    t - last >= min_event_interval, where last is the stored time of the
    last event of the (camera, class) key and 0 when the key has had no
    event; whatever else the batch contains (other classes do not
    suppress it), at most one event of type c is emitted, and it carries
    the confidence and box of a detection of class c of the batch whose
    confidence no other detection of class c exceeds.  When the first of
    two batches emits class c, a second batch with class c on the same
    camera less than the interval later adds none (one event in total),
    and one at least the interval later adds one (two in total). *)
Theorem C3_debounce_per_camera_and_class now ed detections md c :
  c ∈ class_name <$> detections →
  let t := default now (md_timestamp md) in
  let cam := default "unknown" (md_camera_name md) in
  let events := (_check_events now ed detections md).1 in
  let ed' := (_check_events now ed detections md).2 in
  ((∃ e, e ∈ events ∧ type e = c) ↔ (min_event_interval ed <= t - last_time ed cam c)%Q) ∧
  (length (events_of_type c events) ≤ 1)%nat ∧
  (∀ e, e ∈ events → type e = c →
     (∀ d, d ∈ detections → class_name d = c → (confidence d <= ev_confidence e)%Q) ∧
     ∃ d, d ∈ detections ∧ class_name d = c ∧
          ev_confidence e = confidence d ∧ ev_bbox e = bbox d) ∧
  (∀ now2 detections2 md2,
     c ∈ class_name <$> detections2 →
     default "unknown" (md_camera_name md2) = cam →
     (min_event_interval ed <= t - last_time ed cam c)%Q →
     let t2 := default now2 (md_timestamp md2) in
     let events2 := (_check_events now2 ed' detections2 md2).1 in
     ((t2 - t < min_event_interval ed)%Q →
        length (events_of_type c (events ++ events2)) = 1%nat) ∧
     ((min_event_interval ed <= t2 - t)%Q →
        length (events_of_type c (events ++ events2)) = 2%nat)).
Proof.
  intros Hc t cam events ed'.
  destruct (check_events_class now ed detections md c Hc) as (g & Hg & Hmem & Hev).
  fold t cam events in Hev.
  pose proof (check_events_count now ed detections md c Hc) as Hcount.
  fold t cam events in Hcount.
  assert (∀ e, e ∈ events ∧ type e = c ↔ e ∈ events_of_type c events) as Hfilter.
  { intros e. unfold events_of_type. rewrite list_elem_of_filter. tauto. }
  unfold decide_group in Hev. rewrite Hg in Hev. fold (last_time ed cam c) in Hev.
  destruct (Qlt_le_dec (t - last_time ed cam c) (min_event_interval ed)) as [Hlt|Hle];
    simpl in Hev.
  - (* within the interval: nothing is emitted for c *)
    split; [|split; [|split]].
    + split; [|lra]. intros (e & He). apply Hfilter in He. rewrite Hev in He.
      by apply elem_of_nil in He.
    + rewrite Hcount. lia.
    + intros e He Hty. assert (e ∈ events_of_type c events) as Hin by (by apply Hfilter).
      rewrite Hev in Hin. by apply elem_of_nil in Hin.
    + intros. lra.
  - split; [|split; [|split]].
    + split; [done|]. intros _. eexists. apply Hfilter. rewrite Hev. by left.
    + rewrite Hcount. lia.
    + intros e He Hty. assert (e ∈ events_of_type c events) as Hin by (by apply Hfilter).
      rewrite Hev in Hin. apply list_elem_of_singleton in Hin. subst e. simpl.
      destruct (max_by_confidence_spec g.2.1 g.2.2) as [Hbest Hmax].
      fold (members g) in Hbest, Hmax. rewrite Hmem in Hbest, Hmax.
      split.
      * intros d Hd Hdc. apply Hmax. by apply list_elem_of_filter.
      * exists (max_by_confidence g.2.1 g.2.2).
        apply list_elem_of_filter in Hbest as [Hbc Hbin]. done.
    + intros now2 detections2 md2 Hc2 Hcam2 _ t2 events2.
      destruct (check_events_spec now ed detections md) as (_ & Hiv & Hlast).
      specialize (Hlast c Hc). fold t cam ed' in Hlast, Hiv.
      destruct (Qlt_le_dec (t - last_time ed cam c) (min_event_interval ed)) as [Hlt|_];
        [lra|].
      pose proof (check_events_count now2 ed' detections2 md2 c Hc2) as Hcount2.
      fold t2 events2 in Hcount2. rewrite Hcam2, Hiv in Hcount2.
      assert (last_time ed' cam c = t) as Hstored
        by (unfold last_time; by rewrite Hlast).
      unfold events_of_type in *. rewrite filter_app, length_app, Hcount, Hcount2.
      destruct (Qlt_le_dec (t2 - last_time ed' cam c) (min_event_interval ed)) as [H2|H2];
        rewrite Hstored in H2; split; intros; try lra; done.
Qed.

Lemma C3_witness :
  let first := _check_events 0 fresh [person (8 # 10); car (7 # 10); person (9 # 10)]
                 (at_cam1 100) in
  let after_1s := _check_events 0 first.2 [person (9 # 10)] (at_cam1 101) in
  let after_6s := _check_events 0 first.2 [person (9 # 10)] (at_cam1 106) in
  ("person" ∈ class_name <$> [person (8 # 10); car (7 # 10); person (9 # 10)]) ∧
  (∃ e, e ∈ first.1 ∧ type e = "person") ∧
  length (events_of_type "person" (first.1 ++ after_1s.1)) = 1%nat ∧
  length (events_of_type "person" (first.1 ++ after_6s.1)) = 2%nat.
Proof.
  intros first after_1s after_6s.
  assert ("person" ∈ class_name <$> [person (8 # 10); car (7 # 10); person (9 # 10)])
    as Hc by (simpl; left).
  assert ((min_event_interval fresh <= 100 - last_time fresh "cam1" "person")%Q)
    as Hdue by (vm_compute; discriminate).
  destruct (C3_debounce_per_camera_and_class 0 fresh
              [person (8 # 10); car (7 # 10); person (9 # 10)] (at_cam1 100) "person" Hc)
    as (Hiff & _ & _ & Hnext).
  assert ("person" ∈ class_name <$> [person (9 # 10)]) as Hc2 by (simpl; left).
  assert ((101 - 100 < min_event_interval fresh)%Q) as Hsoon by (vm_compute; reflexivity).
  assert ((min_event_interval fresh <= 106 - 100)%Q) as Hlate by (vm_compute; discriminate).
  split; [exact Hc|]. split; [exact (proj2 Hiff Hdue)|]. split.
  - exact (proj1 (Hnext 0%Q [person (9 # 10)] (at_cam1 101) Hc2 eq_refl Hdue) Hsoon).
  - exact (proj2 (Hnext 0%Q [person (9 # 10)] (at_cam1 106) Hc2 eq_refl Hdue) Hlate).
Defined.

(** C7, as stated, fails on "signals a distinguishable condition": with
    the model missing, [detect] hands its caller exactly what a working
    detector hands it for a frame without objects (the same empty list,
    and nothing is logged); when inference raises, the returned value is
    again that same empty list.  No function of the returned value can
    tell the cases apart. *)
Lemma C7_counterexample :
  detect no_model (Some frame720) None None =
    detect (with_model finds_nothing no_model) (Some frame720) None None ∧
  (detect (with_model always_raises no_model) (Some frame720) None None).1 =
    (detect (with_model finds_nothing no_model) (Some frame720) None None).1 ∧
  ¬ ∃ unavailable : list DetectionResult → bool,
      unavailable (detect no_model (Some frame720) None None).1 = true ∧
      unavailable (detect (with_model finds_nothing no_model) (Some frame720) None None).1
        = false.
Proof.
  split; [reflexivity|]. split; [reflexivity|].
  intros (unavailable & Htrue & Hfalse).
  change (detect no_model (Some frame720) None None).1 with (@nil DetectionResult) in Htrue.
  change (detect (with_model finds_nothing no_model) (Some frame720) None None).1
    with (@nil DetectionResult) in Hfalse.
  congruence.
Qed.

(** C7 (amended). When the model is missing or inference raises,
    [detect] returns the empty list, which is also what the same
    detector returns with a model that finds nothing; a raised inference
    exception is logged as an error, a missing model is not logged; no
    other condition is signalled to the caller. *)
Theorem C7_detect_degrades_to_empty d frame classes conf :
  model d = None ∨
  (∃ m f, model d = Some m ∧ frame = Some f ∧ m f (default (conf_threshold d) conf) = None) →
  (detect d frame classes conf).1 = [] ∧
  (detect d frame classes conf).1 = (detect (with_model finds_nothing d) frame classes conf).1 ∧
  (model d = None → (detect d frame classes conf).2 = []) ∧
  (∀ m f, model d = Some m → frame = Some f → size f ≠ 0 →
     (detect d frame classes conf).2 = [logger_error "detect: exception during detection" ""]).
Proof.
  intros Hbroken.
  assert ((detect (with_model finds_nothing d) frame classes conf).1 = []) as Hnothing.
  { unfold detect, with_model, finds_nothing. simpl.
    destruct frame as [f|]; [|done]. by destruct (size f =? 0). }
  rewrite Hnothing.
  destruct Hbroken as [Hnone|(m & f & Hm & -> & Hraise)].
  - assert (detect d frame classes conf = ([], [])) as ->.
    { unfold detect. rewrite Hnone. by destruct frame. }
    split; [done|]. split; [done|]. split; [done|]. intros m f Hm. congruence.
  - unfold detect. rewrite Hm.
    destruct (size f =? 0) eqn:Hsz.
    + split; [done|]. split; [done|]. split; [done|].
      intros m' f' _ [= <-] Hne. apply Z.eqb_eq in Hsz. done.
    + rewrite Hraise. split; [done|]. split; [done|]. split; [congruence|]. done.
Qed.

Lemma C7_witness :
  (detect no_model (Some frame720) None None).1 = [] ∧
  (detect (with_model always_raises no_model) (Some frame720) None None).1 = [].
Proof.
  split.
  - exact (proj1 (C7_detect_degrades_to_empty no_model (Some frame720) None None
                    (or_introl eq_refl))).
  - refine (proj1 (C7_detect_degrades_to_empty (with_model always_raises no_model)
                     (Some frame720) None None (or_intror _))).
    exists always_raises, frame720. repeat split.
Defined.

End DetectorClaims.

(** * Properties of the capture loop *)

Section CameraFacts.
Import Camera CameraInv.

Lemma releases_app effs1 effs2 : releases (effs1 ++ effs2) = (releases effs1 + releases effs2)%nat.
Proof. unfold releases. by rewrite filter_app, length_app. Qed.

Lemma streaming_open env s : streaming s → env_open env = true → cap_is_open env s = true.
Proof. intros [_ Hcap] Hopen. unfold cap_is_open. by rewrite Hcap, Hopen. Qed.

Lemma periodic_log_quiet env cam l : quiet l env → periodic_log env cam l = (l, []).
Proof.
  intros [_ Hq]. unfold periodic_log. destruct (Qlt_le_dec _ _); [lra|done].
Qed.

(** A failed read below the threshold only counts. *)
Lemma run_round_read_nothing env s l :
  streaming s → quiet l env → env_read env = ReadNothing → error_count l + 1 ≤ 5 →
  (run_round env s l).1.1 = s ∧
  (run_round env s l).1.2 = set_error_count (error_count l + 1) l ∧
  releases (run_round env s l).2 = 0%nat.
Proof.
  intros Hs Hq Hread Hcount. unfold run_round, read_round.
  rewrite (streaming_open env s Hs (proj1 Hq)). simpl.
  rewrite Hread, (periodic_log_quiet env _ l Hq). simpl.
  destruct (Z.gtb_spec (error_count l + 1) 5); [lia|]. done.
Qed.

(** The failed read that takes the counter above 5 releases the capture. *)
Lemma run_round_read_nothing_over env s l :
  streaming s → quiet l env → env_read env = ReadNothing → 5 < error_count l + 1 →
  cap (run_round env s l).1.1 = Some released ∧
  connected (run_round env s l).1.1 = false ∧
  running (run_round env s l).1.1 = true ∧
  releases (run_round env s l).2 = 1%nat.
Proof.
  intros Hs Hq Hread Hcount. unfold run_round, read_round.
  rewrite (streaming_open env s Hs (proj1 Hq)). simpl.
  rewrite Hread, (periodic_log_quiet env _ l Hq). simpl.
  destruct (Z.gtb_spec (error_count l + 1) 5); [|lia].
  destruct Hs as [Hrun Hcap]. unfold release_cap. rewrite Hcap. done.
Qed.

Lemma run_round_read_raises env s l :
  streaming s → env_open env = true → env_read env = ReadRaises → error_count l + 1 ≤ 3 →
  (run_round env s l).1.1 = s ∧
  (run_round env s l).1.2 = set_error_count (error_count l + 1) l ∧
  releases (run_round env s l).2 = 0%nat.
Proof.
  intros Hs Hopen Hread Hcount. unfold run_round, read_round.
  rewrite (streaming_open env s Hs Hopen). simpl. rewrite Hread. simpl.
  destruct (Z.gtb_spec (error_count l + 1) 3); [lia|]. done.
Qed.

Lemma run_round_read_raises_over env s l :
  streaming s → env_open env = true → env_read env = ReadRaises → 3 < error_count l + 1 →
  cap (run_round env s l).1.1 = Some released ∧
  connected (run_round env s l).1.1 = false ∧
  running (run_round env s l).1.1 = true ∧
  releases (run_round env s l).2 = 1%nat.
Proof.
  intros Hs Hopen Hread Hcount. unfold run_round, read_round.
  rewrite (streaming_open env s Hs Hopen). simpl. rewrite Hread. simpl.
  destruct (Z.gtb_spec (error_count l + 1) 3); [|lia].
  destruct Hs as [Hrun Hcap]. unfold release_cap. rewrite Hcap. done.
Qed.

Lemma run_rounds_cons env envs s l :
  running s = true →
  run_rounds (env :: envs) s l =
    ((run_rounds envs (run_round env s l).1.1 (run_round env s l).1.2).1,
     (run_round env s l).2 ++
       (run_rounds envs (run_round env s l).1.1 (run_round env s l).1.2).2).
Proof.
  intros Hrun. simpl. rewrite Hrun.
  destruct (run_round env s l) as [[s1 l1] eff1]. simpl.
  by destruct (run_rounds envs s1 l1) as [[s2 l2] eff2].
Qed.

(** Consecutive failures that keep the counter within its bound [bound]
    leave the stream as it is. *)
Lemma run_rounds_below_threshold (bound : Z) (fails : IterEnv → Prop) envs :
  (∀ env s l, streaming s → quiet l env → fails env → error_count l + 1 ≤ bound →
     (run_round env s l).1.1 = s ∧
     (run_round env s l).1.2 = set_error_count (error_count l + 1) l ∧
     releases (run_round env s l).2 = 0%nat) →
  ∀ s l, streaming s → Forall (quiet l) envs → Forall fails envs →
  error_count l + len envs ≤ bound →
  (run_rounds envs s l).1.1 = s ∧
  (run_rounds envs s l).1.2 = set_error_count (error_count l + len envs) l ∧
  releases (run_rounds envs s l).2 = 0%nat.
Proof.
  intros Hround. unfold len. induction envs as [|env envs IH]; intros s l Hs Hq Hf Hcount.
  - simpl. rewrite Z.add_0_r. by destruct l.
  - apply Forall_cons in Hq as [Hq Hqs]. apply Forall_cons in Hf as [Hf Hfs].
    cbn [length] in Hcount.
    destruct (Hround env s l Hs Hq Hf) as (Hs1 & Hl1 & Hrel1); [lia|].
    rewrite run_rounds_cons by apply Hs. rewrite Hs1, Hl1. cbn [fst snd].
    destruct (IH s (set_error_count (error_count l + 1) l) Hs) as (Hs2 & Hl2 & Hrel2);
      [done|done|simpl; lia|].
    rewrite Hs2, Hl2, releases_app, Hrel1, Hrel2. split; [done|]. split; [|done].
    unfold set_error_count. simpl. f_equal. cbn [length]. lia.
Qed.

(** [_process_frame] calls every callback once, in registration order,
    each with its own copy of the frame, whichever of them raise. *)
Lemma fan_out_calls cbs f md :
  calls_of (fan_out cbs f md) = (λ cb, (cb_id cb, copy f, md)) <$> cbs.
Proof.
  unfold calls_of. induction cbs as [|cb cbs IH]; [done|].
  cbn [fan_out]. destruct (cb_raises cb (copy f) md);
    cbn [omap list_omap]; rewrite IH; done.
Qed.

Lemma fan_out_error_logs cbs f md :
  error_logs (fan_out cbs f md) =
  length (filter (λ cb, cb_raises cb (copy f) md = true) cbs).
Proof.
  unfold error_logs. induction cbs as [|cb cbs IH]; [done|].
  cbn [fan_out]. rewrite filter_cons_False by (simpl; discriminate).
  destruct (cb_raises cb (copy f) md) eqn:Hr.
  - rewrite !filter_cons_True by done. simpl. by rewrite IH.
  - rewrite (filter_cons_False _ cb cbs) by (rewrite Hr; discriminate). done.
Qed.

Lemma fan_out_releases cbs f md : releases (fan_out cbs f md) = 0%nat.
Proof.
  unfold releases. induction cbs as [|cb cbs IH]; [done|].
  cbn [fan_out]. rewrite filter_cons_False by (simpl; discriminate).
  destruct (cb_raises cb (copy f) md); [|done].
  by rewrite filter_cons_False by (simpl; discriminate).
Qed.

(** The failure that takes the counter above [bound] ends the streaming
    state: the capture is released exactly once. *)
Lemma run_rounds_at_threshold (bound : Z) (fails : IterEnv → Prop) envs :
  (∀ env s l, streaming s → quiet l env → fails env → error_count l + 1 ≤ bound →
     (run_round env s l).1.1 = s ∧
     (run_round env s l).1.2 = set_error_count (error_count l + 1) l ∧
     releases (run_round env s l).2 = 0%nat) →
  (∀ env s l, streaming s → quiet l env → fails env → bound < error_count l + 1 →
     cap (run_round env s l).1.1 = Some released ∧
     connected (run_round env s l).1.1 = false ∧
     running (run_round env s l).1.1 = true ∧
     releases (run_round env s l).2 = 1%nat) →
  ∀ s l, streaming s → Forall (quiet l) envs → Forall fails envs →
  error_count l + len envs = bound + 1 → envs ≠ [] →
  cap (run_rounds envs s l).1.1 = Some released ∧
  connected (run_rounds envs s l).1.1 = false ∧
  releases (run_rounds envs s l).2 = 1%nat.
Proof.
  intros Hbelow Hover. unfold len.
  induction envs as [|env envs IH]; intros s l Hs Hq Hf Hcount Hne; [done|].
  apply Forall_cons in Hq as [Hq Hqs]. apply Forall_cons in Hf as [Hf Hfs].
  cbn [length] in Hcount. rewrite run_rounds_cons by apply Hs. cbn [fst snd].
  destruct envs as [|env' envs].
  - destruct (Hover env s l Hs Hq Hf) as (Hcap & Hconn & _ & Hrel); [simpl in Hcount; lia|].
    simpl. rewrite app_nil_r. done.
  - destruct (Hbelow env s l Hs Hq Hf) as (Hs1 & Hl1 & Hrel1);
      [cbn [length] in Hcount; lia|].
    rewrite Hs1, Hl1, releases_app, Hrel1.
    apply (IH s (set_error_count (error_count l + 1) l)); try done.
    simpl. cbn [length] in Hcount. lia.
Qed.

Lemma stop_idle s : running s = false → stop s = (s, []).
Proof. intros Hrun. unfold stop. by rewrite Hrun. Qed.

Lemma stop_not_running s : running (stop s).1 = false.
Proof.
  unfold stop. destruct (running s) eqn:Hrun; simpl; [|done].
  unfold release_cap. by destruct (cap (set_running false s)).
Qed.

End CameraFacts.

(** * The claims about the capture loop and the registry *)

Section CameraClaims.
Import Camera CameraInv.

(** C4, as stated, fails on the counts: the loop compares
    [error_count > 5] (reads) and [error_count > 3] (exceptions), so after
    exactly 5 consecutive failed reads, and after exactly 3 consecutive
    exceptions, the stream still holds its open capture and nothing has
    been released. *)
Lemma C4_counterexample :
  streaming cam1_stream ∧
  (_run 0 (failed_reads 5) cam1_stream).1.1 = cam1_stream ∧
  error_count (_run 0 (failed_reads 5) cam1_stream).1.2 = 5 ∧
  releases (_run 0 (failed_reads 5) cam1_stream).2 = 0%nat ∧
  (_run 0 (raised_reads 3) cam1_stream).1.1 = cam1_stream ∧
  error_count (_run 0 (raised_reads 3) cam1_stream).1.2 = 3 ∧
  releases (_run 0 (raised_reads 3) cam1_stream).2 = 0%nat.
Proof. repeat split; vm_compute; reflexivity. Qed.

(** C4 (amended). While streaming, counted from a failure counter at zero
    and over rounds in which the periodic log is not due: up to 5
    consecutive failed reads leave the stream as it is and the 6th (the
    counter exceeds 5) releases the capture and clears [connected]; up
    to 3 consecutive exceptions leave it as it is and the 4th (the counter
    exceeds 3) releases the capture; a released capture makes the next
    round take the reconnection branch; and one successful read sets the
    counter to zero. *)
Theorem C4_reconnect_when_counter_exceeds s l :
  streaming s → error_count l = 0 →
  (∀ envs, Forall (quiet l) envs → Forall (λ env, env_read env = ReadNothing) envs →
     ((length envs ≤ 5)%nat →
        (run_rounds envs s l).1.1 = s ∧
        error_count (run_rounds envs s l).1.2 = len envs ∧
        releases (run_rounds envs s l).2 = 0%nat) ∧
     (length envs = 6%nat →
        cap (run_rounds envs s l).1.1 = Some released ∧
        connected (run_rounds envs s l).1.1 = false ∧
        releases (run_rounds envs s l).2 = 1%nat ∧
        ∀ env, cap_is_open env (run_rounds envs s l).1.1 = false)) ∧
  (∀ envs, Forall (quiet l) envs → Forall (λ env, env_read env = ReadRaises) envs →
     ((length envs ≤ 3)%nat →
        (run_rounds envs s l).1.1 = s ∧
        error_count (run_rounds envs s l).1.2 = len envs ∧
        releases (run_rounds envs s l).2 = 0%nat) ∧
     (length envs = 4%nat →
        cap (run_rounds envs s l).1.1 = Some released ∧
        connected (run_rounds envs s l).1.1 = false ∧
        releases (run_rounds envs s l).2 = 1%nat ∧
        ∀ env, cap_is_open env (run_rounds envs s l).1.1 = false)) ∧
  (∀ env f l0, env_open env = true → env_read env = ReadFrame f →
     error_count (run_round env s l0).1.2 = 0 ∧
     cap (run_round env s l0).1.1 = cap s ∧
     releases (run_round env s l0).2 = 0%nat).
Proof.
  intros Hs Hzero. split; [|split].
  - intros envs Hq Hf. split.
    + intros Hlen.
      destruct (run_rounds_below_threshold 5 (λ env, env_read env = ReadNothing) envs
                  run_round_read_nothing s l Hs Hq Hf) as (-> & -> & ->);
        [unfold len; lia|].
      simpl. split; [done|]. split; [lia|done].
    + intros Hlen.
      destruct (run_rounds_at_threshold 5 (λ env, env_read env = ReadNothing) envs
                  run_round_read_nothing run_round_read_nothing_over s l Hs Hq Hf)
        as (Hcap & Hconn & Hrel); [unfold len; lia|by destruct envs|].
      repeat split; try done. intros env. unfold cap_is_open. by rewrite Hcap.
  - assert (∀ env s l, streaming s → quiet l env → env_read env = ReadRaises →
              error_count l + 1 ≤ 3 →
              (run_round env s l).1.1 = s ∧
              (run_round env s l).1.2 = set_error_count (error_count l + 1) l ∧
              releases (run_round env s l).2 = 0%nat) as Hbelow.
    { intros env s0 l0 Hs0 [Hopen _]. by apply run_round_read_raises. }
    assert (∀ env s l, streaming s → quiet l env → env_read env = ReadRaises →
              3 < error_count l + 1 →
              cap (run_round env s l).1.1 = Some released ∧
              connected (run_round env s l).1.1 = false ∧
              running (run_round env s l).1.1 = true ∧
              releases (run_round env s l).2 = 1%nat) as Hover.
    { intros env s0 l0 Hs0 [Hopen _]. by apply run_round_read_raises_over. }
    intros envs Hq Hf. split.
    + intros Hlen.
      destruct (run_rounds_below_threshold 3 (λ env, env_read env = ReadRaises) envs
                  Hbelow s l Hs Hq Hf) as (-> & -> & ->); [unfold len; lia|].
      simpl. split; [done|]. split; [lia|done].
    + intros Hlen.
      destruct (run_rounds_at_threshold 3 (λ env, env_read env = ReadRaises) envs
                  Hbelow Hover s l Hs Hq Hf)
        as (Hcap & Hconn & Hrel); [unfold len; lia|by destruct envs|].
      repeat split; try done. intros env. unfold cap_is_open. by rewrite Hcap.
  - intros env f l0 Hopen Hread. unfold run_round, read_round.
    rewrite (streaming_open env s Hs Hopen). simpl. rewrite Hread.
    destruct (periodic_log env (name (config s)) l0) as [l1 plog] eqn:Hlog. simpl.
    split; [done|]. split; [done|].
    rewrite !releases_app, fan_out_releases.
    unfold periodic_log in Hlog. destruct (Qlt_le_dec _ _); by injection Hlog as <- <-.
Qed.

Lemma C4_witness :
  cap (_run 0 (failed_reads 6) cam1_stream).1.1 = Some released ∧
  cap (_run 0 (raised_reads 4) cam1_stream).1.1 = Some released ∧
  error_count (run_round (round_with 1 (ReadFrame picture)) cam1_stream
                 (set_error_count 5 (run_init 0))).1.2 = 0.
Proof.
  assert (streaming cam1_stream) as Hs by (split; reflexivity).
  assert (∀ n r, Forall (quiet (run_init 0)) (replicate n (round_with 1 r))) as Hq.
  { intros n r. apply Forall_replicate. split; [reflexivity|]. vm_compute. discriminate. }
  assert (∀ n r, Forall (λ env, env_read env = r) (replicate n (round_with 1 r))) as Hf.
  { intros n r. by apply Forall_replicate. }
  destruct (C4_reconnect_when_counter_exceeds cam1_stream (run_init 0) Hs eq_refl)
    as (Hreads & Hraises & Hok).
  split; [|split].
  - exact (proj1 (proj2 (Hreads (failed_reads 6) (Hq _ _) (Hf _ _)) eq_refl)).
  - exact (proj1 (proj2 (Hraises (raised_reads 4) (Hq _ _) (Hf _ _)) eq_refl)).
  - exact (proj1 (Hok (round_with 1 (ReadFrame picture)) picture
                    (set_error_count 5 (run_init 0)) eq_refl eq_refl)).
Defined.

(** C6. For a frame read while the loop runs with an open capture: every
    registered callback is called exactly once, in registration order,
    each with its own copy of the frame, whichever callbacks raise; every
    raising callback is logged as an error; and the round ends normally:
    the loop keeps running with its capture, nothing is released and the
    failure counter is zero (a callback exception is not a capture
    failure). *)
Theorem C6_callback_isolation env s l f :
  running s = true → cap_is_open env s = true → env_read env = ReadFrame f →
  let md := {| md_camera_name := name (config s); md_timestamp := env_frame_time env;
               md_width := frame_width f; md_height := frame_height f |} in
  calls_of (run_round env s l).2 = (λ cb, (cb_id cb, copy f, md)) <$> callbacks s ∧
  (∀ cb, cb ∈ callbacks s → (cb_id cb, copy f, md) ∈ calls_of (run_round env s l).2) ∧
  error_logs (run_round env s l).2 =
    length (filter (λ cb, cb_raises cb (copy f) md = true) (callbacks s)) ∧
  running (run_round env s l).1.1 = true ∧
  cap (run_round env s l).1.1 = cap s ∧
  callbacks (run_round env s l).1.1 = callbacks s ∧
  error_count (run_round env s l).1.2 = 0 ∧
  releases (run_round env s l).2 = 0%nat.
Proof.
  intros Hrun Hopen Hread md. unfold run_round, read_round. rewrite Hopen. simpl.
  rewrite Hread.
  destruct (periodic_log env (name (config s)) l) as [l1 plog] eqn:Hlog. simpl.
  fold md.
  assert (calls_of plog = [] ∧ error_logs plog = 0%nat ∧ releases plog = 0%nat)
    as (Hc & He & Hr).
  { unfold periodic_log in Hlog. destruct (Qlt_le_dec _ _); by injection Hlog as <- <-. }
  assert (calls_of (plog ++ fan_out (callbacks s) f md ++ [Sleep (1 # 100)]) =
          (λ cb, (cb_id cb, copy f, md)) <$> callbacks s) as Hcalls.
  { unfold calls_of in *. rewrite !omap_app, Hc. simpl. rewrite app_nil_r.
    apply fan_out_calls. }
  split; [done|]. split.
  { intros cb Hcb. rewrite Hcalls. apply list_elem_of_fmap. by exists cb. }
  split.
  { unfold error_logs in *. rewrite !filter_app, !length_app, He. simpl.
    rewrite Nat.add_0_r. apply fan_out_error_logs. }
  repeat split; try done.
  rewrite !releases_app, Hr, fan_out_releases. done.
Qed.

Lemma C6_witness :
  calls_of (run_round (round_with 1 (ReadFrame picture)) cam1_stream (run_init 0)).2 =
    [(1%nat, picture, {| md_camera_name := "cam1"; md_timestamp := 1;
                         md_width := 1280; md_height := 720 |});
     (2%nat, picture, {| md_camera_name := "cam1"; md_timestamp := 1;
                         md_width := 1280; md_height := 720 |});
     (3%nat, picture, {| md_camera_name := "cam1"; md_timestamp := 1;
                         md_width := 1280; md_height := 720 |})] ∧
  error_logs (run_round (round_with 1 (ReadFrame picture)) cam1_stream (run_init 0)).2
    = 1%nat ∧
  running (run_round (round_with 1 (ReadFrame picture)) cam1_stream (run_init 0)).1.1 = true.
Proof.
  destruct (C6_callback_isolation (round_with 1 (ReadFrame picture)) cam1_stream
              (run_init 0) picture eq_refl eq_refl eq_refl)
    as (Hcalls & _ & Herr & Hrun & _).
  split; [exact Hcalls|]. split; [exact Herr|exact Hrun].
Defined.

(** C8. A second [stop()] on a camera stream does nothing at all (no
    effect, same stream); a second [stop()] on a realtime session leaves
    the session as the first left it and releases and joins nothing; a
    second [remove_camera] with the same id returns False, only logs a
    warning and leaves the registry as the first call left it. *)
Theorem C8_second_stop_and_remove_are_noops :
  (∀ s, stop (stop s).1 = ((stop s).1, [])) ∧
  (∀ rs, (Realtime.stop (Realtime.stop rs).1).1 = (Realtime.stop rs).1 ∧
         RealtimeInv.releases (Realtime.stop (Realtime.stop rs).1).2 = 0%nat ∧
         Realtime.Join ∉ (Realtime.stop (Realtime.stop rs).1).2) ∧
  (∀ camera_id m,
     remove_camera camera_id (remove_camera camera_id m).1.1.1 =
       ((remove_camera camera_id m).1.1.1, false,
        [Log (logger_warning "remove_camera: no such camera" camera_id)], None) ∧
     (cameras m !! camera_id = None → (remove_camera camera_id m).1.1.1 = m) ∧
     (∀ other, other ≠ camera_id →
        cameras (remove_camera camera_id m).1.1.1 !! other = cameras m !! other)).
Proof.
  split; [|split].
  - intros s. apply stop_idle, stop_not_running.
  - intros rs. unfold Realtime.stop, Realtime.camera_stop. simpl.
    split; [done|]. split; [done|].
    intros Hin. repeat (apply elem_of_cons in Hin as [Hin|Hin]; [discriminate|]).
    by apply elem_of_nil in Hin.
  - intros camera_id m.
    assert (cameras (remove_camera camera_id m).1.1.1 !! camera_id = None ∧
            (cameras m !! camera_id = None → (remove_camera camera_id m).1.1.1 = m) ∧
            ∀ other, other ≠ camera_id →
              cameras (remove_camera camera_id m).1.1.1 !! other = cameras m !! other)
      as (Hgone & Hsame & Hother).
    { unfold remove_camera. destruct (cameras m !! camera_id) as [camera|] eqn:Hc.
      - destruct (callbacks camera); simpl; destruct (cap camera); simpl;
          (split; [apply lookup_delete_eq|]); (split; [done|]);
          intros other Hne; by apply lookup_delete_ne.
      - simpl. done. }
    split; [|done]. unfold remove_camera at 1. by rewrite Hgone.
Qed.

Lemma C8_witness :
  (stop cam1_stream).2 ≠ [] ∧ releases (stop cam1_stream).2 = 1%nat ∧
  stop (stop cam1_stream).1 = ((stop cam1_stream).1, []) ∧
  (remove_camera "cam1" registry1).1.1.2 = true ∧
  (remove_camera "cam1" (remove_camera "cam1" registry1).1.1.1).1.1.2 = false.
Proof.
  destruct C8_second_stop_and_remove_are_noops as (Hstop & _ & Hremove).
  split; [discriminate|]. split; [reflexivity|]. split; [exact (Hstop cam1_stream)|].
  split; [reflexivity|].
  destruct (Hremove "cam1" registry1) as [Hsecond _]. by rewrite Hsecond.
Defined.

End CameraClaims.

(** * The claims about the realtime session *)

Section RealtimeClaims.
Import Realtime RealtimeInv.



End RealtimeClaims.

(** * Further properties of the recorder and the event manager *)

Section RecorderExtras.
Import Recording RecordingInv.

Lemma trim_negative maxf buf : maxf < 0 → trim maxf buf = ([], Some IndexError).
Proof.
  intros Hneg. induction buf as [|fd rest IH]; cbn [trim].
  - destruct (Z.gtb_spec 0 maxf); [done|lia].
  - destruct (Z.gtb_spec (len (fd :: rest)) maxf) as [_|Hle]; [done|].
    unfold len in Hle. lia.
Qed.

(** [add_frame] never changes the recording flag of a camera that already
    has a buffer, and changes neither the buffer nor the flag of any
    camera other than the frame's own; the capacity and the thread table
    stay as they are. *)
Theorem add_frame_touches_one_camera now frame md r c :
  (is_Some (frame_buffer r !! c) →
     recording (add_frame now frame md r).1 !! c = recording r !! c) ∧
  (c ≠ camera_of_metadata md →
     frame_buffer (add_frame now frame md r).1 !! c = frame_buffer r !! c ∧
     recording (add_frame now frame md r).1 !! c = recording r !! c) ∧
  max_buffer_frames (add_frame now frame md r).1 = max_buffer_frames r ∧
  recording_threads (add_frame now frame md r).1 = recording_threads r.
Proof.
  split; [apply add_frame_recording_kept|].
  unfold add_frame. destruct frame as [f|]; [|done].
  destruct (frame_size f =? 0); [done|].
  destruct (frame_buffer r !! camera_of_metadata md) eqn:Hbuf;
    destruct (trim _ _) as [buf exn]; simpl.
  - split; [|done]. intros Hne. by rewrite lookup_insert_ne.
  - split; [|done]. intros Hne. by rewrite !lookup_insert_ne.
Qed.

(** With a negative capacity every [add_frame] of a non-empty frame
    raises [IndexError] (the trimming loop pops the emptied list) and
    leaves the camera's buffer empty. *)
Theorem add_frame_negative_capacity_raises now f md r :
  max_buffer_frames r < 0 → frame_size f ≠ 0 →
  (add_frame now (Some f) md r).2 = Some IndexError ∧
  frame_buffer (add_frame now (Some f) md r).1 !! camera_of_metadata md = Some [].
Proof.
  intros Hneg Hsz. apply Z.eqb_neq in Hsz. unfold add_frame. rewrite Hsz.
  destruct (frame_buffer r !! camera_of_metadata md) eqn:Hbuf;
    cbn [set_frame_buffer set_recording frame_buffer max_buffer_frames];
    rewrite trim_negative by done; simpl; by rewrite lookup_insert_eq.
Qed.

Lemma add_frame_negative_capacity_raises_witness :
  max_buffer_frames negative_recorder = -20 ∧
  (add_frame 100 (Some frame1) (md_cam1 100) negative_recorder).2 = Some IndexError.
Proof.
  split; [reflexivity|].
  refine (proj1 (add_frame_negative_capacity_raises 100 frame1 (md_cam1 100)
                   negative_recorder _ _)).
  - vm_compute. reflexivity.
  - discriminate.
Defined.

(** A trigger on a camera that is not recording and has a frame in its
    buffer starts exactly one thread for that camera and event, raises
    the camera's flag, records the thread in [recording_threads], and
    leaves the buffers, the capacity and every other camera's flag
    untouched. *)
Theorem start_recording_starts_one_job event r fd rest :
  recording r !! camera_of_event event ≠ Some true →
  frame_buffer r !! camera_of_event event = Some (fd :: rest) →
  let cam := camera_of_event event in
  let th := {| th_camera := cam; th_event := event |} in
  (start_recording event r).1.2 = Some th ∧
  is_recording cam (start_recording event r).1.1 = true ∧
  recording_threads (start_recording event r).1.1 !! cam = Some th ∧
  frame_buffer (start_recording event r).1.1 = frame_buffer r ∧
  max_buffer_frames (start_recording event r).1.1 = max_buffer_frames r ∧
  ∀ c, c ≠ cam →
    recording (start_recording event r).1.1 !! c = recording r !! c ∧
    recording_threads (start_recording event r).1.1 !! c = recording_threads r !! c.
Proof.
  intros Hfree Hbuf cam th. subst cam th. unfold start_recording.
  rewrite bool_decide_eq_false_2 by done. rewrite Hbuf. simpl.
  unfold is_recording. simpl. rewrite !lookup_insert_eq. repeat split; try done.
  - by rewrite lookup_insert_ne.
  - by rewrite lookup_insert_ne.
Qed.

Lemma start_recording_starts_one_job_witness :
  (start_recording (person_event 100) (sys_recorder sys1)).1.2 =
    Some {| th_camera := "cam1"; th_event := person_event 100 |} ∧
  is_recording "cam1" (start_recording (person_event 100) (sys_recorder sys1)).1.1 = true.
Proof.
  assert (recording (sys_recorder sys1) !! camera_of_event (person_event 100) ≠ Some true)
    as Hfree by (vm_compute; discriminate).
  assert (frame_buffer (sys_recorder sys1) !! camera_of_event (person_event 100) =
          Some ({| fd_frame := frame1; fd_timestamp := 100 |} :: [])) as Hbuf
    by (vm_compute; reflexivity).
  destruct (start_recording_starts_one_job (person_event 100) (sys_recorder sys1) _ _
              Hfree Hbuf) as (H1 & H2 & _).
  exact (conj H1 H2).
Defined.





(** A job in which some stage raises never writes the metadata file;
    when the exception comes while frames are written or at the release
    itself, the video writer has been opened and is never released (the
    handler only logs); when it comes before the writer is opened,
    nothing is written at all. *)
Theorem record_event_fault_effects camera_name event env now r fd rest st :
  frame_buffer r !! camera_name = Some (fd :: rest) →
  job_fault env = Some st →
  let name := clip_name now camera_name event in
  let acts := (_record_event camera_name event env now r).1.2 in
  (WriteMetadata name event ∉ acts) ∧
  (st ∈ [WriteBuffered; PostCapture; Release] →
     OpenVideo name ∈ acts ∧ ReleaseVideo ∉ acts) ∧
  (st ∈ [Naming; OpenWriter] → acts = []) ∧
  (st ∈ [Thumbnail; Metadata_] → ReleaseVideo ∈ acts).
Proof.
  intros Hbuf Hfault name acts. subst acts.
  unfold _record_event, record_event_body. rewrite Hfault, Hbuf. fold name.
  destruct st; cbn [run_stages];
    repeat (first [rewrite bool_decide_eq_true_2 by done
                  |rewrite bool_decide_eq_false_2 by done]);
    cbn [fst snd app stage_actions];
    try match goal with |- context [last (job_new_frames env)] =>
      destruct (last (job_new_frames env)); [|destruct (last (fd :: rest))] end;
    clearbody name; set_unfold; naive_solver.
Qed.

Lemma record_event_fault_effects_witness :
  OpenVideo (clip_name 100 "cam1" (person_event 100)) ∈
    (_record_event "cam1" (person_event 100) env_write_fails 100 (sys_recorder sys2)).1.2 ∧
  ReleaseVideo ∉
    (_record_event "cam1" (person_event 100) env_write_fails 100 (sys_recorder sys2)).1.2.
Proof.
  assert (frame_buffer (sys_recorder sys2) !! "cam1" =
          Some ({| fd_frame := frame1; fd_timestamp := 100 |} :: [])) as Hbuf
    by (vm_compute; reflexivity).
  destruct (record_event_fault_effects "cam1" (person_event 100) env_write_fails 100
              (sys_recorder sys2) _ _ WriteBuffered Hbuf eq_refl) as (_ & Hopen & _).
  apply Hopen. left.
Defined.

Lemma step_keeps_capacity s s' :
  step s s' → max_buffer_frames (sys_recorder s') = max_buffer_frames (sys_recorder s).
Proof.
  intros [s0 now frame md|s0 event|s0 th env now before after _]; simpl.
  - apply add_frame_touches_one_camera. exact "".
  - unfold start_recording. case_bool_decide; [done|].
    by destruct (frame_buffer (sys_recorder s0) !! camera_of_event event) as [[|fd rest]|].
  - by rewrite record_event_recorder.
Qed.

Lemma flag_inv_step s s' : job_inv s → flag_inv s → step s s' → flag_inv s'.
Proof.
  intros [Hnd Hact] Hflag Hstep.
  destruct Hstep as [s now frame md|s event|s th env now before after Hsplit];
    intros c Hc; simpl in *.
  - apply Hflag. destruct (frame_buffer (sys_recorder s) !! c) eqn:Hbuf.
    + by rewrite add_frame_recording_kept in Hc.
    + destruct (decide (c = camera_of_metadata md)) as [->|Hne].
      * revert Hc. unfold add_frame. destruct frame as [f|]; [|done].
        destruct (frame_size f =? 0); [done|]. rewrite Hbuf.
        destruct (trim _ _). simpl. by rewrite lookup_insert_eq.
      * destruct (add_frame_touches_one_camera now frame md (sys_recorder s) c)
          as (_ & Hother & _). destruct (Hother Hne) as [_ Hrec]. by rewrite Hrec in Hc.
  - destruct ((start_recording event (sys_recorder s)).1.2) as [th|] eqn:Hsp.
    + destruct (start_recording_spawn _ _ _ Hsp) as (Hcam & _ & _ & Hrec & _).
      rewrite Hrec in Hc. rewrite fmap_app, elem_of_app. simpl.
      destruct (decide (c = camera_of_event event)) as [->|Hne].
      * right. rewrite Hcam. by left.
      * left. apply Hflag. by rewrite lookup_insert_ne in Hc.
    + rewrite (start_recording_no_spawn _ _ Hsp) in Hc. simpl. rewrite app_nil_r.
      by apply Hflag.
  - rewrite record_event_recorder in Hc. simpl in Hc.
    destruct (decide (c = th_camera th)) as [->|Hne];
      [by rewrite lookup_insert_eq in Hc|].
    rewrite lookup_insert_ne in Hc by done. specialize (Hflag c Hc).
    rewrite Hsplit, fmap_app, elem_of_app in Hflag. simpl in Hflag.
    rewrite fmap_app, elem_of_app. destruct Hflag as [H|H]; [by left|].
    apply elem_of_cons in H as [H|H]; [done|by right].
Qed.

Lemma flag_inv_reachable s : reachable s → flag_inv s.
Proof.
  induction 1 as [out pre post f cd|s s' Hreach IH Hstep].
  - intros c. simpl. by rewrite lookup_empty.
  - eapply flag_inv_step; [|done..]. by apply job_inv_reachable.
Qed.

(** In every reachable state [is_recording(camera)] is true exactly while
    a job for that camera runs. *)
Theorem is_recording_iff_job_running s c :
  reachable s →
  is_recording c (sys_recorder s) = true ↔ active_jobs c s ≠ [].
Proof.
  intros Hreach. unfold is_recording, active_jobs.
  destruct (job_inv_reachable s Hreach) as [_ Hact].
  pose proof (flag_inv_reachable s Hreach c) as Hflag. split.
  - intros Hrec.
    assert (recording (sys_recorder s) !! c = Some true) as Hc.
    { destruct (recording (sys_recorder s) !! c) as [[]|]; done. }
    apply Hflag, list_elem_of_fmap in Hc as (th & -> & Hth).
    intros Hnil. assert (th ∈ filter (λ t, th_camera t = th_camera th) (sys_active s)) as Hin
      by (by apply list_elem_of_filter).
    rewrite Hnil in Hin. by apply elem_of_nil in Hin.
  - intros Hne. destruct (filter _ _) as [|th l] eqn:Hf; [done|].
    assert (th ∈ filter (λ t, th_camera t = c) (sys_active s)) as Hin
      by (rewrite Hf; by left).
    apply list_elem_of_filter in Hin as [<- Hth].
    destruct (Hact th Hth) as [-> _]. done.
Qed.

Lemma is_recording_iff_job_running_witness :
  is_recording "cam1" (sys_recorder sys2) = true ↔ active_jobs "cam1" sys2 ≠ [].
Proof.
  apply is_recording_iff_job_running.
  eapply reachable_step; [eapply reachable_step; [apply reachable_init|]|].
  - apply (step_add_frame sys0 100 (Some frame1) (md_cam1 100)).
  - apply (step_start_recording sys1 (person_event 100)).
Defined.

Lemma add_frame_frame_buffer now frame md r c :
  0 ≤ max_buffer_frames r →
  frame_buffer (add_frame now frame md r).1 !! c = frame_buffer r !! c ∨
  ∃ fd, frame_buffer (add_frame now frame md r).1 !! c =
          Some (keep_last (Z.to_nat (max_buffer_frames r)) (buffer_or_new c r ++ [fd])).
Proof.
  intros Hcap. unfold add_frame. destruct frame as [f|]; [|by left].
  destruct (frame_size f =? 0); [by left|].
  destruct (decide (c = camera_of_metadata md)) as [->|Hne].
  - right. eexists. unfold buffer_or_new.
    destruct (frame_buffer r !! camera_of_metadata md) eqn:Hbuf;
      cbn [set_frame_buffer set_recording frame_buffer max_buffer_frames];
      rewrite ?Hbuf, ?lookup_insert_eq; cbn [default];
      rewrite trim_keep_last by done; simpl; by rewrite lookup_insert_eq.
  - left. destruct (frame_buffer r !! camera_of_metadata md);
      destruct (trim _ _); simpl; by rewrite !lookup_insert_ne.
Qed.

Lemma step_frame_buffer s s' c :
  0 ≤ max_buffer_frames (sys_recorder s) → step s s' →
  frame_buffer (sys_recorder s') !! c = frame_buffer (sys_recorder s) !! c ∨
  ∃ fd, frame_buffer (sys_recorder s') !! c =
          Some (keep_last (Z.to_nat (max_buffer_frames (sys_recorder s)))
                  (buffer_or_new c (sys_recorder s) ++ [fd])).
Proof.
  intros Hcap Hstep.
  destruct Hstep as [s0 now frame md|s0 event|s0 th env now before after _]; simpl.
  - apply add_frame_frame_buffer. exact Hcap.
  - left. destruct ((start_recording event (sys_recorder s0)).1.2) as [th|] eqn:Hsp.
    + destruct (start_recording_spawn _ _ _ Hsp) as (_ & _ & _ & _ & ->). done.
    + by rewrite (start_recording_no_spawn _ _ Hsp).
  - left. by rewrite record_event_recorder.
Qed.

(** With a capacity of at least one frame, a buffer that exists is never
    empty: once a camera has delivered a frame, a trigger on it is never
    refused for lack of frames, and starts a job whenever the camera is
    not already recording. *)
Theorem known_camera_always_has_frames s :
  reachable s → 1 ≤ max_buffer_frames (sys_recorder s) →
  buffers_nonempty (sys_recorder s) ∧
  ∀ event,
    is_Some (frame_buffer (sys_recorder s) !! camera_of_event event) →
    recording (sys_recorder s) !! camera_of_event event ≠ Some true →
    (start_recording event (sys_recorder s)).1.2 =
      Some {| th_camera := camera_of_event event; th_event := event |}.
Proof.
  intros Hreach Hcap.
  assert (buffers_nonempty (sys_recorder s)) as Hne.
  { induction Hreach as [out pre post f cd|s s' Hreach IH Hstep].
    - intros c buf. simpl. by rewrite lookup_empty.
    - rewrite (step_keeps_capacity s s' Hstep) in Hcap. intros c buf Hc.
      destruct (step_frame_buffer s s' c ltac:(lia) Hstep) as [Hsame|[fd Hnew]].
      + rewrite Hsame in Hc. by eapply IH.
      + rewrite Hnew in Hc. injection Hc as <-. intros Hnil.
        apply (f_equal length) in Hnil. rewrite keep_last_length, length_app in Hnil.
        simpl in Hnil. lia. }
  split; [done|]. intros event [buf Hbuf] Hfree.
  destruct buf as [|fd rest]; [by apply Hne in Hbuf|].
  by destruct (start_recording_starts_one_job event (sys_recorder s) fd rest Hfree Hbuf).
Qed.

Lemma known_camera_always_has_frames_witness :
  (start_recording (person_event 100) (sys_recorder sys1)).1.2 =
    Some {| th_camera := "cam1"; th_event := person_event 100 |}.
Proof.
  assert (reachable sys1) as Hreach.
  { eapply reachable_step; [apply reachable_init|].
    apply (step_add_frame sys0 100 (Some frame1) (md_cam1 100)). }
  assert (1 ≤ max_buffer_frames (sys_recorder sys1)) as Hcap by (vm_compute; discriminate).
  destruct (known_camera_always_has_frames sys1 Hreach Hcap) as [_ Hstart].
  apply (Hstart (person_event 100)).
  - eexists. vm_compute. reflexivity.
  - vm_compute. discriminate.
Defined.

(** With a capacity of zero frames ([pre_event_seconds * fps] below 1)
    every buffer stays empty, so no trigger ever starts a recording. *)
Theorem zero_capacity_never_records s :
  reachable s → max_buffer_frames (sys_recorder s) = 0 →
  buffers_empty (sys_recorder s) ∧ sys_active s = [] ∧
  ∀ event, (start_recording event (sys_recorder s)).1.2 = None.
Proof.
  intros Hreach Hcap.
  assert (buffers_empty (sys_recorder s) ∧ sys_active s = []) as [Hempty Hidle].
  { induction Hreach as [out pre post f cd|s s' Hreach IH Hstep].
    - split; [|done]. intros c buf. simpl. by rewrite lookup_empty.
    - pose proof (step_keeps_capacity s s' Hstep) as Hkeep. rewrite Hcap in Hkeep.
      destruct (IH (eq_sym Hkeep)) as [IHe IHa]. split.
      + intros c buf Hc.
        destruct (step_frame_buffer s s' c ltac:(lia) Hstep) as [Hsame|[fd Hnew]].
        * rewrite Hsame in Hc. by eapply IHe.
        * rewrite Hnew, <- Hkeep in Hc. injection Hc as <-.
          apply length_zero_iff_nil. rewrite keep_last_length. simpl. lia.
      + destruct Hstep as [s0 now frame md|s0 event|s0 th env now before after Hsplit];
          simpl in *; [done| |].
        * rewrite IHa. simpl. unfold start_recording. case_bool_decide; [done|].
          destruct (frame_buffer (sys_recorder s0) !! camera_of_event event)
            as [[|fd rest]|] eqn:Hbuf; try done.
          by apply IHe in Hbuf.
        * rewrite IHa in Hsplit. by destruct before. }
  split; [done|]. split; [done|]. intros event.
  unfold start_recording. case_bool_decide; [done|].
  destruct (frame_buffer (sys_recorder s) !! camera_of_event event)
    as [[|fd rest]|] eqn:Hbuf; try done.
  by apply Hempty in Hbuf.
Qed.

Lemma zero_capacity_never_records_witness :
  max_buffer_frames (sys_recorder zero_recorder_system) = 0 ∧
  frame_buffer (sys_recorder zero_recorder_system) !! "cam1" = Some [] ∧
  (start_recording (person_event 100) (sys_recorder zero_recorder_system)).1.2 = None.
Proof.
  assert (reachable zero_recorder_system) as Hreach.
  { eapply reachable_step; [apply (reachable_init "./events" (4 # 100) 5 20 "mp4v")|].
    apply (step_add_frame
             {| sys_recorder := init "./events" (4 # 100) 5 20 "mp4v"; sys_active := [] |}
             100 (Some frame1) (md_cam1 100)). }
  assert (max_buffer_frames (sys_recorder zero_recorder_system) = 0) as Hcap
    by (vm_compute; reflexivity).
  destruct (zero_capacity_never_records zero_recorder_system Hreach Hcap)
    as (_ & _ & Hnone).
  split; [exact Hcap|]. split; [vm_compute; reflexivity|]. apply Hnone.
Defined.



Lemma read_events_spec limit cam ety files :
  ∀ events, len events < limit →
  read_events limit cam ety files events =
    events ++ take (Z.to_nat limit - length events)
                (filter (λ e, accepts cam ety e = true) (readable files)).
Proof.
  unfold len, readable. induction files as [|[e|] files IH]; intros events Hlen.
  - cbn [read_events omap list_omap]. by rewrite filter_nil, take_nil, app_nil_r.
  - cbn [read_events omap list_omap id].
    destruct (filter_rejects cam (se_camera_name e)) eqn:Hc.
    { rewrite filter_cons_False by (unfold accepts; rewrite Hc; simpl; discriminate).
      by apply IH. }
    destruct (filter_rejects ety (se_event_type e)) eqn:Ht.
    { rewrite filter_cons_False by (unfold accepts; rewrite Hc, Ht; simpl; discriminate).
      by apply IH. }
    rewrite filter_cons_True by (unfold accepts; rewrite Hc, Ht; done).
    replace (Z.to_nat limit - length events)%nat
      with (S (Z.to_nat limit - length (events ++ [e]))) by (rewrite length_app; simpl; lia).
    cbn [take]. unfold len.
    destruct (Z.geb_spec (Z.of_nat (length (events ++ [e]))) limit) as [Hge|Hlt].
    + replace (Z.to_nat limit - length (events ++ [e]))%nat with 0%nat by lia.
      by rewrite take_0.
    + rewrite IH by lia. by rewrite <- app_assoc.
  - cbn [read_events omap list_omap]. by apply IH.
Qed.

(** [_get_events_from_files] with a non-negative limit returns the first
    [limit] events that pass the filters among the readable files of the
    [2 * limit] most recent ones, in file order; files beyond those are
    never looked at. *)
Theorem get_events_from_files_returns_first_matches limit cam ety files :
  0 ≤ limit →
  let found := _get_events_from_files limit cam ety files in
  found = take (Z.to_nat limit)
            (filter (λ e, accepts cam ety e = true)
               (readable (take (Z.to_nat (limit * 2)) files))) ∧
  len found ≤ limit ∧
  ∀ e, e ∈ found →
    accepts cam ety e = true ∧ Some e ∈ take (Z.to_nat (limit * 2)) files.
Proof.
  intros Hlimit found.
  assert (found = take (Z.to_nat limit)
            (filter (λ e, accepts cam ety e = true)
               (readable (take (Z.to_nat (limit * 2)) files)))) as Hfound.
  { subst found. unfold _get_events_from_files, slice_to.
    destruct (Z.leb_spec 0 (limit * 2)); [|lia].
    destruct (decide (limit = 0)) as [->|Hpos]; [done|].
    rewrite read_events_spec by (unfold len; simpl; lia).
    simpl. by rewrite Nat.sub_0_r. }
  split; [done|]. rewrite Hfound. split.
  - unfold len. rewrite length_take. lia.
  - intros e He. apply elem_of_take in He as (i & He & _).
    apply list_elem_of_lookup_2, list_elem_of_filter in He as [Hacc Hin].
    split; [done|]. unfold readable in Hin.
    apply list_elem_of_omap in Hin as (x & Hx & Hid). unfold id in Hid. by subst x.
Qed.

Lemma get_events_from_files_returns_first_matches_witness :
  _get_events_from_files 1 (Some "cam1") None
    [None; Some (stored "cam2" "person" 9); Some (stored "cam1" "car" 8);
     Some (stored "cam1" "person" 7)] = [] ∧
  _get_events_from_files 2 (Some "cam1") None
    [None; Some (stored "cam2" "person" 9); Some (stored "cam1" "car" 8);
     Some (stored "cam1" "person" 7)] = [stored "cam1" "car" 8; stored "cam1" "person" 7].
Proof.
  split.
  - rewrite (proj1 (get_events_from_files_returns_first_matches 1 (Some "cam1") None _
                      ltac:(lia))). reflexivity.
  - rewrite (proj1 (get_events_from_files_returns_first_matches 2 (Some "cam1") None _
                      ltac:(lia))). reflexivity.
Defined.

End RecorderExtras.

(** * Further properties of detection *)

Section DetectorExtras.
Import Detection DetectionInv.

Lemma clamp01_unit x : unit_interval (clamp01 x).
Proof.
  unfold unit_interval, clamp01, py_max, py_min.
  destruct (Qlt_le_dec x 1); destruct (Qlt_le_dec 0 _); split; lra.
Qed.

Lemma detection_of_box_normalised d f classes b det :
  0 ≤ width f → 0 ≤ height f →
  detection_of_box d f classes b = Some det →
  normalised det ∧ frame_width det = width f ∧ frame_height det = height f ∧
  confidence det = box_conf b.
Proof.
  intros Hw Hh. unfold detection_of_box.
  destruct (match classes with Some (c :: cs) => _ | _ => false end); [done|].
  intros [= <-]. simpl. split; [|done].
  do 4 eexists. simpl. split; [done|]. repeat split; try apply clamp01_unit; done.
Qed.

(** Every detection [detect] returns carries a box of four coordinates,
    each between 0 and 1, the size of the frame it was found in, and the
    confidence the model reported for one of its boxes. *)
Theorem detect_returns_normalised_boxes d f classes conf det :
  0 ≤ width f → 0 ≤ height f →
  det ∈ (detect d (Some f) classes conf).1 →
  normalised det ∧ frame_width det = width f ∧ frame_height det = height f ∧
  ∃ m boxes b, model d = Some m ∧ m f (default (conf_threshold d) conf) = Some boxes ∧
               b ∈ boxes ∧ confidence det = box_conf b.
Proof.
  intros Hw Hh. unfold detect.
  destruct (model d) as [m|]; [|intros Hin; by apply elem_of_nil in Hin].
  destruct (size f =? 0); [intros Hin; by apply elem_of_nil in Hin|].
  destruct (m f (default (conf_threshold d) conf)) as [boxes|] eqn:Hm;
    [|intros Hin; by apply elem_of_nil in Hin].
  simpl. intros Hin. apply list_elem_of_omap in Hin as (b & Hb & Hdet).
  destruct (detection_of_box_normalised d f classes b det Hw Hh Hdet)
    as (Hn & Hfw & Hfh & Hc).
  repeat split; try done. by exists m, boxes, b.
Qed.

Lemma detect_returns_normalised_boxes_witness :
  ∃ det, (detect coco_detector (Some frame720) None None).1 = [det] ∧
         class_name det = "person" ∧ normalised det.
Proof.
  eexists. split; [reflexivity|]. split; [reflexivity|].
  refine (proj1 (detect_returns_normalised_boxes coco_detector frame720 None None _
                   _ _ _)).
  - vm_compute. discriminate.
  - vm_compute. discriminate.
  - left.
Defined.

Lemma detection_of_box_filter d f b c cs :
  detection_of_box d f (Some (c :: cs)) b =
  match detection_of_box d f None b with
  | Some det => if decide (class_name det ∈ c :: cs) then Some det else None
  | None => None
  end.
Proof.
  unfold detection_of_box. cbn [negb].
  set (cname := default _ _).
  case_bool_decide as Hin; simpl; case_decide; done.
Qed.

(** A non-empty [classes] argument keeps exactly the detections whose
    class name is listed, in the order [detect] finds them; an empty list
    filters nothing, like [None]. *)
Theorem detect_class_filter d frame conf c cs :
  (detect d frame (Some (c :: cs)) conf).1 =
    filter (λ det, class_name det ∈ c :: cs) (detect d frame None conf).1 ∧
  (detect d frame (Some (c :: cs)) conf).2 = (detect d frame None conf).2 ∧
  detect d frame (Some []) conf = detect d frame None conf.
Proof.
  split; [|split]; [| |done]; unfold detect;
    destruct frame as [f|]; try done; destruct (model d) as [m|]; try done;
    destruct (size f =? 0); try done;
    destruct (m f (default (conf_threshold d) conf)) as [boxes|]; try done.
  simpl. induction boxes as [|b boxes IH]; [done|].
  cbn [omap list_omap]. rewrite detection_of_box_filter.
  destruct (detection_of_box d f None b) as [det|]; [|done].
  case_decide.
  - rewrite filter_cons_True by done. by rewrite IH.
  - rewrite filter_cons_False by done. done.
Qed.

Lemma py_int_nonneg q : (0 <= q)%Q → 0 ≤ py_int q.
Proof.
  intros Hq. unfold py_int. apply Z.quot_pos; [|done].
  unfold Qle in Hq. simpl in Hq. lia.
Qed.

Lemma py_int_nonpos q : (q <= 0)%Q → py_int q ≤ 0.
Proof.
  intros Hq. unfold py_int. apply Z.quot_le_upper_bound; [done|].
  unfold Qle in Hq. simpl in Hq. lia.
Qed.

Lemma py_int_le_self q : (0 <= q)%Q → (inject_Z (py_int q) <= q)%Q.
Proof.
  intros Hq. unfold py_int, Qle in *. simpl in *.
  pose proof (Z.mul_quot_le (Qnum q) (Z.pos (Qden q))) as H. lia.
Qed.

Lemma py_int_le q n : (q <= inject_Z n)%Q → py_int q ≤ n.
Proof.
  intros Hq. unfold py_int. apply Z.quot_le_upper_bound; [done|].
  unfold Qle in Hq. simpl in Hq. lia.
Qed.

Lemma scaled_unit b n :
  unit_interval b → 0 ≤ n →
  (0 <= b * inject_Z n)%Q ∧ (b * inject_Z n <= inject_Z n)%Q.
Proof.
  intros [H0 H1] Hn. rewrite Zle_Qle in Hn. split.
  - by apply Qmult_le_0_compat.
  - rewrite <- (Qmult_1_l (inject_Z n)) at 2. by apply Qmult_le_compat_r.
Qed.

(** One axis of [bbox_pixels] and [center]: the corner, the extent and
    the centre all stay between 0 and the frame size. *)
Lemma axis_within bc bw n :
  unit_interval bc → unit_interval bw → 0 ≤ n →
  let corner := Z.max 0 (py_int (bc * inject_Z n - bw * inject_Z n / 2)) in
  let extent := py_int (bw * inject_Z n) in
  0 ≤ corner ≤ n ∧ 0 ≤ extent ≤ n ∧ 0 ≤ corner + extent / 2 ≤ n.
Proof.
  intros Hc Hw Hn corner extent.
  destruct (scaled_unit bc n Hc Hn) as [Hc0 Hc1].
  destruct (scaled_unit bw n Hw Hn) as [Hw0 Hw1].
  set (C := (bc * inject_Z n)%Q) in *. set (W := (bw * inject_Z n)%Q) in *.
  change (W / 2)%Q with (W * (1 # 2))%Q in *.
  assert (0 ≤ extent ≤ n) as Hext.
  { split; [by apply py_int_nonneg|by apply py_int_le]. }
  assert (py_int (C - W * (1 # 2)) ≤ n) as Hup by (apply py_int_le; lra).
  assert (0 ≤ extent / 2 ≤ extent) as Hhalf.
  { split; [apply Z.div_pos; lia|apply Z.div_le_upper_bound; lia]. }
  split; [lia|]. split; [done|]. split; [lia|].
  destruct (Z.max_spec 0 (py_int (C - W * (1 # 2)))) as [[Hpos Hmax]|[Hneg Hmax]];
    subst corner; rewrite Hmax; [|lia].
  assert ((0 <= C - W * (1 # 2))%Q) as Hq.
  { destruct (Qlt_le_dec (C - W * (1 # 2)) 0) as [Hlt|Hle]; [|done].
    pose proof (py_int_nonpos (C - W * (1 # 2)) ltac:(lra)). lia. }
  pose proof (py_int_le_self (C - W * (1 # 2)) Hq) as Hx.
  pose proof (py_int_le_self W Hw0) as Hwq. fold extent in Hwq.
  assert ((inject_Z (extent / 2) * 2 <= inject_Z extent)%Q) as Hdiv.
  { change 2%Q with (inject_Z 2). rewrite <- inject_Z_mult, <- Zle_Qle.
    pose proof (Z.mul_div_le extent 2). lia. }
  rewrite Zle_Qle, inject_Z_plus. lra.
Qed.

(** For a detection with a normalised box, [bbox_pixels] returns a box
    whose corner and extent are between 0 and the frame size on each
    axis, and [center] returns a point inside the frame. *)
Theorem bbox_pixels_within_frame d :
  normalised d →
  ∃ x y w h, bbox_pixels d = Some (x, y, w, h) ∧
    center d = Some (x + w / 2, y + h / 2) ∧
    0 ≤ x ≤ frame_width d ∧ 0 ≤ y ≤ frame_height d ∧
    0 ≤ w ≤ frame_width d ∧ 0 ≤ h ≤ frame_height d ∧
    0 ≤ x + w / 2 ≤ frame_width d ∧ 0 ≤ y + h / 2 ≤ frame_height d.
Proof.
  intros (b0 & b1 & b2 & b3 & Hb & H0 & H1 & H2 & H3 & Hw & Hh).
  unfold center, bbox_pixels. rewrite Hb.
  destruct (axis_within b0 b2 (frame_width d) H0 H2 Hw) as (Hx & Hwd & Hcx).
  destruct (axis_within b1 b3 (frame_height d) H1 H3 Hh) as (Hy & Hht & Hcy).
  do 4 eexists. split; [done|]. split; [done|]. done.
Qed.

Lemma bbox_pixels_within_frame_witness :
  bbox_pixels (person (9 # 10)) = Some (480, 270, 320, 180) ∧
  center (person (9 # 10)) = Some (640, 360).
Proof.
  assert (normalised (person (9 # 10))) as Hn.
  { exists (1 # 2)%Q, (1 # 2)%Q, (1 # 4)%Q, (1 # 4)%Q.
    split; [reflexivity|]. repeat split; vm_compute; discriminate. }
  destruct (bbox_pixels_within_frame (person (9 # 10)) Hn)
    as (x & y & w & h & Hbox & Hcenter & _).
  rewrite Hcenter, Hbox. assert (bbox_pixels (person (9 # 10)) = Some (480, 270, 320, 180))
    as Heq by reflexivity.
  rewrite Heq in Hbox. injection Hbox as <- <- <- <-. done.
Defined.




Lemma check_events_event_origin now ed detections md e :
  e ∈ (_check_events now ed detections md).1 →
  timestamp e = default now (md_timestamp md) ∧
  camera_name e = default "unknown" (md_camera_name md) ∧
  ∃ d, d ∈ detections ∧ class_name d = type e ∧
       ev_confidence e = confidence d ∧ ev_bbox e = bbox d.
Proof.
  destruct (check_events_spec now ed detections md) as (-> & _ & _).
  destruct (detections_by_class_spec detections) as (_ & _ & Hmem).
  intros He. apply list_elem_of_omap in He as (g & Hg & Hdec).
  unfold decide_group in Hdec. destruct (Qlt_le_dec _ _); [done|].
  injection Hdec as <-. simpl. split; [done|]. split; [done|].
  destruct (max_by_confidence_spec g.2.1 g.2.2) as [Hbest _].
  fold (members g) in Hbest. rewrite (Hmem g Hg) in Hbest.
  apply list_elem_of_filter in Hbest as [Hc Hin].
  by exists (max_by_confidence g.2.1 g.2.2).
Qed.

Lemma check_events_types_distinct now ed detections md :
  NoDup (type <$> (_check_events now ed detections md).1).
Proof.
  destruct (check_events_spec now ed detections md) as (-> & _ & _).
  destruct (detections_by_class_spec detections) as (Hnd & _ & _).
  revert Hnd. unfold group_keys.
  generalize (detections_by_class detections). intros groups.
  induction groups as [|g groups IH]; [constructor|].
  rewrite fmap_cons. intros Hnd. apply NoDup_cons in Hnd as [Hnotin Hnd].
  cbn [omap list_omap].
  destruct (decide_group _ _ _ _ g) as [e|] eqn:Hdec; [|by apply IH].
  rewrite fmap_cons. apply NoDup_cons. split; [|by apply IH].
  apply decide_group_type in Hdec. rewrite Hdec. intros Hin. apply Hnotin.
  apply list_elem_of_fmap in Hin as (e' & He' & Hin).
  apply list_elem_of_omap in Hin as (g' & Hg' & Hdec').
  apply decide_group_type in Hdec'. rewrite He', Hdec'. by apply list_elem_of_fmap_2.
Qed.

Lemma foldl_check_class_any_key camera_name t iv groups k :
  ∀ last evs,
  (foldl (check_class camera_name t iv) (last, evs) groups).1 !! k = last !! k ∨
  ((foldl (check_class camera_name t iv) (last, evs) groups).1 !! k = Some t ∧
   ∃ c, c ∈ group_keys groups ∧ k = event_key camera_name c).
Proof.
  unfold group_keys. induction groups as [|[c0 [d0 ds]] rest IH]; intros last evs.
  - by left.
  - cbn [foldl check_class].
    destruct (Qlt_le_dec _ _).
    + destruct (IH last evs) as [H|(H & c & Hc & Hk)]; [by left|right].
      split; [done|]. exists c. split; [by right|done].
    + match goal with |- context [foldl _ (?l, ?e) rest] =>
        destruct (IH l e) as [H|(H & c & Hc & Hk)] end.
      * rewrite H. destruct (decide (k = event_key camera_name c0)) as [->|Hne].
        -- right. rewrite lookup_insert_eq. split; [done|]. exists c0. split; [by left|done].
        -- left. by rewrite lookup_insert_ne.
      * right. split; [done|]. exists c. split; [by right|done].
Qed.

(** Every event of a batch carries the batch's timestamp and camera and
    the confidence and box of a detection of its own class; no two
    events of a batch have the same type; and a stored last-event time
    changes only for keys of this camera and of classes present in the
    batch, and only to the batch's timestamp. *)
Theorem check_events_shape now ed detections md :
  let t := default now (md_timestamp md) in
  let cam := default "unknown" (md_camera_name md) in
  (∀ e, e ∈ (_check_events now ed detections md).1 →
     timestamp e = t ∧ camera_name e = cam ∧
     last_event_time (_check_events now ed detections md).2 !! event_key cam (type e)
       = Some t ∧
     ∃ d, d ∈ detections ∧ class_name d = type e ∧
          ev_confidence e = confidence d ∧ ev_bbox e = bbox d) ∧
  NoDup (type <$> (_check_events now ed detections md).1) ∧
  (∀ k, last_event_time (_check_events now ed detections md).2 !! k =
          last_event_time ed !! k ∨
        (last_event_time (_check_events now ed detections md).2 !! k = Some t ∧
         ∃ c, c ∈ class_name <$> detections ∧ k = event_key cam c)).
Proof.
  intros t cam. subst t cam. split; [|split].
  - intros e He.
    destruct (check_events_event_origin now ed detections md e He)
      as (Ht & Hcam & d & Hd & Hc & Hconf & Hbox).
    split; [done|]. split; [done|]. split; [|by exists d].
    assert (type e ∈ class_name <$> detections) as Hin
      by (rewrite <- Hc; by apply list_elem_of_fmap_2).
    destruct (check_events_spec now ed detections md) as (_ & _ & Hlast).
    rewrite (Hlast _ Hin).
    destruct (Qlt_le_dec _ _) as [Hlt|_]; [|done]. exfalso.
    pose proof (check_events_count now ed detections md (type e) Hin) as Hcount.
    destruct (Qlt_le_dec _ _) as [_|Hle]; [|lra].
    apply length_zero_iff_nil in Hcount.
    assert (e ∈ events_of_type (type e) (_check_events now ed detections md).1) as He'
      by (by apply list_elem_of_filter).
    rewrite Hcount in He'. by apply elem_of_nil in He'.
  - apply check_events_types_distinct.
  - intros k. destruct (detections_by_class_spec detections) as (_ & Hkeys & _).
    unfold _check_events.
    destruct (foldl_check_class_any_key (default "unknown" (md_camera_name md))
                (default now (md_timestamp md)) (min_event_interval ed)
                (detections_by_class detections) k (last_event_time ed) [])
      as [H|(H & c & Hc & Hk)];
      destruct (foldl _ _ _) as [last events]; simpl in *; [by left|right].
    split; [done|]. exists c. split; [by apply Hkeys|done].
Qed.

(** [process_frame] reports and raises events only for detections of a
    class of interest whose confidence reaches [min_confidence]. *)
Theorem process_frame_only_classes_of_interest now ed f md pr :
  (process_frame now ed (Some f) md).1.1 = Some pr →
  (∀ d, d ∈ pr_detections pr →
     class_name d ∈ classes_of_interest ed ∧ (min_confidence ed <= confidence d)%Q) ∧
  (∀ e, e ∈ pr_events pr →
     type e ∈ classes_of_interest ed ∧ (min_confidence ed <= ev_confidence e)%Q).
Proof.
  intros Hpr. destruct (process_frame_events now ed f md) as (pr' & Hpr' & Hdet & Hev & _).
  rewrite Hpr in Hpr'. injection Hpr' as <-.
  assert (∀ d, d ∈ pr_detections pr →
            class_name d ∈ classes_of_interest ed ∧ (min_confidence ed <= confidence d)%Q)
    as Hinterest.
  { intros d Hd. rewrite Hdet in Hd. apply list_elem_of_filter in Hd as [Hd _].
    unfold of_interest in Hd. apply andb_true_iff in Hd as [Hc Hq].
    split; [by apply bool_decide_eq_true in Hc|by apply Qle_bool_iff]. }
  split; [done|]. intros e He. rewrite Hev in He.
  destruct (check_events_event_origin now ed (pr_detections pr) md e He)
    as (_ & _ & d & Hd & Hc & Hconf & _).
  rewrite <- Hc, Hconf. by apply Hinterest.
Qed.

Lemma process_frame_only_classes_of_interest_witness :
  ∃ pr, (process_frame 100 (init coco_detector (1 # 2)) (Some frame720) (at_cam1 100)).1.1
          = Some pr ∧
        (type <$> pr_events pr) = ["person"] ∧
        ∀ e, e ∈ pr_events pr →
          type e ∈ classes_of_interest (init coco_detector (1 # 2)) ∧
          (min_confidence (init coco_detector (1 # 2)) <= ev_confidence e)%Q.
Proof.
  eexists. split; [reflexivity|]. split; [vm_compute; reflexivity|].
  exact (proj2 (process_frame_only_classes_of_interest 100 (init coco_detector (1 # 2))
                  frame720 (at_cam1 100) _ eq_refl)).
Defined.

(** With a missing model or an inference that raises, [process_frame]
    still returns a result: it has no detections and no events, and the
    stored last-event times are unchanged. *)
Theorem process_frame_without_detector now ed f md :
  model (detector ed) = None ∨
  (∃ m, model (detector ed) = Some m ∧ m f (conf_threshold (detector ed)) = None) →
  ∃ pr, (process_frame now ed (Some f) md).1.1 = Some pr ∧
    pr_detections pr = [] ∧ pr_events pr = [] ∧
    last_event_time (process_frame now ed (Some f) md).1.2 = last_event_time ed.
Proof.
  intros Hbroken.
  assert ((detect (detector ed) (Some f) None None).1 = []) as Hnone.
  { unfold detect. destruct Hbroken as [-> |(m & -> & Hm)]; [done|].
    destruct (size f =? 0); [done|]. simpl. by rewrite Hm. }
  destruct (process_frame_events now ed f md) as (pr & Hpr & Hdet & Hev & Hed).
  exists pr. split; [done|]. rewrite Hnone in Hdet. split; [done|].
  rewrite Hed, Hev, Hdet. done.
Qed.

Lemma process_frame_without_detector_witness :
  ∃ pr, (process_frame 100 fresh (Some frame720) (at_cam1 100)).1.1 = Some pr ∧
        pr_events pr = [].
Proof.
  destruct (process_frame_without_detector 100 fresh frame720 (at_cam1 100)
              (or_introl eq_refl)) as (pr & Hpr & _ & Hev & _).
  exists pr. split; [exact Hpr|exact Hev].
Defined.

Lemma string_app_assoc (a b c : string) : (a +:+ b) +:+ c = a +:+ (b +:+ c).
Proof.
  induction a as [|ch a IH]; [done|].
  change (String ch ((a +:+ b) +:+ c) = String ch (a +:+ (b +:+ c))). by rewrite IH.
Qed.

Lemma no_underscore_app a b : no_underscore (a +:+ "_" +:+ b) → False.
Proof. induction a as [|ch a IH]; simpl; [by intros [H _]|]. intros [_ H]. by apply IH. Qed.

(** Debounce keys are [camera + "_" + class].  For class names without
    an underscore (all the classes of interest) two keys are equal only
    for the same camera and class; for class names with an underscore
    different pairs can share one key. *)
Theorem event_key_collisions :
  (∀ cam1 cam2 c1 c2, no_underscore c1 → no_underscore c2 →
     event_key cam1 c1 = event_key cam2 c2 → cam1 = cam2 ∧ c1 = c2) ∧
  (∀ ed0 minc c, c ∈ classes_of_interest (init ed0 minc) → no_underscore c) ∧
  (∀ a b c, event_key (a +:+ "_" +:+ b) c = event_key a (b +:+ "_" +:+ c)).
Proof.
  split; [|split].
  - unfold event_key. intros cam1. induction cam1 as [|ch cam1 IH]; intros cam2 c1 c2 H1 H2.
    + destruct cam2 as [|ch2 cam2]; simpl.
      * intros [= Heq]. change ("" +:+ c1 = "" +:+ c2) with (c1 = c2) in Heq. by subst.
      * intros [= <- Heq].
        change ("" +:+ c1 = cam2 +:+ "_" +:+ c2) with (c1 = cam2 +:+ "_" +:+ c2) in Heq.
        rewrite Heq in H1. by apply no_underscore_app in H1.
    + destruct cam2 as [|ch2 cam2]; simpl.
      * intros [= -> Heq].
        change (cam1 +:+ "_" +:+ c1 = "" +:+ c2) with (cam1 +:+ "_" +:+ c1 = c2) in Heq.
        rewrite <- Heq in H2. by apply no_underscore_app in H2.
      * intros [= -> Heq]. destruct (IH cam2 c1 c2 H1 H2 Heq) as [-> ->]. done.
  - intros ed0 minc c Hc. simpl in Hc.
    repeat (apply elem_of_cons in Hc as [->|Hc]; [by repeat split|]).
    by apply elem_of_nil in Hc.
  - intros a b c. unfold event_key. by rewrite !string_app_assoc.
Qed.

End DetectorExtras.

(** * Further properties of the capture loop and the registry *)

Section CameraExtras.
Import Camera CameraInv.

Lemma closed_not_open env s : closed s → cap_is_open env s = false.
Proof. intros [H|H]; unfold cap_is_open; by rewrite H. Qed.

Lemma connect_facts env s :
  ((_connect env s).1.2 = true ↔ env_connect env = ConnectOk) ∧
  ((_connect env s).1.2 = true →
     cap (_connect env s).1.1 = Some opened ∧ connected (_connect env s).1.1 = true) ∧
  ((_connect env s).1.2 = false →
     closed (_connect env s).1.1 ∧ connected (_connect env s).1.1 = connected s) ∧
  releases (_connect env s).2 =
    ((match cap s with Some _ => 1 | None => 0 end) +
     (match env_connect env with ConnectNoFrame => 1 | _ => 0 end))%nat ∧
  connect_attempts (_connect env s).2 = 1%nat ∧
  running (_connect env s).1.1 = running s ∧
  thread (_connect env s).1.1 = thread s ∧
  callbacks (_connect env s).1.1 = callbacks s ∧
  config (_connect env s).1.1 = config s.
Proof.
  unfold _connect, closed.
  destruct (cap s) as [c|] eqn:Hcap; destruct (env_connect env); simpl;
    rewrite ?Hcap; repeat split; intros; try done; auto.
Qed.

(** [_connect] returns True exactly when the source opens and delivers a
    test frame, and then the stream holds an open capture and is marked
    connected; when it returns False the stream holds no open capture.
    A capture held before the call is released first, and a capture that
    opens but gives no frame is released again. *)
Theorem connect_outcome env s :
  ((_connect env s).1.2 = true ↔ env_connect env = ConnectOk) ∧
  ((_connect env s).1.2 = true →
     cap (_connect env s).1.1 = Some opened ∧ connected (_connect env s).1.1 = true) ∧
  ((_connect env s).1.2 = false →
     closed (_connect env s).1.1 ∧ connected (_connect env s).1.1 = connected s) ∧
  releases (_connect env s).2 =
    ((match cap s with Some _ => 1 | None => 0 end) +
     (match env_connect env with ConnectNoFrame => 1 | _ => 0 end))%nat ∧
  running (_connect env s).1.1 = running s ∧
  callbacks (_connect env s).1.1 = callbacks s.
Proof.
  destruct (connect_facts env s) as (H1 & H2 & H3 & H4 & _ & H5 & _ & H6 & _). done.
Qed.

Lemma start_facts env s :
  running s = false →
  (start env s).1.1 =
    (if (_connect env s).1.2 then set_thread true (set_running true (_connect env s).1.1)
     else (_connect env s).1.1) ∧
  (start env s).1.2 = (_connect env s).1.2.
Proof.
  intros Hrun. unfold start. rewrite Hrun.
  destruct (_connect env s) as [[s1 ok] eff]. simpl. by destruct ok.
Qed.



Lemma connect_attempts_app effs1 effs2 :
  connect_attempts (effs1 ++ effs2) = (connect_attempts effs1 + connect_attempts effs2)%nat.
Proof. unfold connect_attempts. by rewrite filter_app, length_app. Qed.

Lemma connect_attempts_cons_other e effs :
  is_connect_attempt e = false → connect_attempts (e :: effs) = connect_attempts effs.
Proof.
  intros He. unfold connect_attempts. by rewrite filter_cons_False by (rewrite He; done).
Qed.

(** A due reconnection round whose attempt fails: one attempt is made,
    the attempt counter goes up by one and the capture stays closed. *)
Lemma run_round_reconnect_fails env s l :
  closed s →
  (inject_Z (reconnect_interval (config s)) <= env_now env - last_reconnect_time l)%Q →
  reconnect_attempts l + 1 ≤ 5 → env_connect env ≠ ConnectOk →
  closed (run_round env s l).1.1 ∧
  running (run_round env s l).1.1 = running s ∧
  config (run_round env s l).1.1 = config s ∧
  reconnect_attempts (run_round env s l).1.2 = reconnect_attempts l + 1 ∧
  last_reconnect_time (run_round env s l).1.2 = env_now env ∧
  connect_attempts (run_round env s l).2 = 1%nat.
Proof.
  intros Hclosed Hdue Hatt Hfail. unfold run_round.
  rewrite (closed_not_open env s Hclosed). cbn [config set_connected].
  destruct (Qlt_le_dec _ _) as [Hlt|_]; [lra|].
  cbn [reconnect_attempts set_reconnect_attempts set_last_reconnect_time].
  unfold max_reconnect_attempts.
  destruct (Z.gtb_spec (reconnect_attempts l + 1) 5); [lia|].
  destruct (connect_facts env (set_connected false s))
    as (Hiff & _ & Hfalse & _ & Hcount & Hr & _ & _ & Hcfg).
  destruct (_connect env (set_connected false s)) as [[s1 ok] eff] eqn:Hc.
  simpl in *. destruct ok; [exfalso; apply Hfail; by apply Hiff|].
  destruct (Hfalse eq_refl) as [Hcl _]. simpl.
  split; [done|]. split; [done|]. split; [done|]. split; [done|]. split; [done|].
  rewrite connect_attempts_cons_other by done.
  rewrite connect_attempts_app, Hcount. reflexivity.
Qed.

(** The due round that would be the sixth attempt in a row makes no
    attempt: it waits twice the interval and clears the counter. *)
Lemma run_round_reconnect_exceeded env s l :
  closed s →
  (inject_Z (reconnect_interval (config s)) <= env_now env - last_reconnect_time l)%Q →
  5 < reconnect_attempts l + 1 →
  (run_round env s l).1.1 = set_connected false s ∧
  reconnect_attempts (run_round env s l).1.2 = 0 ∧
  last_reconnect_time (run_round env s l).1.2 = env_now env ∧
  connect_attempts (run_round env s l).2 = 0%nat ∧
  Sleep (inject_Z (reconnect_interval (config s) * 2)) ∈ (run_round env s l).2.
Proof.
  intros Hclosed Hdue Hatt. unfold run_round.
  rewrite (closed_not_open env s Hclosed). cbn [config set_connected].
  destruct (Qlt_le_dec _ _) as [Hlt|_]; [lra|].
  cbn [reconnect_attempts set_reconnect_attempts set_last_reconnect_time].
  unfold max_reconnect_attempts.
  destruct (Z.gtb_spec (reconnect_attempts l + 1) 5); [|lia].
  simpl. repeat split; try done. set_solver.
Qed.

Lemma reconnect_cycle envs :
  ∀ s l, closed s → running s = true →
  due_rounds (reconnect_interval (config s)) (last_reconnect_time l) envs →
  Forall (λ env, env_connect env ≠ ConnectOk) envs →
  0 ≤ reconnect_attempts l → reconnect_attempts l + len envs = 6 → envs ≠ [] →
  connect_attempts (run_rounds envs s l).2 = Z.to_nat (5 - reconnect_attempts l) ∧
  reconnect_attempts (run_rounds envs s l).1.2 = 0 ∧
  closed (run_rounds envs s l).1.1.
Proof.
  unfold len. induction envs as [|env envs IH]; intros s l Hcl Hrun Hdue Hfail H0 Hlen Hne;
    [done|].
  destruct Hdue as [Hdue Hrest]. apply Forall_cons in Hfail as [Hfail Hfails].
  cbn [length] in Hlen. rewrite run_rounds_cons by done. cbn [fst snd].
  destruct envs as [|env' envs].
  - destruct (run_round_reconnect_exceeded env s l Hcl Hdue) as (Hs & Ha & _ & Hc & _);
      [simpl in Hlen; lia|].
    simpl. rewrite app_nil_r, Hc, Ha, Hs. split; [simpl in Hlen; lia|]. split; [done|].
    destruct Hcl as [H|H]; [left|right]; done.
  - destruct (run_round_reconnect_fails env s l Hcl Hdue) as (Hcl1 & Hr1 & Hcfg & Ha & Hl & Hc);
      [cbn [length] in Hlen; lia|done|].
    destruct (IH (run_round env s l).1.1 (run_round env s l).1.2) as (Hc2 & Ha2 & Hcl2);
      try done.
    + by rewrite Hr1.
    + by rewrite Hcfg, Hl.
    + lia.
    + rewrite Ha. cbn [length] in *. lia.
    + rewrite connect_attempts_app, Hc, Hc2, Ha. cbn [length] in Hlen.
      split; [lia|done].
Qed.

Lemma reconnect_attempts_counted envs :
  ∀ s l, closed s → running s = true →
  due_rounds (reconnect_interval (config s)) (last_reconnect_time l) envs →
  Forall (λ env, env_connect env ≠ ConnectOk) envs →
  reconnect_attempts l + len envs ≤ 5 →
  connect_attempts (run_rounds envs s l).2 = length envs ∧
  reconnect_attempts (run_rounds envs s l).1.2 = reconnect_attempts l + len envs ∧
  closed (run_rounds envs s l).1.1.
Proof.
  unfold len. induction envs as [|env envs IH]; intros s l Hcl Hrun Hdue Hfail Hlen.
  - simpl. split; [done|]. split; [lia|done].
  - destruct Hdue as [Hdue Hrest]. apply Forall_cons in Hfail as [Hfail Hfails].
    cbn [length] in Hlen. rewrite run_rounds_cons by done. cbn [fst snd].
    destruct (run_round_reconnect_fails env s l Hcl Hdue) as (Hcl1 & Hr1 & Hcfg & Ha & Hl & Hc);
      [lia|done|].
    destruct (IH (run_round env s l).1.1 (run_round env s l).1.2) as (Hc2 & Ha2 & Hcl2);
      try done.
    + by rewrite Hr1.
    + by rewrite Hcfg, Hl.
    + lia.
    + rewrite connect_attempts_app, Hc, Hc2, Ha2, Ha. cbn [length].
      split; [done|]. split; [lia|done].
Qed.

Lemma due_rounds_take interval last envs k :
  due_rounds interval last envs → due_rounds interval last (take k envs).
Proof.
  revert last k. induction envs as [|env envs IH]; intros last k; [by destruct k|].
  destruct k; [done|]. intros [H1 H2]. split; [done|]. by apply IH.
Qed.

(** While the capture stays closed and the source keeps failing, the
    loop makes one connection attempt in each of the first five due
    rounds; in the sixth due round it makes none and clears its attempt
    counter, so that six due rounds see exactly five attempts. *)
Theorem reconnect_gives_up_after_five s l envs :
  closed s → running s = true → reconnect_attempts l = 0 →
  length envs = 6%nat →
  due_rounds (reconnect_interval (config s)) (last_reconnect_time l) envs →
  Forall (λ env, env_connect env ≠ ConnectOk) envs →
  (∀ k, (k ≤ 5)%nat → connect_attempts (run_rounds (take k envs) s l).2 = k) ∧
  connect_attempts (run_rounds envs s l).2 = 5%nat ∧
  reconnect_attempts (run_rounds envs s l).1.2 = 0 ∧
  closed (run_rounds envs s l).1.1.
Proof.
  intros Hcl Hrun Hzero Hlen Hdue Hfail. split.
  - intros k Hk.
    destruct (reconnect_attempts_counted (take k envs) s l Hcl Hrun) as (Hc & _ & _).
    + by apply due_rounds_take.
    + by apply Forall_take.
    + unfold len. rewrite length_take. lia.
    + rewrite Hc, length_take. lia.
  - destruct (reconnect_cycle envs s l Hcl Hrun Hdue Hfail) as (Hc & Ha & Hcl');
      [lia|unfold len; lia|by destruct envs|].
    rewrite Hzero in Hc. done.
Qed.

Lemma reconnect_gives_up_after_five_witness :
  connect_attempts
    (run_rounds [unreachable_at 10; unreachable_at 20; unreachable_at 30;
                 unreachable_at 40; unreachable_at 50; unreachable_at 60]
       lost_stream (run_init 0)).2 = 5%nat.
Proof.
  refine (proj1 (proj2 (reconnect_gives_up_after_five lost_stream (run_init 0) _ _ _ _ _ _ _))).
  - by right.
  - reflexivity.
  - reflexivity.
  - reflexivity.
  - repeat split; vm_compute; discriminate.
  - repeat constructor; discriminate.
Defined.

Lemma calls_of_app effs1 effs2 : calls_of (effs1 ++ effs2) = calls_of effs1 ++ calls_of effs2.
Proof. apply omap_app. Qed.

Lemma calls_of_cons_log r effs : calls_of (Log r :: effs) = calls_of effs.
Proof. reflexivity. Qed.

Lemma connect_no_calls env s : calls_of (_connect env s).2 = [].
Proof. unfold _connect. destruct (cap s); by destruct (env_connect env). Qed.

Lemma run_round_reconnect_ok env s l f :
  closed s →
  (inject_Z (reconnect_interval (config s)) <= env_now env - last_reconnect_time l)%Q →
  reconnect_attempts l + 1 ≤ 5 →
  env_connect env = ConnectOk → env_open env = true → env_read env = ReadFrame f →
  cap (run_round env s l).1.1 = Some opened ∧
  connected (run_round env s l).1.1 = true ∧
  frame (run_round env s l).1.1 = Some f ∧
  running (run_round env s l).1.1 = running s ∧
  error_count (run_round env s l).1.2 = 0 ∧
  reconnect_attempts (run_round env s l).1.2 = 0 ∧
  calls_of (run_round env s l).2 =
    (λ cb, (cb_id cb, copy f,
            {| md_camera_name := name (config s); md_timestamp := env_frame_time env;
               md_width := frame_width f; md_height := frame_height f |})) <$> callbacks s.
Proof.
  intros Hclosed Hdue Hatt Hconn Hopen Hread. unfold run_round.
  rewrite (closed_not_open env s Hclosed). cbn [config set_connected].
  destruct (Qlt_le_dec _ _) as [Hlt|_]; [lra|].
  cbn [reconnect_attempts set_reconnect_attempts set_last_reconnect_time].
  unfold max_reconnect_attempts.
  destruct (Z.gtb_spec (reconnect_attempts l + 1) 5); [lia|].
  pose proof (connect_no_calls env (set_connected false s)) as Hnc.
  destruct (connect_facts env (set_connected false s))
    as (Hiff & Htrue & _ & _ & _ & Hr & _ & Hcb & Hcfg).
  destruct (_connect env (set_connected false s)) as [[s1 ok] eff] eqn:Hc.
  simpl in Hiff, Htrue, Hr, Hcb, Hcfg, Hnc.
  destruct ok; [|by apply Hiff in Hconn].
  destruct (Htrue eq_refl) as [Hcap Hcon].
  unfold read_round, cap_is_open. rewrite Hcap, Hopen, Hread. cbn [negb andb cap_opened opened].
  destruct (periodic_log env (name (config s1)) _) as [l1 plog] eqn:Hlog.
  assert (calls_of plog = [] ∧ reconnect_attempts l1 = 0) as [Hplog Hl1].
  { unfold periodic_log in Hlog. destruct (Qlt_le_dec _ _); by injection Hlog as <- <-. }
  cbn [fst snd]. repeat split; try done.
  rewrite calls_of_cons_log, !calls_of_app, Hnc, Hplog.
  rewrite calls_of_cons_log. cbn [app]. rewrite app_nil_r.
  unfold _process_frame. cbn [callbacks config set_frame set_connected].
  rewrite Hcb, Hcfg. apply fan_out_calls.
Qed.

(** When the source is back, the due round that reconnects also reads:
    in that same round the stream holds an open capture again, is marked
    connected, both counters are zero, and the frame read goes to every
    callback. *)
Theorem reconnect_resumes_streaming env s l f :
  closed s →
  (inject_Z (reconnect_interval (config s)) <= env_now env - last_reconnect_time l)%Q →
  reconnect_attempts l + 1 ≤ 5 →
  env_connect env = ConnectOk → env_open env = true → env_read env = ReadFrame f →
  cap (run_round env s l).1.1 = Some opened ∧
  connected (run_round env s l).1.1 = true ∧
  frame (run_round env s l).1.1 = Some f ∧
  error_count (run_round env s l).1.2 = 0 ∧
  reconnect_attempts (run_round env s l).1.2 = 0 ∧
  calls_of (run_round env s l).2 =
    (λ cb, (cb_id cb, copy f,
            {| md_camera_name := name (config s); md_timestamp := env_frame_time env;
               md_width := frame_width f; md_height := frame_height f |})) <$> callbacks s.
Proof.
  intros Hclosed Hdue Hatt Hconn Hopen Hread.
  destruct (run_round_reconnect_ok env s l f Hclosed Hdue Hatt Hconn Hopen Hread)
    as (H1 & H2 & H3 & _ & H4 & H5 & H6). done.
Qed.

Lemma reconnect_resumes_streaming_witness :
  cap (run_round (round_with 10 (ReadFrame picture)) lost_stream (run_init 0)).1.1
    = Some opened ∧
  connected (run_round (round_with 10 (ReadFrame picture)) lost_stream (run_init 0)).1.1
    = true.
Proof.
  destruct (reconnect_resumes_streaming (round_with 10 (ReadFrame picture)) lost_stream
              (run_init 0) picture) as (H1 & H2 & _); try reflexivity.
  - by right.
  - vm_compute. discriminate.
  - vm_compute. discriminate.
  - exact (conj H1 H2).
Defined.


(** [remove_camera] never stops the capture loop: its check reads an
    attribute the stream does not have, so the error path is taken and
    [stop] is not called.  For a registered camera that is running, the
    call returns True and unregisters the id, clears the callbacks,
    releases the capture and sets it to None, but joins no thread and
    leaves the camera object running.  The next round of its loop that is
    due to reconnect, with the source reachable, therefore opens a new
    capture for the unregistered camera; the frame it reads reaches no
    callback. *)
Theorem remove_camera_leaves_loop_running camera_id m camera env l f :
  cameras m !! camera_id = Some camera →
  running camera = true →
  (inject_Z (reconnect_interval (config camera)) <= env_now env - last_reconnect_time l)%Q →
  reconnect_attempts l + 1 ≤ 5 →
  env_connect env = ConnectOk → env_open env = true → env_read env = ReadFrame f →
  ∃ left,
    (remove_camera camera_id m).2 = Some left ∧
    (remove_camera camera_id m).1.1.2 = true ∧
    get_camera camera_id (remove_camera camera_id m).1.1.1 = None ∧
    running left = true ∧ cap left = None ∧ callbacks left = [] ∧
    (Join ∉ (remove_camera camera_id m).1.2) ∧
    releases (remove_camera camera_id m).1.2 =
      (match cap camera with Some _ => 1 | None => 0 end)%nat ∧
    cap (run_round env left l).1.1 = Some opened ∧
    connected (run_round env left l).1.1 = true ∧
    running (run_round env left l).1.1 = true ∧
    calls_of (run_round env left l).2 = [].
Proof.
  intros Hm Hrun Hdue Hatt Hconn Hopen Hread.
  unfold remove_camera, get_camera. rewrite Hm.
  set (left := {| config := config camera; cap := None; frame := frame camera;
                  running := running camera; thread := thread camera;
                  callbacks := []; connected := connected camera |}).
  assert (closed left) as Hclosed by (by left).
  destruct (run_round_reconnect_ok env left l f Hclosed Hdue Hatt Hconn Hopen Hread)
    as (H1 & H2 & _ & H3 & _ & _ & H4).
  exists left.
  destruct camera as [cfg [c|] fr rn th [|cb cbs] cn]; simpl in *; subst rn;
    (repeat split; try done;
     [ apply lookup_delete_eq
     | intros Hin; set_unfold; naive_solver ]).
Qed.

Lemma remove_camera_leaves_loop_running_witness :
  ∃ left,
    (remove_camera "cam1" registry1).2 = Some left ∧
    running left = true ∧
    cap (run_round (round_with 10 (ReadFrame picture)) left (run_init 0)).1.1 = Some opened.
Proof.
  destruct (remove_camera_leaves_loop_running "cam1" registry1 cam1_stream
              (round_with 10 (ReadFrame picture)) (run_init 0) picture)
    as (left & H1 & _ & _ & H2 & _ & _ & _ & _ & H3 & _); try reflexivity.
  - vm_compute. discriminate.
  - vm_compute. discriminate.
  - exists left. done.
Defined.

(** Registering a camera under a free id stores a fresh stream that is
    neither running nor connected and holds no capture, and leaves every
    other id as it was.  A second registration under the same id is
    refused and changes nothing, whatever name and URL it carries.
    Removing the fresh camera gives back the registry as it was before,
    without releasing anything. *)
Theorem add_camera_then_remove camera_id name1 url1 name2 url2 m :
  cameras m !! camera_id = None →
  (add_camera camera_id name1 url1 m).1.2 = true ∧
  get_camera camera_id (add_camera camera_id name1 url1 m).1.1
    = Some (new_stream (default_config name1 url1)) ∧
  running (new_stream (default_config name1 url1)) = false ∧
  cap (new_stream (default_config name1 url1)) = None ∧
  (∀ other, other ≠ camera_id →
     get_camera other (add_camera camera_id name1 url1 m).1.1 = get_camera other m) ∧
  (add_camera camera_id name2 url2 (add_camera camera_id name1 url1 m).1.1).1
    = ((add_camera camera_id name1 url1 m).1.1, false) ∧
  (remove_camera camera_id (add_camera camera_id name1 url1 m).1.1).1.1
    = (m, true) ∧
  releases (remove_camera camera_id (add_camera camera_id name1 url1 m).1.1).1.2 = 0%nat.
Proof.
  intros Hm. unfold add_camera, get_camera. rewrite Hm. cbn [fst snd cameras].
  rewrite lookup_insert_eq. cbn [fst snd].
  repeat split.
  - intros other Hne. by rewrite lookup_insert_ne.
  - unfold remove_camera. cbn [cameras]. rewrite lookup_insert_eq. simpl.
    rewrite delete_insert_id by done. by destruct m.
  - unfold remove_camera. cbn [cameras]. rewrite lookup_insert_eq. reflexivity.
Qed.

Lemma add_camera_then_remove_witness :
  (add_camera "cam2" "Gate" "rtsp://gate" registry1).1.2 = true ∧
  (remove_camera "cam2" (add_camera "cam2" "Gate" "rtsp://gate" registry1).1.1).1.1
    = (registry1, true).
Proof.
  destruct (add_camera_then_remove "cam2" "Gate" "rtsp://gate" "Door" "rtsp://door"
              registry1 eq_refl) as (H1 & _ & _ & _ & _ & _ & H2 & _).
  exact (conj H1 H2).
Defined.

Lemma stop_facts s :
  running (stop s).1 = false ∧
  config (stop s).1 = config s ∧
  callbacks (stop s).1 = callbacks s ∧
  (running s = true →
     connected (stop s).1 = false ∧
     cap (stop s).1 = (match cap s with Some _ => Some released | None => None end) ∧
     releases (stop s).2 = (match cap s with Some _ => 1 | None => 0 end)%nat).
Proof.
  unfold stop. destruct (running s) eqn:Hrun; simpl; [|by rewrite Hrun].
  unfold release_cap. simpl.
  destruct (cap s) eqn:Hcap, (thread s); simpl; rewrite ?Hcap; repeat split; intros; done.
Qed.

(** [stop_all] (and its alias [stop_all_cameras]) keeps the set of
    registered ids and leaves every camera not running; a camera that
    was running is left disconnected with its capture released exactly
    once, a camera that was not running is left untouched and produces
    no effect.  Calling it again changes nothing and has no effect at
    all. *)
Theorem stop_all_cameras_stops_everything m :
  dom (cameras (stop_all_cameras m).1) = dom (cameras m) ∧
  (∀ id s, get_camera id (stop_all_cameras m).1 = Some s → running s = false) ∧
  (∀ id s, get_camera id m = Some s → running s = true →
     ∃ s' eff, get_camera id (stop_all_cameras m).1 = Some s' ∧
               (stop_all_cameras m).2 !! id = Some eff ∧
               connected s' = false ∧ cap s' ≠ Some opened ∧
               releases eff = (match cap s with Some _ => 1 | None => 0 end)%nat) ∧
  (∀ id s, get_camera id m = Some s → running s = false →
     get_camera id (stop_all_cameras m).1 = Some s ∧
     (stop_all_cameras m).2 !! id = Some []) ∧
  (stop_all_cameras (stop_all_cameras m).1).1 = (stop_all_cameras m).1 ∧
  (∀ id eff, (stop_all_cameras (stop_all_cameras m).1).2 !! id = Some eff → eff = []).
Proof.
  unfold stop_all_cameras, stop_all, get_camera. cbn [fst snd cameras].
  split; [apply leibniz_equiv, dom_fmap|].
  split.
  { intros id s Hs. apply lookup_fmap_Some in Hs as (s0 & <- & _).
    apply stop_not_running. }
  split.
  { intros id s Hs Hrun. exists (stop s).1, (stop s).2.
    rewrite !lookup_fmap, Hs. cbn [fmap option_fmap option_map].
    destruct (stop_facts s) as (_ & _ & _ & Hst).
    destruct (Hst Hrun) as (Hc & Hcap & Hrel).
    repeat split; try done. rewrite Hcap. by destruct (cap s). }
  split.
  { intros id s Hs Hrun. rewrite !lookup_fmap, Hs. cbn [fmap option_fmap option_map].
    by rewrite (stop_idle s Hrun). }
  split.
  { f_equal. rewrite <- map_fmap_compose. apply map_fmap_ext.
    intros id s _. simpl. by rewrite (stop_idle _ (stop_not_running s)). }
  intros id eff Hs. rewrite <- map_fmap_compose in Hs.
  apply lookup_fmap_Some in Hs as (s0 & <- & _). simpl.
  by rewrite (stop_idle _ (stop_not_running s0)).
Qed.

(** [start_camera] answers False for an id that is not registered,
    without any connection attempt and without changing the registry.
    For a registered camera that is not running it answers True exactly
    when the source connects; the registered camera then runs with an
    open capture, and otherwise stays stopped.  Other ids are never
    touched. *)
Theorem start_camera_outcome env camera_id m :
  (get_camera camera_id m = None → start_camera env camera_id m = (m, false, [])) ∧
  (∀ s, get_camera camera_id m = Some s → running s = false →
     ((start_camera env camera_id m).1.2 = true ↔ env_connect env = ConnectOk) ∧
     ∃ s', get_camera camera_id (start_camera env camera_id m).1.1 = Some s' ∧
           running s' = (start_camera env camera_id m).1.2 ∧
           ((start_camera env camera_id m).1.2 = true → cap s' = Some opened) ∧
           ((start_camera env camera_id m).1.2 = false → closed s')) ∧
  (∀ other, other ≠ camera_id →
     get_camera other (start_camera env camera_id m).1.1 = get_camera other m).
Proof.
  unfold start_camera, get_camera. split; [by intros ->|]. split.
  - intros s Hs Hrun. rewrite Hs.
    destruct (start_facts env s Hrun) as [Hst Hok].
    destruct (connect_facts env s) as (Hiff & Htrue & Hfalse & _ & _ & Hr & _).
    destruct (start env s) as [[s1 ok] eff]. simpl in *. subst s1 ok.
    split; [done|]. rewrite lookup_insert_eq. eexists. split; [done|].
    destruct ((_connect env s).1.2) eqn:Hb.
    + destruct (Htrue eq_refl) as [Hcap _]. by repeat split.
    + destruct (Hfalse eq_refl) as [Hcl _]. rewrite Hr, Hrun. by repeat split.
  - intros other Hne. destruct (cameras m !! camera_id) as [s|]; [|done].
    destruct (start env s) as [[s1 ok] eff]. simpl. by rewrite lookup_insert_ne.
Qed.

End CameraExtras.

(** * Further properties of the realtime sessions *)

Section RealtimeExtras.
Import Realtime RealtimeInv.

Lemma prefix_app sub rest : String.prefix sub (sub +:+ rest) = true.
Proof.
  induction sub as [|ch sub IH]; [by destruct rest|].
  change (String ch sub +:+ rest) with (String ch (sub +:+ rest)).
  cbn [String.prefix]. destruct (ascii_dec ch ch); [apply IH | done].
Qed.

Lemma contains_prefix sub rest : contains sub (sub +:+ rest) = true.
Proof.
  assert (∀ s, contains sub s = true ∨ String.prefix sub s = false) as Hcases.
  { intros s. destruct s; cbn [contains]; destruct (String.prefix sub _); auto. }
  destruct (Hcases (sub +:+ rest)) as [H|H]; [done|]. by rewrite prefix_app in H.
Qed.

Lemma contains_app_r sub s t : contains sub t = true → contains sub (s +:+ t) = true.
Proof.
  intros Ht. induction s as [|ch s IH]; [done|].
  change (String ch s +:+ t) with (String ch (s +:+ t)).
  cbn [contains]. rewrite IH. apply orb_true_r.
Qed.

Lemma open_url_mentions_transport url sep :
  contains "rtsp_transport" (url +:+ sep +:+ "rtsp_transport=tcp") = true.
Proof.
  apply contains_app_r, contains_app_r.
  apply (contains_prefix "rtsp_transport" "=tcp").
Qed.

(** The address given to OpenCV: an RTSP address always names a
    transport in it, an address that is not RTSP or that names a
    transport already is passed unchanged, and rewriting is
    idempotent.  What is appended starts a query string with [?] when
    the address has none and continues it with [&] otherwise. *)
Theorem open_url_forces_tcp url :
  (contains "rtsp://" url = true → contains "rtsp_transport" (open_url url) = true) ∧
  (contains "rtsp://" url = false ∨ contains "rtsp_transport" url = true →
     open_url url = url) ∧
  (contains "rtsp://" url = true → contains "rtsp_transport" url = false →
     open_url url =
       url +:+ (if contains "?" url then "&" else "?") +:+ "rtsp_transport=tcp") ∧
  open_url (open_url url) = open_url url.
Proof.
  unfold open_url at 1 2 3.
  destruct (contains "rtsp://" url) eqn:Hr, (contains "rtsp_transport" url) eqn:Ht;
    cbn [andb negb]; (repeat split; try done; try (by intros [?|?]);
                      try (intros; apply open_url_mentions_transport)).
  all: unfold open_url; rewrite ?Hr, ?Ht; cbn [andb negb];
    rewrite ?Hr, ?Ht; cbn [andb negb]; try done.
  all: by rewrite open_url_mentions_transport, andb_false_r.
Qed.

Lemma open_url_forces_tcp_witness :
  contains "rtsp_transport" (open_url "rtsp://gate/stream?user=a") = true ∧
  open_url "http://gate/stream" = "http://gate/stream".
Proof.
  destruct (open_url_forces_tcp "rtsp://gate/stream?user=a") as (H1 & _).
  destruct (open_url_forces_tcp "http://gate/stream") as (_ & H2 & _).
  split; [by apply H1 | apply H2; by left].
Defined.


Lemma loop_round_queue o c :
  (length (q c) ≤ 1)%nat →
  q (loop_round o c).1 = match o with Grabbed frame => [frame] | _ => q c end.
Proof.
  intros Hlen. destruct o as [| |frame]; [done..|]. cbn [loop_round fst q].
  destruct (q c) as [|x [|y rest]]; simpl in *; [done..|lia].
Qed.

Lemma loop_rounds_queue outs : ∀ c,
  (length (q c) ≤ 1)%nat →
  q (loop_rounds outs c) =
    match last (grabbed outs) with Some frame => [frame] | None => q c end.
Proof.
  induction outs as [|o outs IH]; intros c Hlen; [done|].
  unfold loop_rounds. cbn [foldl]. fold (loop_rounds outs (loop_round o c).1).
  pose proof (loop_round_queue o c Hlen) as Hq.
  rewrite IH by (rewrite Hq; destruct o; simpl; lia).
  rewrite Hq. destruct o as [| |frame]; try done.
  change (grabbed (Grabbed frame :: outs)) with (frame :: grabbed outs).
  rewrite last_cons. by destruct (last (grabbed outs)).
Qed.

(** The one-slot queue between the reader thread and the session holds
    the newest frame only: after any run of reader passes the queue has
    at most one frame; if a frame was retrieved during the run, [read]
    returns the last one retrieved, however many came before it, and
    leaves the queue empty, so that a second [read] times out; if none
    was retrieved the queue is as before. *)
Theorem reader_queue_keeps_latest_frame outs c :
  (length (q c) ≤ 1)%nat →
  (length (q (loop_rounds outs c)) ≤ 1)%nat ∧
  (grabbed outs = [] → q (loop_rounds outs c) = q c) ∧
  (∀ frame, last (grabbed outs) = Some frame →
     (read (loop_rounds outs c)).2 = Some frame ∧
     q (read (loop_rounds outs c)).1 = [] ∧
     (read (read (loop_rounds outs c)).1).2 = None).
Proof.
  intros Hlen. pose proof (loop_rounds_queue outs c Hlen) as Hq.
  split; [|split].
  - rewrite Hq. destruct (last (grabbed outs)); simpl; lia.
  - intros Hnone. by rewrite Hq, Hnone.
  - intros frame Hlast. rewrite Hlast in Hq. unfold read. rewrite Hq. done.
Qed.

Lemma reader_queue_keeps_latest_frame_witness :
  (read (loop_rounds [Grabbed 8%nat; NotGrabbed; Grabbed 9%nat] (camera session1))).2
    = Some 9%nat.
Proof.
  destruct (reader_queue_keeps_latest_frame [Grabbed 8%nat; NotGrabbed; Grabbed 9%nat]
              (camera session1)) as (_ & _ & H); [simpl; lia|].
  by apply (H 9%nat).
Defined.

Lemma filter_cases {A} (P : A → Prop) `{!∀ x, Decision (P x)} (l : list A) :
  (filter P l = [] ∧ Forall (λ x, ¬ P x) l) ∨ (filter P l ≠ [] ∧ Exists P l).
Proof.
  induction l as [|x l IH]; [left; by split|].
  destruct (decide (P x)) as [Hx|Hx].
  - right. rewrite filter_cons_True by done. split; [done | by left].
  - rewrite filter_cons_False by done.
    destruct IH as [[Hf Hall]|[Hf Hex]]; [left | right]; split; auto.
Qed.

(** The class filter of [predict] never empties a result: the boxes
    returned are none exactly when the model found none.  With a
    non-empty list of wanted classes, the boxes of wanted classes are
    returned when there is at least one; when no box is of a wanted
    class, every box the model found is returned, so the result holds
    only wanted classes exactly when a wanted class was found or nothing
    was found.  With no classes, or an empty list, nothing is filtered. *)
Theorem predict_class_filter names boxes classes :
  (predict names boxes classes = [] ↔ boxes = []) ∧
  (classes = None ∨ classes = Some [] → predict names boxes classes = boxes) ∧
  (∀ cs, classes = Some cs → cs ≠ [] →
     (Exists (λ cid, names cid ∈ cs) boxes →
        predict names boxes classes = filter (λ cid, names cid ∈ cs) boxes) ∧
     (Forall (λ cid, names cid ∉ cs) boxes → predict names boxes classes = boxes) ∧
     (Forall (λ cid, names cid ∈ cs) (predict names boxes classes) ↔
        boxes = [] ∨ Exists (λ cid, names cid ∈ cs) boxes)).
Proof.
  split; [|split].
  - unfold predict. destruct classes as [[|c cs]|]; [done| |done].
    destruct (filter _ boxes) eqn:Hf; [done|]. split; [done|].
    intros ->. done.
  - by intros [->| ->].
  - intros cs -> Hcs. unfold predict. destruct cs as [|c cs]; [done|].
    set (wanted := c :: cs).
    destruct (filter_cases (λ cid, names cid ∈ wanted) boxes) as [[Hf Hall]|[Hf Hex]].
    + rewrite Hf. split; [|split; [done|]].
      * intros Hex. apply Exists_exists in Hex as (cid & Hin & Hw).
        rewrite Forall_forall in Hall. by destruct (Hall cid Hin).
      * split.
        -- intros Hw. destruct boxes as [|cid rest]; [by left|].
           apply Forall_cons in Hall as [Hn _]. apply Forall_cons in Hw as [Hy _]. done.
        -- intros [->|Hex]; [done|].
           apply Exists_exists in Hex as (cid & Hin & Hw).
           rewrite Forall_forall in Hall. by destruct (Hall cid Hin).
    + destruct (filter _ boxes) as [|k keep] eqn:Hk; [done|].
      split; [done|]. split.
      * intros Hall. apply Exists_exists in Hex as (cid & Hin & Hw).
        rewrite Forall_forall in Hall. by destruct (Hall cid Hin).
      * split; [by right|]. intros _. rewrite <- Hk.
        apply Forall_forall. intros cid Hin. by apply list_elem_of_filter in Hin as [? _].
Qed.

Lemma session_start_facts s url opens_ :
  active s = false → cam_running (camera s) = false →
  active (start url opens_ s).1.1 = true ∧
  id (start url opens_ s).1.1 = id s ∧
  cap (camera (start url opens_ s).1.1) = Some (opens_ (open_url url)) ∧
  cam_running (camera (start url opens_ s).1.1) = opens_ (open_url url) ∧
  thread_alive (camera (start url opens_ s).1.1) =
    (if opens_ (open_url url) then Some true else thread_alive (camera s)) ∧
  ((start url opens_ s).1.2 = None ↔ opens_ (open_url url) = true).
Proof.
  intros Ha Hr. unfold start, camera_start, _open. rewrite Ha, Hr.
  destruct (opens_ (open_url url)); simpl; repeat split; done.
Qed.

(** Starting a session registers it before its camera is opened.  For a
    free key and a model that loads, the session is stored active under
    the key whether or not the camera opens; the route answers
    [started] exactly when it opens, and raises otherwise, leaving the
    stored session active with a camera that is not running.  Any later
    start for the key answers [already_running] and changes nothing.
    [stop_session] on the key answers [stopped], releases the capture
    once and gives back the sessions as they were; after it the key is
    [not_found]. *)
Theorem start_route_registers_before_opening env cam_id user_id req
    (sessions : gmap string RealtimeSession) :
  sessions !! session_key cam_id user_id = None →
  yolo_loads env = true →
  ∃ sess,
    (start_realtime_detection_compat env cam_id user_id req sessions).1
      = <[session_key cam_id user_id := sess]> sessions ∧
    active sess = true ∧
    cam_running (camera sess) = opens env (open_url (rtsp_url req)) ∧
    ((start_realtime_detection_compat env cam_id user_id req sessions).2
       = Status "started" (session_key cam_id user_id)
     ↔ opens env (open_url (rtsp_url req)) = true) ∧
    (opens env (open_url (rtsp_url req)) = false →
       ∃ err, (start_realtime_detection_compat env cam_id user_id req sessions).2
                = Raises err) ∧
    (∀ env' req',
       start_realtime_detection_compat env' cam_id user_id req'
         (<[session_key cam_id user_id := sess]> sessions)
       = (<[session_key cam_id user_id := sess]> sessions,
          Status "already_running" (session_key cam_id user_id))) ∧
    (stop_session (session_key cam_id user_id)
       (<[session_key cam_id user_id := sess]> sessions)).1
      = (sessions, Status "stopped" (session_key cam_id user_id)) ∧
    releases (stop_session (session_key cam_id user_id)
                (<[session_key cam_id user_id := sess]> sessions)).2 = 1%nat ∧
    stop_session (session_key cam_id user_id) sessions
      = (sessions, Status "not_found" (session_key cam_id user_id), []).
Proof.
  intros Hfree Hyolo. unfold start_realtime_detection_compat.
  rewrite Hfree, Hyolo. cbn [negb].
  set (key := session_key cam_id user_id) in *.
  set (fresh := {| id := key; camera := _; detector := _; classes := _; conf := _;
                   websockets := _; active := false; last_jpeg := _ |}).
  destruct (session_start_facts fresh (rtsp_url req) (opens env) eq_refl eq_refl)
    as (Hact & Hid & Hcap & Hrun & Hth & Herr).
  destruct (start (rtsp_url req) (opens env) fresh) as [[sess err] eff].
  cbn [fst snd] in *. exists sess.
  split; [done|]. split; [done|]. split; [done|]. split.
  { destruct err as [e|]; split; try done.
    - intros Ho. apply Herr in Ho. done.
    - intros _. by apply Herr. }
  split.
  { intros Ho. destruct err as [e|]; [by exists e|].
    destruct Herr as [Herr _]. rewrite Herr in Ho; done. }
  split.
  { intros env' req'. by rewrite lookup_insert_eq. }
  unfold stop_session. rewrite lookup_insert_eq, Hfree. cbn [fst snd].
  split; [by rewrite delete_insert_id|]. split; [|done].
  unfold stop, camera_stop. rewrite Hcap. simpl.
  by destruct (thread_alive (camera sess)) as [[|]|].
Qed.

Lemma start_route_registers_before_opening_witness :
  ∃ sess,
    (start_realtime_detection_compat nothing_opens "gate" 1 gate_request ∅).1
      = <[session_key "gate" 1 := sess]> ∅ ∧
    active sess = true ∧ cam_running (camera sess) = false.
Proof.
  destruct (start_route_registers_before_opening nothing_opens "gate" 1 gate_request ∅)
    as (sess & H1 & H2 & H3 & _); [reflexivity..|].
  exists sess. done.
Defined.

End RealtimeExtras.

(** * Further properties of the WebSocket connection manager *)

Section WebsocketExtras.
Import Websocket WebsocketInv.

Lemma list_remove_not_in {A} `{EqDecision A} (x : A) l :
  NoDup l → x ∉ list_remove x l.
Proof.
  induction 1 as [|y l Hy Hnd IH]; simpl; [apply not_elem_of_nil|].
  destruct (decide (y = x)) as [->|Hne]; [done|].
  rewrite elem_of_cons. intros [->|Hin]; done.
Qed.

Lemma list_remove_other {A} `{EqDecision A} (x y : A) l :
  y ≠ x → y ∈ list_remove x l ↔ y ∈ l.
Proof.
  intros Hne. induction l as [|z l IH]; simpl; [done|].
  destruct (decide (z = x)) as [->|Hz]; rewrite !elem_of_cons; [|by rewrite IH].
  split; [by right|]. by intros [?|?].
Qed.

Lemma list_remove_NoDup {A} `{EqDecision A} (x : A) l : NoDup l → NoDup (list_remove x l).
Proof.
  induction 1 as [|y l Hy Hnd IH]; simpl; [constructor|].
  destruct (decide (y = x)) as [->|Hne]; [done|].
  constructor; [|done]. intros Hin. apply Hy.
  destruct (decide (y = x)) as [->|Hyx]; [done|]. by apply (list_remove_other x y l).
Qed.

Lemma apply_op_distinct m o : distinct_subscribers m → distinct_subscribers (apply_op m o).
Proof.
  intros Hm camera clients. destruct o as [ws c|ws c|c cam|c cam]; simpl.
  - apply Hm.
  - rewrite lookup_fmap. destruct (camera_streams m !! camera) as [l|] eqn:Hl; [|done].
    intros [= <-]. specialize (Hm _ _ Hl). case_decide; [by apply list_remove_NoDup|done].
  - unfold subscribe_to_camera. simpl.
    assert (NoDup (default [] (camera_streams m !! cam))) as Hnd.
    { destruct (camera_streams m !! cam) eqn:Hl; [by apply (Hm cam)|constructor]. }
    case_decide as Hin; destruct (decide (cam = camera)) as [->|Hne];
      rewrite ?lookup_insert_eq, ?lookup_insert_ne by done;
      try apply Hm; intros [= <-]; [done|].
    apply NoDup_app. split; [done|]. split; [|apply NoDup_singleton].
    intros x Hx Hx'. apply list_elem_of_singleton in Hx'. by subst.
  - unfold unsubscribe_from_camera.
    destruct (camera_streams m !! cam) as [l|] eqn:Hl; [|apply Hm].
    case_decide; [|apply Hm]. simpl.
    destruct (decide (cam = camera)) as [->|Hne];
      rewrite ?lookup_insert_eq, ?lookup_insert_ne by done; [|apply Hm].
    intros [= <-]. apply list_remove_NoDup. by apply (Hm camera).
Qed.

Lemma after_distinct ops : distinct_subscribers (after ops).
Proof.
  unfold after. induction ops as [|o ops IH] using rev_ind; [by intros ? ? ?|].
  rewrite foldl_app. simpl. by apply apply_op_distinct.
Qed.

Lemma sent_to_personal fails camera client m ws :
  ws ∈ sent_to (send_personal_message fails camera client m) ↔
  ws ∈ sockets_of client m ∧ fails ws = false.
Proof.
  unfold send_personal_message, sockets_of, sent_to.
  assert (∀ P : Prop, ws ∈ @nil nat ↔ ws ∈ @nil nat ∧ P) as Hnil.
  { intros P. split; [by intros ?%elem_of_nil | by intros [?%elem_of_nil _]]. }
  destruct (active_connections m !! client) as [l|]; simpl; [|apply Hnil].
  induction l as [|x l IH]; simpl; [apply Hnil|].
  clear Hnil.
  destruct (fails x) eqn:Hx; simpl; rewrite ?elem_of_cons, IH.
  - split; [intros [? ?]; by auto|]. intros [[->|?] ?]; [congruence|done].
  - split; [intros [->|[? ?]]; by auto|]. intros [[->|?] ?]; by auto.
Qed.

Lemma sent_to_frame fails camera m ws :
  ws ∈ sent_to (send_camera_frame true fails camera m) ↔
  ∃ client, client ∈ subscribers camera m ∧ ws ∈ sockets_of client m ∧ fails ws = false.
Proof.
  unfold send_camera_frame, subscribers.
  assert (ws ∈ @nil nat ↔
          ∃ client, client ∈ @nil string ∧ ws ∈ sockets_of client m ∧ fails ws = false)
    as Hnil.
  { split; [by intros ?%elem_of_nil | by intros (? & ?%elem_of_nil & _)]. }
  destruct (camera_streams m !! camera) as [clients|]; simpl; [|apply Hnil].
  assert (ws ∈ sent_to (concat ((λ c, send_personal_message fails camera c m) <$> clients))
          ↔ ∃ client, client ∈ clients ∧ ws ∈ sockets_of client m ∧ fails ws = false) as H.
  { induction clients as [|c clients IH]; simpl; [apply Hnil|].
    unfold sent_to in *. rewrite omap_app, elem_of_app, IH.
    pose proof (sent_to_personal fails camera c m ws) as Hp. unfold sent_to in Hp.
    rewrite Hp. clear. split.
    - intros [[? ?]|(cl & ? & ? & ?)]; [exists c | exists cl];
        rewrite elem_of_cons; by auto.
    - intros (cl & [->|?]%elem_of_cons & ? & ?); [by left|]. right. by exists cl. }
  destruct clients as [|c clients]; [apply Hnil|]. exact H.
Qed.

(** Frames of a camera go to the subscribers' sockets and to no others:
    a socket is handed the frame exactly when it belongs to a client
    subscribed to that camera and its send does not raise, so a socket
    whose send raises does not keep the others from getting the frame.
    When the encoding fails nothing is sent.  After [subscribe_to_camera]
    every working socket of the client gets the camera's frames, and
    subscribing twice is the same as subscribing once. *)
Theorem frames_go_to_subscribers fails camera_id client_id m :
  (∀ ws, ws ∈ sent_to (send_camera_frame true fails camera_id m) ↔
     ∃ client, client ∈ subscribers camera_id m ∧ ws ∈ sockets_of client m ∧
               fails ws = false) ∧
  sent_to (send_camera_frame false fails camera_id m) = [] ∧
  (∀ ws, ws ∈ sockets_of client_id m → fails ws = false →
     ws ∈ sent_to (send_camera_frame true fails camera_id
                     (subscribe_to_camera client_id camera_id m))) ∧
  subscribers camera_id
    (subscribe_to_camera client_id camera_id (subscribe_to_camera client_id camera_id m))
  = subscribers camera_id (subscribe_to_camera client_id camera_id m).
Proof.
  split; [intros ws; apply sent_to_frame|]. split.
  { unfold send_camera_frame. by destruct (camera_streams m !! camera_id) as [[|c l]|]. }
  assert (client_id ∈ subscribers camera_id (subscribe_to_camera client_id camera_id m))
    as Hsub.
  { unfold subscribers, subscribe_to_camera. simpl.
    case_decide; rewrite lookup_insert_eq; simpl; [done|set_solver]. }
  split.
  - intros ws Hws Hok. apply sent_to_frame. exists client_id. done.
  - unfold subscribers in *. unfold subscribe_to_camera at 1. simpl.
    rewrite decide_True by done. by rewrite lookup_insert_eq.
Qed.

(** Whatever the history of calls, no camera lists a client twice, and
    therefore [disconnect] of one socket of a client takes the client
    off every camera: no frame of any camera is sent to any of the
    client's sockets afterwards, also not to the sockets the client
    still has open.  The other clients' subscriptions are as before,
    and of the client's sockets only the one disconnected can be gone. *)
Theorem disconnect_drops_all_subscriptions ops ws client_id :
  distinct_subscribers (after ops) ∧
  (∀ camera_id, client_id ∉ subscribers camera_id (disconnect ws client_id (after ops))) ∧
  (∀ camera_id other, other ≠ client_id →
     other ∈ subscribers camera_id (disconnect ws client_id (after ops)) ↔
     other ∈ subscribers camera_id (after ops)) ∧
  (∀ ws', ws' ≠ ws → ws' ∈ sockets_of client_id (after ops) →
     ws' ∈ sockets_of client_id (disconnect ws client_id (after ops))) ∧
  (∀ fails camera_id ws',
     (∀ other, other ≠ client_id → ws' ∉ sockets_of other (after ops)) →
     ws' ∉ sent_to (send_camera_frame true fails camera_id
                      (disconnect ws client_id (after ops)))).
Proof.
  pose proof (after_distinct ops) as Hnd. set (m := after ops) in *.
  assert (∀ camera_id, client_id ∉ subscribers camera_id (disconnect ws client_id m)) as Hgone.
  { intros camera. unfold subscribers, disconnect. simpl. rewrite lookup_fmap.
    destruct (camera_streams m !! camera) as [l|] eqn:Hl; simpl; [|set_solver].
    case_decide; [|done]. apply list_remove_not_in. by apply (Hnd camera). }
  assert (∀ other, other ≠ client_id →
            sockets_of other (disconnect ws client_id m) = sockets_of other m) as Hother.
  { intros other Hne. unfold sockets_of, disconnect. simpl.
    destruct (active_connections m !! client_id) as [l|]; [|done].
    destruct (if decide (ws ∈ l) then list_remove ws l else l);
      by rewrite ?lookup_delete_ne, ?lookup_insert_ne by done. }
  split; [done|]. split; [done|]. split; [|split].
  - intros camera other Hne. unfold subscribers, disconnect. simpl. rewrite lookup_fmap.
    destruct (camera_streams m !! camera) as [l|]; simpl; [|done].
    case_decide; [|done]. by apply list_remove_other.
  - intros ws' Hne. unfold sockets_of, disconnect. simpl.
    destruct (active_connections m !! client_id) as [l|] eqn:Hl; simpl; [|set_solver].
    intros Hin.
    assert (ws' ∈ (if decide (ws ∈ l) then list_remove ws l else l)) as Hin'.
    { case_decide; [by apply list_remove_other|done]. }
    destruct (if decide (ws ∈ l) then list_remove ws l else l) as [|x rest];
      [by apply elem_of_nil in Hin'|]. by rewrite lookup_insert_eq.
  - intros fails camera ws' Honly Hsent.
    apply sent_to_frame in Hsent as (client & Hsub & Hsock & _).
    destruct (decide (client = client_id)) as [->|Hne]; [by apply (Hgone camera)|].
    rewrite Hother in Hsock by done. by apply (Honly client).
Qed.

End WebsocketExtras.
